(** * TreeSearch: hit pairing, hit-set similarity and the pattern generator

    A shallow embedding of [src/Hit.cxx] (HitPairIter, HitSet) and
    [src/PatternGenerator.cxx] (ChildIter, hash table, geometry cuts,
    MakeChildNodes, Generate), with the properties of the design document
    stated and settled against it.

    Conventions.
    - A pointer to a heap object is the object's value together with a
      decidable equality (hits), or an index into an arena (patterns).  A
      null pointer is [None].
    - A ROOT [TIterator] over a [TSeqCollection] is the list of the
      elements it has not returned yet; [Next()] pops the head and keeps
      returning null at the end.  A null collection behaves as an empty
      one: its iterator is never dereferenced.
    - Bins, depths and counters ([UShort_t], [Int_t], [UInt_t]) are
      integers of [Z].  The conversions to unsigned that the source makes
      ([UInt_t width = pat.GetWidth()], [1U << plane],
      [Hash() % hashsize]) are written with [wrap32].  The shifts
      [1 << nbits], [1 << (fNlevels-1)], [1 << depth] and [bit << 1] are
      exact: they stay within [Int_t] for fewer than 31 planes and levels,
      beyond which the C++ code has no defined behaviour.  The bins of a
      pattern are [UShort_t]: [ChildIter16] is the child iterator on
      16-bit bins, and [ChildIter], on integers, makes the same steps
      for every parent with bins below [2^15].
    - [Double_t] quantities are rationals of [Q], a finite double being
      a rational.  Comparisons and the division by a power of two in
      [TestSlope] are exact in binary floating point; the products and
      the differences of [LineCheck] are not, and are rounded to the
      nearest double ([Double.round]), each operation by itself.
    - [Hit.h], [Pattern.h] and [PatternTree.h] are not among the sources.
      What the code under study takes from them is a parameter of the
      section that uses it, or a definition marked "Modelled from the
      spec". *)

From Stdlib Require Import ZArith QArith Qabs List Bool Lia Arith Floats.
From stdpp Require Import base list.
Import ListNotations.

Local Open Scope Z_scope.

(** 32-bit unsigned wrap-around ([UInt_t]). *)
Definition wrap32 (x : Z) : Z := x mod 2 ^ 32.

(* ===================================================================== *)
(** * ROOT collection iterators *)

Module TIterator.

(** [TIterator::Next()]: the next object of the collection, or null. *)
Definition Next {T : Type} (it : list T) : option T * list T :=
  match it with
  | [] => (None, [])
  | x :: rest => (Some x, rest)
  end.

End TIterator.

(* ===================================================================== *)
(** * HitPairIter (src/Hit.cxx, lines 89-274) *)

Module HitPairIter.

Section Iter.

(** [Hit.h] is not part of the sources at hand: the hit type, pointer
    equality on hits and [Hit::Compare] are parameters.  [Dist] is the
    type of the tolerance ([Double_t] in the source). *)
Variable Hit : Type.
Variable Hit_eq_dec : forall x y : Hit, {x = y} + {x <> y}.
Variable Dist : Type.
Variable Compare : Hit -> Hit -> Dist -> Z.

(** [ObjectPair_t]: a pair of possibly-null hit pointers. *)
Definition ObjectPair : Type := (option Hit * option Hit)%type.

Definition ptr_eqb (p q : option Hit) : bool :=
  match p, q with
  | None, None => true
  | Some x, Some y => if Hit_eq_dec x y then true else false
  | _, _ => false
  end.

Record t : Type := mk {
  fCollA : list Hit;
  fCollB : list Hit;
  fIterA : list Hit;
  fIterB : list Hit;
  fSaveIter : list Hit;
  fSaveHit : option Hit;
  fMaxDist : Dist;
  fStarted : bool;
  fScanning : bool;
  fCurrent : ObjectPair;
  fNext : ObjectPair
}.

(** The member initialisers of the main constructor, before its body
    calls [Next()]. *)
Definition init (collA collB : list Hit) (maxdist : Dist) : t :=
  {| fCollA := collA; fCollB := collB;
     fIterA := collA; fIterB := collB; fSaveIter := collB;
     fSaveHit := None; fMaxDist := maxdist;
     fStarted := false; fScanning := false;
     fCurrent := (None, None); fNext := (None, None) |}.

(** Lines 233-234:
    [while( hitB != nextB && hitB->Compare(hitA,fMaxDist) < 0 )
       hitB = fIterB->Next();]
    [None] is a null-pointer dereference of [hitB]. *)
Fixpoint skipB (maxdist : Dist) (hitA : Hit) (nextB hitB : option Hit)
         (itB : list Hit) {struct itB} : option (option Hit * list Hit) :=
  if ptr_eqb hitB nextB then Some (hitB, itB)
  else match hitB with
       | None => None
       | Some b =>
           if Compare b hitA maxdist <? 0 then
             match itB with
             | [] => (* hitB becomes null; the test runs once more *)
                 match nextB with
                 | None => Some (None, [])
                 | Some _ => None
                 end
             | x :: rest => skipB maxdist hitA nextB (Some x) rest
             end
           else Some (hitB, itB)
       end.

(** Lines 194-198: the first call fetches the first hit of each side. *)
Definition start (it : t) : t :=
  if fStarted it then it
  else
    let '(a, itA) := TIterator.Next (fIterA it) in
    let '(b, itB) := TIterator.Next (fIterB it) in
    {| fCollA := fCollA it; fCollB := fCollB it;
       fIterA := itA; fIterB := itB; fSaveIter := fSaveIter it;
       fSaveHit := fSaveHit it; fMaxDist := fMaxDist it;
       fStarted := true; fScanning := fScanning it;
       fCurrent := fCurrent it; fNext := (a, b) |}.

(** Lines 200-273. *)
Definition advance (it : t) : option t :=
  let cur := fNext it in
  match cur with
  | (Some hitA, Some hitB) =>
      let c := Compare hitA hitB (fMaxDist it) in
      if c =? -1 then
        let '(a', itA) := TIterator.Next (fIterA it) in
        Some {| fCollA := fCollA it; fCollB := fCollB it;
                fIterA := itA; fIterB := fIterB it;
                fSaveIter := fSaveIter it; fSaveHit := fSaveHit it;
                fMaxDist := fMaxDist it; fStarted := fStarted it;
                fScanning := fScanning it;
                fCurrent := (Some hitA, None);
                fNext := (a', Some hitB) |}
      else if c =? 1 then
        let '(b', itB) := TIterator.Next (fIterB it) in
        Some {| fCollA := fCollA it; fCollB := fCollB it;
                fIterA := fIterA it; fIterB := itB;
                fSaveIter := fSaveIter it; fSaveHit := fSaveHit it;
                fMaxDist := fMaxDist it; fStarted := fStarted it;
                fScanning := fScanning it;
                fCurrent := (None, Some hitB);
                fNext := (Some hitA, b') |}
      else
        let '(nextB, itB) := TIterator.Next (fIterB it) in
        let ends :=
          match nextB with
          | None => true
          | Some nb => Compare hitA nb (fMaxDist it) <? 0
          end in
        if ends then
          if fScanning it then
            (* end of a scan of plane B with fixed hitA *)
            let itB0 := fSaveIter it in
            let '(a', itA) := TIterator.Next (fIterA it) in
            match a' with
            | Some hA =>
                match skipB (fMaxDist it) hA nextB (fSaveHit it) itB0 with
                | None => None
                | Some (hB, itB1) =>
                    Some {| fCollA := fCollA it; fCollB := fCollB it;
                            fIterA := itA; fIterB := itB1;
                            fSaveIter := fSaveIter it;
                            fSaveHit := fSaveHit it;
                            fMaxDist := fMaxDist it;
                            fStarted := fStarted it;
                            fScanning := false;
                            fCurrent := cur;
                            fNext := (Some hA, hB) |}
                end
            | None =>
                Some {| fCollA := fCollA it; fCollB := fCollB it;
                        fIterA := itA; fIterB := itB0;
                        fSaveIter := fSaveIter it;
                        fSaveHit := fSaveHit it;
                        fMaxDist := fMaxDist it;
                        fStarted := fStarted it;
                        fScanning := false;
                        fCurrent := cur;
                        fNext := (None, nextB) |}
            end
          else
            let '(a', itA) := TIterator.Next (fIterA it) in
            Some {| fCollA := fCollA it; fCollB := fCollB it;
                    fIterA := itA; fIterB := itB;
                    fSaveIter := fSaveIter it; fSaveHit := fSaveHit it;
                    fMaxDist := fMaxDist it; fStarted := fStarted it;
                    fScanning := false;
                    fCurrent := cur;
                    fNext := (a', nextB) |}
        else
          (* more than one B matches this A: scanning mode *)
          let save := if fScanning it then fSaveIter it else itB in
          let saveh := if fScanning it then fSaveHit it else Some hitB in
          Some {| fCollA := fCollA it; fCollB := fCollB it;
                  fIterA := fIterA it; fIterB := itB;
                  fSaveIter := save; fSaveHit := saveh;
                  fMaxDist := fMaxDist it; fStarted := fStarted it;
                  fScanning := true;
                  fCurrent := cur;
                  fNext := (Some hitA, nextB) |}
  | (Some hitA, None) =>
      let '(a', itA) := TIterator.Next (fIterA it) in
      Some {| fCollA := fCollA it; fCollB := fCollB it;
              fIterA := itA; fIterB := fIterB it;
              fSaveIter := fSaveIter it; fSaveHit := fSaveHit it;
              fMaxDist := fMaxDist it; fStarted := fStarted it;
              fScanning := fScanning it;
              fCurrent := cur;
              fNext := (a', None) |}
  | (None, Some hitB) =>
      let '(b', itB) := TIterator.Next (fIterB it) in
      Some {| fCollA := fCollA it; fCollB := fCollB it;
              fIterA := fIterA it; fIterB := itB;
              fSaveIter := fSaveIter it; fSaveHit := fSaveHit it;
              fMaxDist := fMaxDist it; fStarted := fStarted it;
              fScanning := fScanning it;
              fCurrent := cur;
              fNext := (None, b') |}
  | (None, None) =>
      Some {| fCollA := fCollA it; fCollB := fCollB it;
              fIterA := fIterA it; fIterB := fIterB it;
              fSaveIter := fSaveIter it; fSaveHit := fSaveHit it;
              fMaxDist := fMaxDist it; fStarted := fStarted it;
              fScanning := fScanning it;
              fCurrent := cur;
              fNext := (None, None) |}
  end.

(** [HitPairIter::Next()]. *)
Definition Next (it : t) : option t := advance (start it).

(** The main constructor: initialisers, then [Next()]. *)
Definition ctor (collA collB : list Hit) (maxdist : Dist) : option t :=
  Next (init collA collB maxdist).

(** The pairs published by [n] successive calls of [Next()], oldest
    first, and the iterator they leave. *)
Fixpoint emit (n : nat) (it : t) : option (list ObjectPair * t) :=
  match n with
  | O => Some ([], it)
  | S k =>
      match Next it with
      | None => None
      | Some it1 =>
          match emit k it1 with
          | None => None
          | Some (l, it2) => Some (fCurrent it1 :: l, it2)
          end
      end
  end.

(** The copy constructor (lines 110-128).  [fMaxDist(fMaxDist)]
    initialises the member from itself, that is from whatever the
    storage of the new object holds: that value is the argument
    [garbage]. *)
Definition copy_ctor (garbage : Dist) (rhs : t) : t :=
  {| fCollA := fCollA rhs; fCollB := fCollB rhs;
     fIterA := fIterA rhs; fIterB := fIterB rhs;
     fSaveIter := fSaveIter rhs; fSaveHit := fSaveHit rhs;
     fMaxDist := garbage; fStarted := fStarted rhs;
     fScanning := fScanning rhs;
     fCurrent := fCurrent rhs; fNext := fNext rhs |}.

(** The assignment operator (lines 131-158) copies [rhs.fMaxDist]; it
    does not assign [fSaveHit]. *)
Definition assign (self rhs : t) : t :=
  {| fCollA := fCollA rhs; fCollB := fCollB rhs;
     fIterA := fIterA rhs; fIterB := fIterB rhs;
     fSaveIter := fSaveIter rhs; fSaveHit := fSaveHit self;
     fMaxDist := fMaxDist rhs; fStarted := fStarted rhs;
     fScanning := fScanning rhs;
     fCurrent := fCurrent rhs; fNext := fNext rhs |}.

End Iter.

Arguments ptr_eqb {Hit} Hit_eq_dec p q.
Arguments init {Hit Dist} collA collB maxdist.
Arguments skipB {Hit} Hit_eq_dec {Dist} Compare maxdist hitA nextB hitB itB.
Arguments start {Hit Dist} it.
Arguments advance {Hit} Hit_eq_dec {Dist} Compare it.
Arguments Next {Hit} Hit_eq_dec {Dist} Compare it.
Arguments ctor {Hit} Hit_eq_dec {Dist} Compare collA collB maxdist.
Arguments emit {Hit} Hit_eq_dec {Dist} Compare n it.
Arguments copy_ctor {Hit Dist} garbage rhs.
Arguments assign {Hit Dist} self rhs.
Arguments fCollA {Hit Dist} t.
Arguments fCollB {Hit Dist} t.
Arguments fIterA {Hit Dist} t.
Arguments fIterB {Hit Dist} t.
Arguments fSaveIter {Hit Dist} t.
Arguments fSaveHit {Hit Dist} t.
Arguments fMaxDist {Hit Dist} t.
Arguments fStarted {Hit Dist} t.
Arguments fScanning {Hit Dist} t.
Arguments fCurrent {Hit Dist} t.
Arguments fNext {Hit Dist} t.
Arguments mk {Hit Dist}.

End HitPairIter.

(* ===================================================================== *)
(** * A concrete hit *)

Module Hit.

(** Modelled from the spec: [Hit.h] is absent.  Of a hit the design
    document keeps a plane index and a position along the measurement
    axis; [Hit::Print] shows that it has a wire number too.  Two hits
    are the same object when these data agree. *)
Record t : Type := mk { fWireNum : Z; fPlaneNum : Z; fPos : Q }.

Definition eq_dec (x y : t) : {x = y} + {x <> y}.
Proof.
  decide equality.
  - decide equality; [apply Pos.eq_dec | apply Z.eq_dec].
  - apply Z.eq_dec.
  - apply Z.eq_dec.
Defined.

(** Modelled from the spec: [Hit::Compare] is absent.  "A three-valued
    comparison compare(other, maxdist) in {-1, 0, +1} meaning position
    less than, within maxdist, greater than." *)
Definition Compare (a b : t) (maxdist : Q) : Z :=
  if Qle_bool (Qabs (fPos a - fPos b)) maxdist then 0
  else if Qle_bool (fPos b) (fPos a) then 1 else -1.

End Hit.

(* ===================================================================== *)
(** * HitSet (src/Hit.cxx, lines 277-324) *)

Module HitSet.

Section Sets.

(** [Hit.h] is absent: the hit type, the ordering of [Hset_t]
    ([Hset_t::key_compare]) and [Hit::GetPlaneNum] are parameters. *)
Variable Hit : Type.
Variable comp : Hit -> Hit -> bool.
Variable GetPlaneNum : Hit -> Z.

(** A [HitSet]: the hits in the iteration order of the [std::set] and
    the cached plane pattern. *)
Record t : Type := mk { hits : list Hit; plane_pattern : Z }.

(** [1U << p] *)
Definition plane_bit (p : Z) : Z := wrap32 (Z.shiftl 1 p).

(** [HitSet::GetMatchValue] (lines 277-286). *)
Definition GetMatchValue (hs : list Hit) : Z :=
  fold_left (fun curpat h => Z.lor curpat (plane_bit (GetPlaneNum h))) hs 0.

(** The loop of lines 312-322, from cursors [ihits], [itry] and the
    pattern accumulated so far. *)
Fixpoint walk (ihits : list Hit) : list Hit -> Z -> Z :=
  fix walk_try (itry : list Hit) (pat : Z) {struct itry} : Z :=
    match ihits, itry with
    | h :: ihits', y :: itry' =>
        if comp y h then walk_try itry' pat
        else if comp h y then walk ihits' itry pat
        else walk ihits' itry' (Z.lor pat (plane_bit (GetPlaneNum y)))
    | _, _ => pat
    end.

(** [HitSet::IsSimilarTo]; [None] is the failure of
    [assert( tryset.plane_pattern )]. *)
Definition IsSimilarTo (this tryset : t) : option bool :=
  if plane_pattern tryset =? 0 then None
  else Some (plane_pattern tryset =? walk (hits this) (hits tryset) 0).

(** The design document's wording, for comparison with the loop: the
    intersection found by walking both sets in merge order, as the list
    of the hits of [tryset] that meet an equivalent hit of [this]. *)
Fixpoint merge_intersection (ihits : list Hit) : list Hit -> list Hit :=
  fix inter_try (itry : list Hit) {struct itry} : list Hit :=
    match ihits, itry with
    | h :: ihits', y :: itry' =>
        if comp y h then inter_try itry'
        else if comp h y then merge_intersection ihits' itry
        else y :: merge_intersection ihits' itry'
    | _, _ => []
    end.

(** Two hits are the same key when neither sorts before the other. *)
Definition equiv (x y : Hit) : Prop := comp x y = false /\ comp y x = false.

End Sets.

Arguments mk {Hit} hits plane_pattern.
Arguments hits {Hit} t.
Arguments plane_pattern {Hit} t.
Arguments GetMatchValue {Hit} GetPlaneNum hs.
Arguments walk {Hit} comp GetPlaneNum ihits itry pat.
Arguments IsSimilarTo {Hit} comp GetPlaneNum this tryset.
Arguments merge_intersection {Hit} comp ihits itry.
Arguments equiv {Hit} comp x y.

End HitSet.

(* ===================================================================== *)
(** * Results of code that may fail *)

(** [Abort]: a failed [assert], a null or dangling pointer, a division by
    zero.  [OutOfFuel]: the bound on loop iterations or on the depth of
    recursion given to the model was too small. *)
Inductive res (A : Type) : Type :=
| Ok (a : A)
| OutOfFuel
| Abort.

Arguments Ok {A} a.
Arguments OutOfFuel {A}.
Arguments Abort {A}.

Definition bind {A B : Type} (m : res A) (k : A -> res B) : res B :=
  match m with
  | Ok a => k a
  | OutOfFuel => OutOfFuel
  | Abort => Abort
  end.

Notation "'do' x <- m ; k" := (bind m (fun x => k))
  (at level 10, x name, m at level 100, k at level 200).

(* ===================================================================== *)
(** * Pattern and Link *)

Module Pattern.

(** A [Link] of a child list or of a hash chain: the pattern it points
    to (an index into the arena of patterns) and the type tag.  The
    [next] pointer is the tail of the list the link is in. *)
Record Link : Type := mkLink { GetPattern : nat; Type_ : Z }.

(** Modelled from the spec: [Pattern.h] is absent.  A pattern is a tuple
    of bin numbers, the list of its child links and the shallowest depth
    at which it has been requested. *)
Record t : Type := mk {
  fBits : list Z;
  fChild : list Link;
  fMinDepth : Z
}.

Definition GetNbits (p : list Z) : Z := Z.of_nat (length p).

(** Modelled from the spec: [Pattern::GetWidth] is absent.  "Width: max
    - min of a pattern's bin indices; sign flags pending mirror": the
    last bin minus the first one, which is max - min on a pattern whose
    bins lie between its first and its last bin, and is negative when
    the pattern is to be mirrored. *)
Definition GetWidth (p : list Z) : Z := List.last p 0 - List.hd 0 p.

(** Modelled from the spec: "used_at_depth(d) lowers min_depth to d if d
    is smaller". *)
Definition UsedAtDepth (d : Z) (p : t) : t :=
  {| fBits := fBits p; fChild := fChild p;
     fMinDepth := if d <? fMinDepth p then d else fMinDepth p |}.

(** Modelled from the spec: [Pattern::AddChild] is absent; a new link is
    put at the head of the child list, as [AddHash] does with a hash
    chain ([new Link( pat, head, type )]). *)
Definition AddChild (child : nat) (type : Z) (p : t) : t :=
  {| fBits := fBits p; fChild := mkLink child type :: fChild p;
     fMinDepth := fMinDepth p |}.

End Pattern.

(* ===================================================================== *)
(** * ChildIter (src/PatternGenerator.h, lines 55-78;
      src/PatternGenerator.cxx, lines 33-84) *)

Module ChildIter.

Record t : Type := mk {
  fParent : list Z;
  fChild : list Z;
  fCount : Z;
  fType : Z
}.

(** Lines 55-62: the child bins for the selector [count]. *)
Definition raw (parent : list Z) (count : Z) : list Z :=
  imap (fun ibit p =>
          let bit := Z.shiftl p 1 in
          if Z.land count (Z.shiftl 1 (Z.of_nat ibit)) =? 0 then bit
          else bit + 1) parent.

Definition minbit (bits : list Z) : Z := fold_right Z.min 1 bits.
Definition maxbit (bits : list Z) : Z := fold_right Z.max 0 bits.

(** The loop [while( fCount-- )] of lines 51-80, entered with
    [fCount = n]. *)
Fixpoint scan (n : nat) (it : t) : t :=
  match n with
  | O => {| fParent := fParent it; fChild := fChild it;
            fCount := -1; fType := fType it |}
  | S k =>
      let count := Z.of_nat k in
      let child := raw (fParent it) count in
      let width := Pattern.GetWidth child in
      if maxbit child - minbit child >? Z.abs width then
        scan k {| fParent := fParent it; fChild := child;
                  fCount := count; fType := fType it |}
      else
        let '(ty, child1) :=
          if minbit child =? 0 then (0, child)
          else (1, map (fun b => b - 1) child) in
        let '(ty2, child2) :=
          if width <? 0 then (ty + 2, map (fun b => - width - b) child1)
          else (ty, child1) in
        {| fParent := fParent it; fChild := child2;
           fCount := count; fType := ty2 |}
  end.

(** [operator++] *)
Definition incr (it : t) : t :=
  if fCount it >? 0 then scan (Z.to_nat (fCount it)) it
  else {| fParent := fParent it; fChild := fChild it;
          fCount := -1; fType := fType it |}.

(** The constructor, with its call of [reset()]. *)
Definition make (parent : list Z) : t :=
  incr {| fParent := parent; fChild := parent;
          fCount := Z.shiftl 1 (Pattern.GetNbits parent); fType := 0 |}.

(** [operator bool] *)
Definition valid (it : t) : bool := fCount it >=? 0.

End ChildIter.

(* ===================================================================== *)
(** * Double_t *)

Module Double.

(** The integer nearest to [n / d], the even one of two that are equally
    near ([0 <= n], [0 < d]). *)
Definition nearest_even (n d : Z) : Z :=
  let q := n / d in
  let r := n mod d in
  if 2 * r <? d then q
  else if d <? 2 * r then q + 1
  else if Z.even q then q else q + 1.

(** The integer part of the binary logarithm of [n / d] ([0 < n],
    [0 < d]). *)
Definition ilog2 (n d : Z) : Z :=
  let k := Z.log2 n - Z.log2 d in
  if (if 0 <=? k then d * 2 ^ k <=? n else d <=? n * 2 ^ (- k))
  then k else k - 1.

(** The double nearest to a rational (IEEE 754 binary64, rounding to
    nearest, ties to even): [m * 2^e] with a significand [m] of 53
    bits and [e >= -1074], the exponent of the subnormal numbers.
    Overflow to infinity is not represented: the operands at hand are
    bin numbers and positions between 0 and 1. *)
Definition round (x : Q) : Q :=
  let n := Qnum x in
  let d := Zpos (Qden x) in
  if n =? 0 then 0%Q
  else
    let a := Z.abs n in
    let e := Z.max (ilog2 a d - 52) (-1074) in
    let v :=
      if 0 <=? e then inject_Z (nearest_even a (d * 2 ^ e) * 2 ^ e)
      else Qmake (nearest_even (a * 2 ^ (- e)) d) (Z.to_pos (2 ^ (- e))) in
    if n <? 0 then (- v)%Q else v.

(** [x * y] and [x - y] on [Double_t]. *)
Definition mul (x y : Q) : Q := round (x * y).
Definition sub (x y : Q) : Q := round (x - y).

(** The rational that a finite binary64 number of the kernel stands
    for. *)
Definition of_float (f : float) : option Q :=
  match Prim2SF f with
  | SpecFloat.S754_zero _ => Some 0%Q
  | SpecFloat.S754_finite s m e =>
      let v := if 0 <=? e then inject_Z (Zpos m * 2 ^ e)
               else Qmake (Zpos m) (Z.to_pos (2 ^ (- e))) in
      Some (if s then (- v)%Q else v)
  | _ => None
  end.

(** [mul] and [sub] give what the binary64 operations of the kernel
    give on [x] and [y]. *)
Definition agrees (x y : float) : bool :=
  match of_float x, of_float y, of_float (x * y), of_float (x - y) with
  | Some a, Some b, Some p, Some d =>
      Qeq_bool (mul a b) p && Qeq_bool (sub a b) d
  | _, _, _, _ => false
  end.

(** Operands to compare them on: bin numbers, the doubles nearest to
    1/3, 0.1, 0.3 and 2/3, the neighbours of 1, and a small number. *)
Definition operands : list float :=
  [0; 1; 3; 7; 65535; 0x1p-1; 0x1.5555555555555p-2;
   0x1.999999999999ap-4; 0x1.3333333333333p-2; 0x1.fffffffffffffp-1;
   0x1.0000000000001p+0; 0x1.5555555555555p-1; 0x1.8p-60;
   (-0x1.999999999999ap-4)]%float.

End Double.

(* ===================================================================== *)
(** * Tree parameters *)

Definition Qlt_bool (x y : Q) : bool := negb (Qle_bool y x).

Module PatternTree.

(** [TreeParam_t] *)
Record TreeParam_t : Type := mkParam {
  maxdepth : Z;
  width : Q;
  zpos : list Q;
  maxslope : Q
}.

Fixpoint increasing (z : list Q) : bool :=
  match z with
  | x :: (y :: _) as rest => Qlt_bool x y && increasing rest
  | _ => true
  end.

(** Modelled from the spec: the checks of [PatternTree::Normalize],
    which is absent.  "Normalization validates: N >= 2, z-positions
    strictly increasing, max_slope >= 0, max_depth >= 1." *)
Definition valid (p : TreeParam_t) : bool :=
  (2 <=? length (zpos p))%nat && increasing (zpos p)
  && Qle_bool 0 (maxslope p) && (1 <=? maxdepth p).

(** Modelled from the spec: [PatternTree::Normalize] is absent.  The
    z-positions are "normalized to [0,1] with z[0]=0, z[N-1]=1" and the
    width to 1.  [None] is the nonzero return code. *)
Definition Normalize (p : TreeParam_t) : option TreeParam_t :=
  if valid p then
    let z0 := List.hd 0%Q (zpos p) in
    let zn := List.last (zpos p) 0%Q in
    Some {| maxdepth := maxdepth p; width := 1%Q;
            zpos := map (fun z => ((z - z0) / (zn - z0))%Q) (zpos p);
            maxslope := maxslope p |}
  else None.

(** The tree object [Generate] returns: the normalised parameters and
    the two counts it is constructed from. *)
Record t : Type := mk {
  params : TreeParam_t;
  nPatterns : Z;
  nLinks : Z
}.

End PatternTree.

(* ===================================================================== *)
(** * PatternGenerator (src/PatternGenerator.cxx) *)

Module PatternGenerator.

Import Pattern.

Record Statistics_t : Type := mkStats {
  nPatterns : Z;
  nLinks : Z;
  MaxChildListLength : Z;
  MaxHashDepth : Z
}.

(** The generator: its parameters, the hash table (a vector of chains of
    links) and the arena holding the patterns created with [new]; a
    [Pattern*] is an index into [heap]. *)
Record t : Type := mk {
  fNlevels : Z;
  fNplanes : Z;
  fMaxSlope : Q;
  fZ : list Q;
  fHashTable : list (list Link);
  heap : list Pattern.t
}.

(** [PatternGenerator::PatternGenerator()] *)
Definition ctor : t :=
  {| fNlevels := 0; fNplanes := 0; fMaxSlope := 0%Q; fZ := [];
     fHashTable := []; heap := [] |}.

Definition set_table (tbl : list (list Link)) (g : t) : t :=
  {| fNlevels := fNlevels g; fNplanes := fNplanes g;
     fMaxSlope := fMaxSlope g; fZ := fZ g;
     fHashTable := tbl; heap := heap g |}.

Definition set_heap (h : list Pattern.t) (g : t) : t :=
  {| fNlevels := fNlevels g; fNplanes := fNplanes g;
     fMaxSlope := fMaxSlope g; fZ := fZ g;
     fHashTable := fHashTable g; heap := h |}.

(** Dereferencing a [Pattern*]. *)
Definition deref (g : t) (p : nat) : res Pattern.t :=
  match heap g !! p with
  | Some pat => Ok pat
  | None => Abort
  end.

(** Updating the object a [Pattern*] points to. *)
Definition update (p : nat) (f : Pattern.t -> Pattern.t) (g : t) : res t :=
  match heap g !! p with
  | Some pat => Ok (set_heap (<[p := f pat]> (heap g)) g)
  | None => Abort
  end.

(** [new Pattern(...)]: a pattern with the given bins and no children;
    [mindepth0] is the [fMinDepth] of a pattern not used at any depth. *)
Definition new_Pattern (mindepth0 : Z) (bits : list Z) (g : t) : nat * t :=
  (length (heap g),
   set_heap (heap g ++ [{| fBits := bits; fChild := [];
                           fMinDepth := mindepth0 |}]) g).

Section Generator.

(** [Pattern.h] is absent: [Pattern::Hash], "a pure function of the bin
    tuple", and the initial [fMinDepth] of a pattern are parameters. *)
Variable Hash : list Z -> Z.
Variable mindepth0 : Z.

(** [pat->Hash() % hashsize], in unsigned arithmetic. *)
Definition bucket (hashsize : Z) (bits : list Z) : nat :=
  Z.to_nat (wrap32 (Hash bits) mod hashsize).

(** [PatternGenerator::AddHash] (lines 233-250). *)
Definition AddHash (pat : nat) (g : t) : res t :=
  let tbl :=
    if (length (fHashTable g) =? 0)%nat
    then replicate (Z.to_nat (Z.shiftl 1 (fNlevels g - 1))) []
    else fHashTable g in
  let hashsize := Z.of_nat (length tbl) in
  if hashsize =? 0 then Abort
  else
    do p <- deref g pat;
    let hash := bucket hashsize (fBits p) in
    Ok (set_table (alter (fun head => mkLink pat 0 :: head) hash tbl) g).

(** The chain walk of [Find] (lines 403-408). *)
Fixpoint find_chain (g : t) (bits : list Z) (link : list Link)
  : res (option nat) :=
  match link with
  | [] => Ok None
  | ln :: next =>
      do rhs <- deref g (GetPattern ln);
      if bool_decide (bits = fBits rhs) then Ok (Some (GetPattern ln))
      else find_chain g bits next
  end.

(** [PatternGenerator::Find] (lines 395-410). *)
Definition Find (bits : list Z) (g : t) : res (option nat) :=
  let hashsize := Z.of_nat (length (fHashTable g)) in
  if hashsize =? 0 then Abort
  else
    match fHashTable g !! bucket hashsize bits with
    | Some link => find_chain g bits link
    | None => Abort
    end.

(** [PatternGenerator::TestSlope] (lines 339-344). *)
Definition TestSlope (g : t) (bits : list Z) (depth : Z) : bool :=
  let width := wrap32 (GetWidth bits) in
  (width <? 2)
  || Qle_bool (Qabs (inject_Z (width - 1) / inject_Z (Z.shiftl 1 depth)))
              (fMaxSlope g).

(** The loop of [LineCheck] (lines 363-390), entered with loop
    variable [i]. *)
Fixpoint line_loop (z : list Q) (pat : list Z) (i : nat)
         (xL xRm1 zL zR : Q) : bool :=
  match i with
  | O => true
  | S i' =>
      let zi := nth i z 0%Q in
      let pi := inject_Z (nth i pat 0) in
      let dL := Double.sub (Double.mul xL zi) (Double.mul pi zL) in
      if Qle_bool zL (Qabs dL) then false
      else
        let dR := Double.sub (Double.mul xRm1 zi) (Double.mul pi zR) in
        if Qle_bool zR (Qabs dR) then false
        else if (1 <? i)%nat then
          let '(xRm1', zR') :=
            if Qlt_bool 0 dL then (pi, zi) else (xRm1, zR) in
          let '(xL', zL') :=
            if Qlt_bool dR 0 then (pi, zi) else (xL, zL) in
          line_loop z pat i' xL' xRm1' zL' zR'
        else line_loop z pat i' xL xRm1 zL zR
  end.

(** [PatternGenerator::LineCheck] (lines 347-392). *)
Definition LineCheck (g : t) (pat : list Z) : res bool :=
  if fNplanes g =? 0 then Abort
  else
    let last := Z.to_nat (fNplanes g - 1) in
    let xL := inject_Z (nth last pat 0) in
    let zL := nth last (fZ g) 0%Q in
    Ok (line_loop (fZ g) pat (Z.to_nat (fNplanes g - 2)) xL xL zL zL).

(** The body of the loop over the candidates (lines 430-447). *)
Definition consider (g : t) (parent : nat) (depth : Z)
           (child : list Z) (type : Z) : res t :=
  do node <- Find child g;
  match node with
  | Some n =>
      do pn <- deref g n;
      if (depth >=? fMinDepth pn) || TestSlope g (fBits pn) depth
      then update parent (AddChild n type) g
      else Ok g
  | None =>
      if TestSlope g child depth then
        do straight <- LineCheck g child;
        if straight then
          let '(n, g1) := new_Pattern mindepth0 child g in
          do g2 <- AddHash n g1;
          update parent (AddChild n type) g2
        else Ok g
      else Ok g
  end.

(** [while( it ) { ...; ++it; }] (lines 429-449). *)
Fixpoint candidates (fuel : nat) (g : t) (parent : nat) (depth : Z)
         (it : ChildIter.t) : res t :=
  if ChildIter.valid it then
    match fuel with
    | O => OutOfFuel
    | S k =>
        do g1 <- consider g parent depth
                   (ChildIter.fChild it) (ChildIter.fType it);
        candidates k g1 parent depth (ChildIter.incr it)
    end
  else Ok g.

(** The loop over the child list (lines 453-463), from the link [ln];
    [recurse] is the recursive call of [MakeChildNodes].  The cells of a
    child list do not change once they are linked ([AddChild] puts a new
    cell in front, and only a pattern without children gets any), so the
    loop walks the list as it is when the loop starts. *)
Definition descend (recurse : t -> nat -> Z -> res t) (depth : Z)
  : list Link -> t -> res t :=
  fix loop (ln : list Link) (g : t) {struct ln} : res t :=
    match ln with
    | [] => Ok g
    | l :: next =>
        do node <- deref g (GetPattern l);
        do g' <- (match fChild node with
                  | [] => recurse g (GetPattern l) (depth + 1)
                  | _ :: _ =>
                      if fMinDepth node >? depth
                      then recurse g (GetPattern l) (depth + 1)
                      else Ok g
                  end);
        loop next g'
    end.

(** [PatternGenerator::MakeChildNodes] (lines 413-464).  [fuel] bounds
    the depth of the recursion and the number of candidates of one
    parent. *)
Fixpoint MakeChildNodes (fuel : nat) (g : t) (parent : nat) (depth : Z)
  : res t :=
  match fuel with
  | O => OutOfFuel
  | S k =>
      do g1 <- (if depth >? 0 then update parent (UsedAtDepth (depth - 1)) g
                else Ok g);
      if depth >=? fNlevels g1 then Ok g1
      else
        do par <- deref g1 parent;
        do g2 <- (match fChild par with
                  | [] => candidates fuel g1 parent depth
                            (ChildIter.make (fBits par))
                  | _ :: _ => Ok g1
                  end);
        do par2 <- deref g2 parent;
        descend (MakeChildNodes k) depth (fChild par2) g2
  end.

(** [PatternGenerator::CalcStatistics] (lines 131-176), the counters. *)
Definition chain_stats (g : t) (acc : Statistics_t * Z) (ln : Link)
  : Statistics_t * Z :=
  let '(s, hash_length) := acc in
  let list_length :=
    match heap g !! GetPattern ln with
    | Some pat => Z.of_nat (length (fChild pat))
    | None => 0
    end in
  ({| nPatterns := nPatterns s + 1;
      nLinks := nLinks s + list_length;
      MaxChildListLength := Z.max (MaxChildListLength s) list_length;
      MaxHashDepth := MaxHashDepth s |}, hash_length + 1).

Definition CalcStatistics (g : t) : Statistics_t :=
  fold_left
    (fun s chain =>
       let '(s1, hash_length) := fold_left (chain_stats g) chain (s, 0) in
       {| nPatterns := nPatterns s1; nLinks := nLinks s1;
          MaxChildListLength := MaxChildListLength s1;
          MaxHashDepth := Z.max (MaxHashDepth s1) hash_length |})
    (fHashTable g)
    {| nPatterns := 0; nLinks := 0; MaxChildListLength := 0;
       MaxHashDepth := 0 |}.

(** [PatternGenerator::Generate] (lines 253-306): the generator after
    the build and the tree returned, null when the parameters are
    rejected. *)
Definition Generate (fuel : nat) (g : t)
           (parameters : PatternTree.TreeParam_t)
  : res (t * option PatternTree.t) :=
  match PatternTree.Normalize parameters with
  | None => Ok (g, None)
  | Some p =>
      let g0 :=
        {| fNlevels := PatternTree.maxdepth p + 1;
           fNplanes := Z.of_nat (length (PatternTree.zpos p));
           fMaxSlope := PatternTree.maxslope p;
           fZ := PatternTree.zpos p;
           fHashTable := fHashTable g; heap := heap g |} in
      let '(root, g1) :=
        new_Pattern mindepth0
          (replicate (Z.to_nat (fNplanes g0)) 0) g0 in
      do g2 <- AddHash root g1;
      do g3 <- MakeChildNodes fuel g2 root 1;
      let stats := CalcStatistics g3 in
      Ok (g3, Some {| PatternTree.params := p;
                      PatternTree.nPatterns := nPatterns stats;
                      PatternTree.nLinks := nLinks stats |})
  end.

End Generator.

End PatternGenerator.

(* ===================================================================== *)
(** * The scenarios of the design document *)

Module Scenario.

(** The hit of the wire [wire] of the plane [plane], at position [x]. *)
Definition hit (plane wire : Z) (x : Q) : Hit.t :=
  {| Hit.fWireNum := wire; Hit.fPlaneNum := plane; Hit.fPos := x |}.

(** S5: A = [x=1.0], B = [x=0.8, x=1.1, x=1.3], maxdist = 0.5. *)
Definition A5 : list Hit.t := [hit 0 0 1].
Definition B5 : list Hit.t := [hit 1 0 0.8; hit 1 1 1.1; hit 1 2 1.3].
Definition maxdist5 : Q := 0.5.

(** S5 with one more hit of B, out of reach of the hit of A. *)
Definition B5far : list Hit.t := B5 ++ [hit 1 3 5].

(** Two hits on each side, pairwise within the tolerance 0.5, for the
    copy constructor. *)
Definition Acopy : list Hit.t := [hit 0 0 1; hit 0 1 2].
Definition Bcopy : list Hit.t := [hit 1 0 1.2; hit 1 1 2.2].

(** S6, second part: [this] has hits in planes 0, 2, 3, 4 at 30, 32, 40,
    50; [try] has hits in planes 2, 3, 4, 4 at 32, 40, 50, 51.  The hits
    are ordered by position. *)
Definition comp6 (x y : Hit.t) : bool := Qlt_bool (Hit.fPos x) (Hit.fPos y).
Definition this6 : HitSet.t Hit.t :=
  HitSet.mk [hit 0 0 30; hit 2 0 32; hit 3 0 40; hit 4 0 50] 29.
Definition try6 : HitSet.t Hit.t :=
  HitSet.mk [hit 2 0 32; hit 3 0 40; hit 4 0 50; hit 4 1 51] 28.

(** S1: N = 2, z = [0,1], max_depth = 1, max_slope = 1.0. *)
Definition S1 : PatternTree.TreeParam_t :=
  {| PatternTree.maxdepth := 1; PatternTree.width := 1%Q;
     PatternTree.zpos := [0%Q; 1%Q]; PatternTree.maxslope := 1%Q |}.

(** S3: N = 3, z = [0, 0.5, 1], pattern [0, 2, 0]. *)
Definition z3 : list Q := [0%Q; 0.5%Q; 1%Q].
Definition pat3 : list Z := [0; 2; 0].

(** A generator over the planes of S3 whose table holds no pattern. *)
Definition g3 : PatternGenerator.t :=
  {| PatternGenerator.fNlevels := 3; PatternGenerator.fNplanes := 3;
     PatternGenerator.fMaxSlope := 1%Q; PatternGenerator.fZ := z3;
     PatternGenerator.fHashTable := [[]; []; []; []];
     PatternGenerator.heap := [] |}.

(** A hash function and an initial [fMinDepth] to run the generator
    with; the results below that mention neither hold for all. *)
Definition Hash (bits : list Z) : Z := fold_right Z.add 0 bits.
Definition kMaxUInt : Z := 2 ^ 32 - 1.

End Scenario.

(* ===================================================================== *)
(** * Invariants of the pair iterator *)

Module HitPairIterInv.

Import HitPairIter.

Section Inv.

Variable Hit : Type.
Variable Dist : Type.
Variable Compare : Hit -> Hit -> Dist -> Z.

Definition present (o : option Hit) : nat :=
  match o with Some _ => 1%nat | None => 0%nat end.

(** While a scan is on, the saved cursor lies behind the cursor of B
    and the saved hit is not null. *)
Definition scan_ok (B itB save : list Hit) (sh : option Hit) : Prop :=
  exists pre mid b0,
    B = pre ++ mid ++ itB /\ save = mid ++ itB /\ sh = Some b0.

(** What holds of the iterator between two calls of [Next()], with
    [EA] and [EB] the hits of A and of B published so far. *)
Record inv (A B : list Hit) (d : Dist) (EA EB : Hit -> Prop)
       (it : HitPairIter.t Hit Dist) : Prop := {
  inv_started : fStarted it = true;
  inv_dist : fMaxDist it = d;
  inv_A : exists pre, A = pre ++ fIterA it
            /\ forall x, In x pre -> EA x \/ fst (fNext it) = Some x;
  inv_A_end : fst (fNext it) = None -> fIterA it = [];
  inv_B : exists pre, B = pre ++ fIterB it
            /\ forall x, In x pre -> EB x \/ snd (fNext it) = Some x;
  inv_B_end : snd (fNext it) = None -> forall x, In x (fIterB it) -> EB x;
  inv_scan : fScanning it = true ->
             scan_ok B (fIterB it) (fSaveIter it) (fSaveHit it)
}.

(** The measure that decreases with every call of [Next()]: the hits of
    A still to come, then the hits of B still to come. *)
Definition weight (B : list Hit) (it : HitPairIter.t Hit Dist) : nat :=
  ((length (fIterA it) + present (fst (fNext it))) * (length B + 2)
   + (length (fIterB it) + present (snd (fNext it))))%nat.

(** The hits published as first and as second components. *)
Definition firsts (l : list (ObjectPair Hit)) (x : Hit) : Prop :=
  In (Some x) (map fst l).
Definition seconds (l : list (ObjectPair Hit)) (x : Hit) : Prop :=
  In (Some x) (map snd l).

(** Every published pair with both hits present matches. *)
Definition sound (d : Dist) (l : list (ObjectPair Hit)) : Prop :=
  forall a b, In (Some a, Some b) l -> Compare a b d = 0.

End Inv.

Arguments present {Hit} o.
Arguments scan_ok {Hit} B itB save sh.
Arguments inv {Hit Dist} A B d EA EB it.
Arguments weight {Hit Dist} B it.
Arguments firsts {Hit} l x.
Arguments seconds {Hit} l x.
Arguments sound {Hit Dist} Compare d l.

End HitPairIterInv.

(* ===================================================================== *)
(** * Invariants of the pattern generator *)

Module GeneratorInv.

Import Pattern PatternGenerator.

(** A pattern in canonical form: the first bin is 0 and every bin lies
    between 0 and the last bin. *)
Definition canonical (b : list Z) : Prop :=
  List.hd 1 b = 0 /\ forall x, In x b -> 0 <= x <= List.last b 0.

Definition all_zero (b : list Z) : Prop := forall x, In x b -> x = 0.

(** A type tag is 0, 1 or 2, and a tag with bit 1 set hangs below an
    all-zero pattern. *)
Definition tag_ok (parent : list Z) (type : Z) : Prop :=
  (type = 0 \/ type = 1 \/ type = 2)
  /\ (Z.land type 2 <> 0 -> all_zero parent).

(** A child bin is twice the parent bin, or one more. *)
Definition doubled (p c : Z) : Prop := c = 2 * p \/ c = 2 * p + 1.

(** What [ChildIter] shows while it is valid. *)
Definition iter_ok (n : nat) (it : ChildIter.t) : Prop :=
  canonical (ChildIter.fParent it)
  /\ length (ChildIter.fParent it) = n
  /\ -1 <= ChildIter.fCount it
  /\ (0 <= ChildIter.fCount it ->
      canonical (ChildIter.fChild it)
      /\ length (ChildIter.fChild it) = n
      /\ tag_ok (ChildIter.fParent it) (ChildIter.fType it)).

Section Inv.

Variable Hash : list Z -> Z.

(** The state of the generator during a build over [n] planes. *)
Record Inv (n : nat) (g : t) : Prop := {
  inv_planes : fNplanes g = Z.of_nat n /\ (0 < n)%nat;
  inv_table : (0 < length (fHashTable g))%nat;
  inv_table_ptr :
    forall (k : nat) (chain : list Link) (ln : Link),
      fHashTable g !! k = Some chain -> In ln chain ->
      (GetPattern ln < length (heap g))%nat;
  inv_table_all :
    forall (a : nat) (pa : Pattern.t),
      heap g !! a = Some pa ->
      exists chain,
        fHashTable g
          !! bucket Hash (Z.of_nat (length (fHashTable g))) (fBits pa)
        = Some chain
        /\ In a (map GetPattern chain);
  inv_unique : NoDup (map fBits (heap g));
  inv_child_ptr :
    forall (a : nat) (pa : Pattern.t) (ln : Link),
      heap g !! a = Some pa -> In ln (fChild pa) ->
      (GetPattern ln < length (heap g))%nat;
  inv_canonical :
    forall (a : nat) (pa : Pattern.t),
      heap g !! a = Some pa ->
      canonical (fBits pa) /\ length (fBits pa) = n;
  inv_links :
    forall (a : nat) (pa : Pattern.t) (ln : Link),
      heap g !! a = Some pa -> In ln (fChild pa) ->
      tag_ok (fBits pa) (Type_ ln)
}.

(** What a step of the build leaves alone. *)
Definition ext (g g' : t) : Prop :=
  fNlevels g' = fNlevels g
  /\ fNplanes g' = fNplanes g
  /\ fMaxSlope g' = fMaxSlope g
  /\ fZ g' = fZ g
  /\ length (fHashTable g') = length (fHashTable g)
  /\ exists more, map fBits (heap g') = map fBits (heap g) ++ more.

(** Fuel that suffices for [MakeChildNodes] at [depth]. *)
Definition enough (n : nat) (g : t) (depth : Z) (fuel : nat) : Prop :=
  (Z.to_nat (2 ^ Z.of_nat n) + Z.to_nat (fNlevels g - depth) + 1
   <= fuel)%nat.

End Inv.

End GeneratorInv.
(* ===================================================================== *)
(** * HitPairIter: Reset (src/Hit.cxx, lines 172-183) and what is
      compared between two iterators *)

Module HitPairIterOps.

Import HitPairIter.

Section Ops.

Variable Hit : Type.
Variable Hit_eq_dec : forall x y : Hit, {x = y} + {x <> y}.
Variable Dist : Type.
Variable Compare : Hit -> Hit -> Dist -> Z.

(** [HitPairIter::Reset]: the two flags are cleared, [TIterator::Reset]
    puts the cursors of A and of B back to the start of their
    collections, and [Next()] is called.  The saved cursor, the saved hit
    and the tolerance are not touched. *)
Definition Reset (it : HitPairIter.t Hit Dist)
  : option (HitPairIter.t Hit Dist) :=
  HitPairIter.Next Hit_eq_dec Compare
    {| fCollA := fCollA it; fCollB := fCollB it;
       fIterA := fCollA it; fIterB := fCollB it;
       fSaveIter := fSaveIter it; fSaveHit := fSaveHit it;
       fMaxDist := fMaxDist it;
       fStarted := false; fScanning := false;
       fCurrent := fCurrent it; fNext := fNext it |}.

(** The pairs that [n] further calls of [Next()] publish. *)
Definition published (n : nat) (it : HitPairIter.t Hit Dist)
  : option (list (ObjectPair Hit)) :=
  option_map fst (HitPairIter.emit Hit_eq_dec Compare n it).

(** Two iterators in the same position: they agree on the cursors, the
    tolerance, the flags and the lookahead, and, while a scan is on, on
    the saved cursor and the saved hit. *)
Definition same_position (it1 it2 : HitPairIter.t Hit Dist) : Prop :=
  fIterA it1 = fIterA it2 /\ fIterB it1 = fIterB it2
  /\ fMaxDist it1 = fMaxDist it2
  /\ fStarted it1 = fStarted it2 /\ fScanning it1 = fScanning it2
  /\ fNext it1 = fNext it2
  /\ (fScanning it1 = true ->
      fSaveIter it1 = fSaveIter it2 /\ fSaveHit it1 = fSaveHit it2).

(** The hits that a list of published pairs shows as first and as second
    components, in the order of publication. *)
Definition first_hits (l : list (ObjectPair Hit)) : list Hit := omap fst l.
Definition second_hits (l : list (ObjectPair Hit)) : list Hit := omap snd l.

(** [runs s o]: the list [o] goes through the elements of [s] in order,
    showing each of them once or several times in a row. *)
Inductive runs : list Hit -> list Hit -> Prop :=
| runs_nil : runs [] []
| runs_first (x : Hit) (s o : list Hit) :
    runs s o -> runs (x :: s) (x :: o)
| runs_again (x : Hit) (s o : list Hit) :
    runs (x :: s) o -> runs (x :: s) (x :: o).

(** What the iterator holds comes from its collections. *)
Definition from_collections (A B : list Hit) (it : HitPairIter.t Hit Dist)
  : Prop :=
  (forall x, In x (fIterA it) -> In x A)
  /\ (forall x, In x (fIterB it) -> In x B)
  /\ (forall x, In x (fSaveIter it) -> In x B)
  /\ (forall x, fst (fNext it) = Some x -> In x A)
  /\ (forall x, snd (fNext it) = Some x -> In x B)
  /\ (fScanning it = true -> forall x, fSaveHit it = Some x -> In x B).

(** The cursor of A and the first hits published so far: the hits that
    the cursor has passed are shown in runs, the one in the lookahead
    possibly not yet. *)
Definition order_inv (A : list Hit) (it : HitPairIter.t Hit Dist)
           (out : list Hit) : Prop :=
  exists pre,
    A = pre ++ fIterA it
    /\ match fst (fNext it) with
       | None => fIterA it = [] /\ runs pre out
       | Some a =>
           exists pre0, pre = pre0 ++ [a] /\ (runs pre0 out \/ runs pre out)
       end.

End Ops.

Arguments Reset {Hit} Hit_eq_dec {Dist} Compare it.
Arguments published {Hit} Hit_eq_dec {Dist} Compare n it.
Arguments same_position {Hit Dist} it1 it2.
Arguments first_hits {Hit} l.
Arguments second_hits {Hit} l.
Arguments runs {Hit} _ _.
Arguments from_collections {Hit Dist} A B it.
Arguments order_inv {Hit Dist} A it out.

End HitPairIterOps.

(* ===================================================================== *)
(** * HitSet: the contract of the set ordering and the intersection *)

Module HitSetOps.

Section Ops.

Variable Hit : Type.
Variable comp : Hit -> Hit -> bool.

(** Two hits have the same key when neither sorts before the other. *)
Definition same_key (x y : Hit) : bool := negb (comp x y) && negb (comp y x).

(** What [std::set] requires of its ordering: a strict weak ordering. *)
Record strict_weak : Prop := {
  sw_irrefl : forall x, comp x x = false;
  sw_trans : forall x y z, comp x y = true -> comp y z = true ->
                           comp x z = true;
  sw_equiv : forall x y z, same_key x y = true -> same_key y z = true ->
                           same_key x z = true
}.

(** The iteration order of a [std::set]: every element sorts before the
    ones that follow it. *)
Fixpoint sorted (l : list Hit) : Prop :=
  match l with
  | [] => True
  | x :: rest => (forall y, In y rest -> comp x y = true) /\ sorted rest
  end.

(** The intersection in the sense of [std::includes]: the hits of
    [tryhits] whose key occurs among [hits]. *)
Definition common (hits tryhits : list Hit) : list Hit :=
  List.filter (fun y => existsb (fun h => same_key h y) hits) tryhits.

End Ops.

Arguments same_key {Hit} comp x y.
Arguments strict_weak {Hit} comp.
Arguments sorted {Hit} comp l.
Arguments common {Hit} comp hits tryhits.

End HitSetOps.

(* ===================================================================== *)
(** * ChildIter: one candidate, the whole iteration, and the way back
      from a child to the bins it stands for *)

Module ChildIterOps.

(** One pass of the body of the loop of [operator++] (lines 52-79), for
    the selector [count]: [None] when the candidate is dropped by
    [continue], else the child pattern and its type. *)
Definition candidate (parent : list Z) (count : Z) : option (list Z * Z) :=
  let child := ChildIter.raw parent count in
  let width := Pattern.GetWidth child in
  if ChildIter.maxbit child - ChildIter.minbit child >? Z.abs width then None
  else
    let '(ty, child1) :=
      if ChildIter.minbit child =? 0 then (0, child)
      else (1, map (fun b => b - 1) child) in
    let '(ty2, child2) :=
      if width <? 0 then (ty + 2, map (fun b => - width - b) child1)
      else (ty, child1) in
    Some (child2, ty2).

(** [ChildIter::reset()] (src/PatternGenerator.h, lines 74-77). *)
Definition reset (it : ChildIter.t) : ChildIter.t :=
  ChildIter.incr
    {| ChildIter.fParent := ChildIter.fParent it;
       ChildIter.fChild := ChildIter.fChild it;
       ChildIter.fCount :=
         Z.shiftl 1 (Pattern.GetNbits (ChildIter.fParent it));
       ChildIter.fType := ChildIter.fType it |}.

(** The selectors below [n], the largest first. *)
Definition selectors (n : nat) : list Z := map Z.of_nat (rev (seq 0 n)).


(** The states of the iterator over the children of [parent] that the
    loop of [MakeChildNodes] goes through. *)
Inductive reach (parent : list Z) : ChildIter.t -> Prop :=
| reach_make : reach parent (ChildIter.make parent)
| reach_incr (it : ChildIter.t) :
    reach parent it -> ChildIter.valid it = true ->
    reach parent (ChildIter.incr it).

End ChildIterOps.

(* ===================================================================== *)
(** * ChildIter on 16-bit bins *)

Module ChildIter16.

(** [UShort_t], the type of a bin of a pattern: line 172 counts
    [sizeof(UShort_t)] bytes for each bin. *)
Definition wrap16 (x : Z) : Z := x mod 2 ^ 16.

(** One pass of the body of the loop of [operator++] (lines 52-79) for
    the selector [count], with the bins of [fChild] held in [UShort_t].
    [bit] is an [Int_t] (line 55) and [minbit], [maxbit] are taken from
    it (lines 59-60), whereas [fChild[ibit] = bit] (line 58) keeps the
    low 16 bits and [GetWidth] (line 62) reads the bins so stored.  The
    decrement of line 71 and the assignment of line 77 write to [fChild]
    again.  The result is the content of [fChild] and, unless the
    candidate is dropped by [continue], the type. *)
Definition pass (parent : list Z) (count : Z) : list Z * option Z :=
  let bits := ChildIter.raw parent count in
  let child := map wrap16 bits in
  let width := Pattern.GetWidth child in
  if ChildIter.maxbit bits - ChildIter.minbit bits >? Z.abs width
  then (child, None)
  else
    let '(ty, child1) :=
      if ChildIter.minbit bits =? 0 then (0, child)
      else (1, map (fun b => wrap16 (b - 1)) child) in
    let '(ty2, child2) :=
      if width <? 0
      then (ty + 2, map (fun b => wrap16 (- width - b)) child1)
      else (ty, child1) in
    (child2, Some ty2).

(** The child and the type that a pass shows, if any. *)
Definition candidate (parent : list Z) (count : Z) : option (list Z * Z) :=
  match pass parent count with
  | (child, Some ty) => Some (child, ty)
  | (_, None) => None
  end.

(** The loop [while( fCount-- )] of lines 51-80, entered with
    [fCount = n]. *)
Fixpoint scan (n : nat) (it : ChildIter.t) : ChildIter.t :=
  match n with
  | O => {| ChildIter.fParent := ChildIter.fParent it;
            ChildIter.fChild := ChildIter.fChild it;
            ChildIter.fCount := -1; ChildIter.fType := ChildIter.fType it |}
  | S k =>
      let count := Z.of_nat k in
      match pass (ChildIter.fParent it) count with
      | (child, None) =>
          scan k {| ChildIter.fParent := ChildIter.fParent it;
                    ChildIter.fChild := child;
                    ChildIter.fCount := count;
                    ChildIter.fType := ChildIter.fType it |}
      | (child, Some ty) =>
          {| ChildIter.fParent := ChildIter.fParent it;
             ChildIter.fChild := child;
             ChildIter.fCount := count; ChildIter.fType := ty |}
      end
  end.

(** [operator++] *)
Definition incr (it : ChildIter.t) : ChildIter.t :=
  if ChildIter.fCount it >? 0 then scan (Z.to_nat (ChildIter.fCount it)) it
  else {| ChildIter.fParent := ChildIter.fParent it;
          ChildIter.fChild := ChildIter.fChild it;
          ChildIter.fCount := -1; ChildIter.fType := ChildIter.fType it |}.

(** The constructor, with its call of [reset()]. *)
Definition make (parent : list Z) : ChildIter.t :=
  incr {| ChildIter.fParent := parent; ChildIter.fChild := parent;
          ChildIter.fCount := Z.shiftl 1 (Pattern.GetNbits parent);
          ChildIter.fType := 0 |}.

(** [reset()] (src/PatternGenerator.h, lines 74-77). *)
Definition reset (it : ChildIter.t) : ChildIter.t :=
  incr {| ChildIter.fParent := ChildIter.fParent it;
          ChildIter.fChild := ChildIter.fChild it;
          ChildIter.fCount :=
            Z.shiftl 1 (Pattern.GetNbits (ChildIter.fParent it));
          ChildIter.fType := ChildIter.fType it |}.

(** The loop [while( it ) { ... *it ... it.type() ...; ++it; }]: the
    children and the types that the iterator shows from [it] on. *)
Fixpoint drain (fuel : nat) (it : ChildIter.t) : list (list Z * Z) :=
  match fuel with
  | O => []
  | S k =>
      if ChildIter.valid it
      then (ChildIter.fChild it, ChildIter.fType it) :: drain k (incr it)
      else []
  end.

(** Parent bins that [bit << 1] and [++bit] keep within [UShort_t]. *)
Definition fits15 (bits : list Z) : Prop :=
  forall x, In x bits -> 0 <= x < 2 ^ 15.

End ChildIter16.

(* ===================================================================== *)
(** * PatternGenerator: what holds of the stored patterns and links *)

Module GeneratorProps.

Import Pattern PatternGenerator.

Definition Zsum (l : list Z) : Z := fold_right Z.add 0 l.

(** The number of links in all child lists. *)
Definition total_links (h : list Pattern.t) : Z :=
  Zsum (map (fun pa => Z.of_nat (length (fChild pa))) h).

(** No link of a child list dangles. *)
Definition links_valid (g : t) : Prop :=
  forall (a : nat) (pa : Pattern.t) (ln : Link),
    heap g !! a = Some pa -> In ln (fChild pa) ->
    (GetPattern ln < length (heap g))%nat.

(** Every pattern but the root (the first one created) has passed
    [LineCheck]. *)
Definition line_cut (g : t) : Prop :=
  forall (a : nat) (pa : Pattern.t),
    (0 < a)%nat -> heap g !! a = Some pa ->
    LineCheck g (fBits pa) = Ok true.

(** Every link leads from a pattern to one of the children that
    [ChildIter] makes of it, with the type [ChildIter] gives. *)
Definition admissible (g : t) : Prop :=
  forall (a : nat) (pa : Pattern.t) (ln : Link) (pc : Pattern.t),
    heap g !! a = Some pa -> In ln (fChild pa) ->
    heap g !! GetPattern ln = Some pc ->
    exists count,
      0 <= count < 2 ^ Z.of_nat (length (fBits pa))
      /\ ChildIterOps.candidate (fBits pa) count
         = Some (fBits pc, Type_ ln).

(** Every pattern but the root is in the child list of some pattern. *)
Definition no_orphan (g : t) : Prop :=
  forall a : nat,
    (0 < a < length (heap g))%nat ->
    exists (b : nat) (pb : Pattern.t) (ln : Link),
      heap g !! b = Some pb /\ In ln (fChild pb) /\ GetPattern ln = a.

(** The chains of the hash table list every stored pattern once. *)
Definition table_lists_all (g : t) : Prop :=
  Permutation (map GetPattern (concat (fHashTable g)))
              (seq 0 (length (heap g))).

(** From [g] to [g'] nothing is taken away or rewritten: the patterns
    keep their places and their bins, [fMinDepth] does not go up, child
    lists and hash chains get new links in front only. *)
Definition grows (g g' : t) : Prop :=
  (forall (a : nat) (pa : Pattern.t),
      heap g !! a = Some pa ->
      exists pa', heap g' !! a = Some pa'
                  /\ fBits pa' = fBits pa
                  /\ fMinDepth pa' <= fMinDepth pa
                  /\ exists more, fChild pa' = more ++ fChild pa)
  /\ (forall (k : nat) (chain : list Link),
         fHashTable g !! k = Some chain ->
         exists more, fHashTable g' !! k = Some (more ++ chain)).

(** From [g] to [g'] the child lists that are not empty stay as they
    are. *)
Definition frozen (g g' : t) : Prop :=
  forall (a : nat) (pa : Pattern.t),
    heap g !! a = Some pa -> fChild pa <> [] ->
    exists pa', heap g' !! a = Some pa' /\ fChild pa' = fChild pa.

End GeneratorProps.

(* ===================================================================== *)
(** * Road (src/Road.h): the ordering of roads *)

Module Road.

(** The members of a [Road] that describe its best fit, and the flag
    [fGood].  [Double_t] is [Q]; a chi2 that is not a number is not
    represented. *)
Record t : Type := mk {
  fPos : Q;
  fSlope : Q;
  fChi2 : Q;
  fDof : Z;
  fGood : bool
}.

(** [Road::Compare] (lines 146-159).  [None] is a null [obj]; the other
    half of the assertion, that both objects are of the same class, holds
    of two roads. *)
Definition Compare (this : t) (obj : option t) : res Z :=
  match obj with
  | None => Abort
  | Some o =>
      Ok (if Qlt_bool (fChi2 this) (fChi2 o) then -1
          else if Qlt_bool (fChi2 o) (fChi2 this) then 1
               else 0)
  end.

End Road.

(* ===================================================================== *)
(** * More concrete inputs *)

Module ScenarioMore.

Import Scenario.

(** A generator over three planes that holds the all-zero pattern,
    created but not yet hashed. *)
Definition root3 : Pattern.t :=
  {| Pattern.fBits := [0; 0; 0]; Pattern.fChild := [];
     Pattern.fMinDepth := kMaxUInt |}.

Definition g3root : PatternGenerator.t :=
  {| PatternGenerator.fNlevels := 3; PatternGenerator.fNplanes := 3;
     PatternGenerator.fMaxSlope := 1%Q; PatternGenerator.fZ := z3;
     PatternGenerator.fHashTable := [[]; []; []; []];
     PatternGenerator.heap := [root3] |}.

(** Two planes, four levels below the root, slope cut 1/2. *)
Definition S4 : PatternTree.TreeParam_t :=
  {| PatternTree.maxdepth := 4; PatternTree.width := 1%Q;
     PatternTree.zpos := [0%Q; 1%Q]; PatternTree.maxslope := (1 # 2)%Q |}.

(** Two planes, two levels below the root, slope cut 1. *)
Definition S2 : PatternTree.TreeParam_t :=
  {| PatternTree.maxdepth := 2; PatternTree.width := 1%Q;
     PatternTree.zpos := [0%Q; 1%Q]; PatternTree.maxslope := 1%Q |}.

(** The generator in the build of S2 at the time [Generate] calls
    [MakeChildNodes( root, 1 )]: the parameters are set and the all-zero
    root is created and hashed. *)
Definition g2root : PatternGenerator.t :=
  {| PatternGenerator.fNlevels := 3; PatternGenerator.fNplanes := 2;
     PatternGenerator.fMaxSlope := 1%Q;
     PatternGenerator.fZ := [0%Q; 1%Q];
     PatternGenerator.fHashTable := [[Pattern.mkLink 0 0]; []; []; []];
     PatternGenerator.heap :=
       [{| Pattern.fBits := [0; 0]; Pattern.fChild := [];
           Pattern.fMinDepth := kMaxUInt |}] |}.

(** The three planes of S3, two levels below the root, slope cut 1. *)
Definition S3p : PatternTree.TreeParam_t :=
  {| PatternTree.maxdepth := 2; PatternTree.width := 1%Q;
     PatternTree.zpos := z3; PatternTree.maxslope := 1%Q |}.

(** Two groups of hits within the tolerance 0.5: the first hit of A
    matches the first two hits of B, the other two hits of A match the
    last two hits of B. *)
Definition Ascan : list Hit.t := [hit 0 0 1; hit 0 1 3; hit 0 2 3.1].
Definition Bscan : list Hit.t :=
  [hit 1 0 0.8; hit 1 1 1.1; hit 1 2 2.9; hit 1 3 3.2].

(** Three planes with the middle one at the double nearest to 1/3. *)
Definition third : Q := 6004799503160661 # 18014398509481984.
Definition gthird : PatternGenerator.t :=
  {| PatternGenerator.fNlevels := 3; PatternGenerator.fNplanes := 3;
     PatternGenerator.fMaxSlope := 1%Q;
     PatternGenerator.fZ := [0%Q; third; 1%Q];
     PatternGenerator.fHashTable := []; PatternGenerator.heap := [] |}.

End ScenarioMore.

(* ===================================================================== *)
(** * HitPairIter: every call succeeds, the iteration ends, all hits come *)

Module HitPairIterFacts.

Import HitPairIter HitPairIterInv.

Section Facts.

Variable Hit : Type.
Variable Hit_eq_dec : forall x y : Hit, {x = y} + {x <> y}.
Variable Dist : Type.
Variable Compare : Hit -> Hit -> Dist -> Z.

Local Abbreviation iter := (HitPairIter.t Hit Dist).
Local Abbreviation advance := (HitPairIter.advance Hit_eq_dec Compare).
Local Abbreviation Next := (HitPairIter.Next Hit_eq_dec Compare).
Local Abbreviation emit := (HitPairIter.emit Hit_eq_dec Compare).
Local Abbreviation skipB := (HitPairIter.skipB Hit_eq_dec Compare).
Local Abbreviation ptr_eqb := (HitPairIter.ptr_eqb Hit_eq_dec).
Local Abbreviation inv := (@HitPairIterInv.inv Hit Dist).
Local Abbreviation sound := (HitPairIterInv.sound Compare).

Lemma ptr_eqb_true (p q : option Hit) : ptr_eqb p q = true <-> p = q.
Proof.
  destruct p as [x|], q as [y|]; simpl; try (split; congruence).
  destruct (Hit_eq_dec x y); split; congruence.
Qed.

Lemma skipB_unfold (d : Dist) (hitA : Hit) (nextB hitB : option Hit)
      (itB : list Hit) :
  skipB d hitA nextB hitB itB =
  if ptr_eqb hitB nextB then Some (hitB, itB)
  else match hitB with
       | None => None
       | Some b =>
           if Compare b hitA d <? 0 then
             match itB with
             | [] => match nextB with
                     | None => Some (None, [])
                     | Some _ => None
                     end
             | x :: rest => skipB d hitA nextB (Some x) rest
             end
           else Some (hitB, itB)
       end.
Proof. destruct itB; reflexivity. Qed.

(** The replay loop stops at the hit that ended the scan at the latest:
    it never runs off the end of B, and what it passes over lies in the
    part of B the scan has covered. *)
Lemma skipB_spec (P : Hit -> Prop) (d : Dist) (hitA : Hit)
      (nextB : option Hit) (rest : list Hit) :
  TIterator.Next rest = (nextB, List.tl rest) ->
  forall (mid : list Hit) (b : Hit),
    (forall x, In x mid -> P x) ->
    exists hB l' m1,
      skipB d hitA nextB (Some b) (mid ++ rest) = Some (hB, l')
      /\ mid ++ rest = m1 ++ l'
      /\ (forall x, In x m1 -> P x \/ hB = Some x)
      /\ (hB = None -> l' = []).
Proof.
  intros Hnext mid. induction mid as [|y mid IH]; intros b HP;
    rewrite skipB_unfold;
    (destruct (ptr_eqb (Some b) nextB) eqn:E;
     [ eexists (Some b), _, []; repeat split; auto; easy |]);
    (destruct (Compare b hitA d <? 0);
     [| eexists (Some b), _, []; repeat split; auto; easy ]).
  - change ([] ++ rest) with rest.
    destruct rest as [|x r]; cbn in Hnext; inversion Hnext; subst.
    + exists None, [], []. repeat split; auto; easy.
    + rewrite skipB_unfold.
      assert (ptr_eqb (Some x) (Some x) = true) as ->
          by (apply ptr_eqb_true; reflexivity).
      exists (Some x), r, [x]. repeat split; auto; try easy.
      intros z [->|[]]. now right.
  - change ((y :: mid) ++ rest) with (y :: (mid ++ rest)).
    destruct (IH y) as (hB & l' & m1 & H1 & H2 & H3 & H4).
    { intros x Hx. apply HP. now right. }
    exists hB, l', (y :: m1). repeat split; auto.
    + cbn. now rewrite H2.
    + intros x [->|Hx]; [left; apply HP; now left | now apply H3].
Qed.

Lemma Next_tl (T : Type) (l : list T) :
  TIterator.Next l = (fst (TIterator.Next l), List.tl l).
Proof. destruct l; reflexivity. Qed.

Lemma scan_ok_adv (B r save : list Hit) (y : Hit) (sh : option Hit) :
  scan_ok B (y :: r) save sh -> scan_ok B r save sh.
Proof.
  intros (pre & mid & b0 & H1 & H2 & H3).
  exists pre, (mid ++ [y]), b0. rewrite <- !app_assoc. auto.
Qed.

Lemma scan_ok_start (B pre r : list Hit) (b : Hit) :
  B = pre ++ r -> scan_ok B r r (Some b).
Proof. intros ->. exists pre, [], b. auto. Qed.

Lemma pre_stay (L pre r : list Hit) (E E' : Hit -> Prop)
      (n n' : option Hit) :
  L = pre ++ r ->
  (forall x, In x pre -> E x \/ n = Some x) ->
  (forall x, E x \/ n = Some x -> E' x \/ n' = Some x) ->
  exists pre', L = pre' ++ r /\ forall x, In x pre' -> E' x \/ n' = Some x.
Proof. intros -> H1 H2. exists pre. split; auto. Qed.

Lemma pre_adv (L pre r : list Hit) (y : Hit) (E E' : Hit -> Prop)
      (n n' : option Hit) :
  L = pre ++ y :: r ->
  (forall x, In x pre -> E x \/ n = Some x) ->
  (forall x, E x \/ n = Some x -> E' x \/ n' = Some x) ->
  E' y \/ n' = Some y ->
  exists pre', L = pre' ++ r /\ forall x, In x pre' -> E' x \/ n' = Some x.
Proof.
  intros -> H1 H2 H3. exists (pre ++ [y]). split.
  - now rewrite <- app_assoc.
  - intros x Hx. apply in_app_or in Hx. destruct Hx as [Hx|[->|[]]]; auto.
Qed.

Ltac side :=
  intros; cbn [fst snd] in *; subst;
  repeat match goal with
         | H : _ \/ _ |- _ => destruct H
         | H : Some _ = Some _ |- _ => injection H as H; subst
         | H : Some _ = None |- _ => discriminate H
         | H : None = Some _ |- _ => discriminate H
         | H : In _ [] |- _ => destruct H
         | H : False |- _ => destruct H
         | H : true = false |- _ => discriminate H
         | H : false = true |- _ => discriminate H
         end;
  auto 6.

Ltac close_inv :=
  eexists; (split; [reflexivity|]); constructor; cbn; auto;
  try solve [ eapply pre_stay; eauto; side
            | eapply pre_adv; eauto; side
            | intros; eapply scan_ok_adv; eauto
            | side ].

(** The restored cursor after a scan: the replay of [skipB] leaves the
    cursor of B inside B with everything before it published. *)
Lemma replay_ok (B preB itB save : list Hit) (sh : option Hit)
      (EB : Hit -> Prop) (d : Dist) (hA : Hit) :
  B = preB ++ itB ->
  (forall x, In x preB -> EB x) ->
  scan_ok B itB save sh ->
  exists hB l',
    skipB d hA (fst (TIterator.Next itB)) sh save = Some (hB, l')
    /\ (exists pre, B = pre ++ l'
                    /\ forall x, In x pre -> EB x \/ hB = Some x)
    /\ (hB = None -> l' = []).
Proof.
  intros HB HE (pre & mid & b0 & H1 & -> & ->).
  assert (preB = pre ++ mid) as ->.
  { rewrite app_assoc in H1. rewrite HB in H1.
    now apply app_inv_tail in H1. }
  destruct (skipB_spec EB d hA (fst (TIterator.Next itB)) itB
              (Next_tl _ itB) mid b0) as (hB & l' & m1 & E1 & E2 & E3 & E4).
  { intros x Hx. apply HE. apply in_or_app. now right. }
  exists hB, l'. split; [exact E1|]. split; [|exact E4].
  exists (pre ++ m1). split.
  - rewrite <- app_assoc, <- E2. exact H1.
  - intros x Hx. apply in_app_or in Hx. destruct Hx as [Hx|Hx]; auto.
    left. apply HE. apply in_or_app. now left.
Qed.

Lemma restore_ok (B preB itB save : list Hit) (sh : option Hit)
      (EB : Hit -> Prop) :
  B = preB ++ itB ->
  (forall x, In x preB -> EB x) ->
  scan_ok B itB save sh ->
  (exists pre, B = pre ++ save /\ forall x, In x pre -> EB x)
  /\ (itB = [] -> forall x, In x save -> EB x).
Proof.
  intros HB HE (pre & mid & b0 & H1 & -> & ->).
  assert (preB = pre ++ mid) as ->.
  { rewrite app_assoc in H1. rewrite HB in H1.
    now apply app_inv_tail in H1. }
  split.
  - exists pre. split; auto. intros x Hx. apply HE, in_or_app. now left.
  - intros -> x Hx. rewrite app_nil_r in Hx. apply HE, in_or_app. now right.
Qed.

Lemma advance_inv (A B : list Hit) (d : Dist) (EA EB : Hit -> Prop)
      (it : iter) :
  inv A B d EA EB it ->
  exists it',
    advance it = Some it'
    /\ inv A B d (fun x => EA x \/ fst (fCurrent it') = Some x)
                 (fun x => EB x \/ snd (fCurrent it') = Some x) it'.
Proof.
  intros [Hs Hd (preA & HA & HAe) HAend (preB & HB & HBe) HBend Hscan].
  unfold HitPairIter.advance.
  destruct (fNext it) as [[a|] [b|]] eqn:Hn; cbn [fst snd] in *.
  - destruct (Compare a b (fMaxDist it) =? -1) eqn:C1.
    { destruct (fIterA it) as [|a' rA] eqn:EitA; cbn [TIterator.Next];
        close_inv. }
    destruct (Compare a b (fMaxDist it) =? 1) eqn:C2.
    { destruct (fIterB it) as [|b' rB] eqn:EitB; cbn [TIterator.Next];
        close_inv. }
    destruct (TIterator.Next (fIterB it)) as [nextB itB] eqn:EN.
    destruct (match nextB with
              | Some nb => Compare a nb (fMaxDist it) <? 0
              | None => true end) eqn:Eends.
    + destruct (fScanning it) eqn:Sc.
      * (* end of a scan *)
        specialize (Hscan eq_refl).
        assert (HE : forall x, In x preB -> EB x \/ Some b = Some x) by auto.
        destruct (fIterA it) as [|a' rA] eqn:EitA; cbn [TIterator.Next].
        -- destruct (restore_ok B preB (fIterB it) (fSaveIter it)
                       (fSaveHit it) (fun x => EB x \/ Some b = Some x)
                       HB HE Hscan) as ((pre' & E2 & E3) & E4).
           close_inv.
           intros -> x Hx. apply E4; auto.
           destruct (fIterB it); [reflexivity|discriminate EN].
        -- destruct (replay_ok B preB (fIterB it) (fSaveIter it)
                       (fSaveHit it) (fun x => EB x \/ Some b = Some x)
                       (fMaxDist it) a' HB HE Hscan)
             as (hB & l' & E1 & (pre' & E2 & E3) & E4).
           rewrite EN in E1. cbn [fst] in E1. rewrite E1.
           close_inv.
           ++ exists pre'. split; auto.
           ++ intros -> x Hx. rewrite E4 in Hx by reflexivity. destruct Hx.
      * destruct (fIterA it) as [|a' rA] eqn:EitA;
          destruct (fIterB it) as [|b' rB] eqn:EitB;
          cbn [TIterator.Next] in *; inversion EN; subst;
          close_inv.
    + destruct (fIterB it) as [|b' rB] eqn:EitB;
        cbn [TIterator.Next] in EN; inversion EN; subst; [discriminate|].
      close_inv.
      destruct (fScanning it) eqn:Sc.
      * intros _. eapply scan_ok_adv; eauto.
      * intros _. eapply scan_ok_start. 
        instantiate (1 := preB ++ [b']). now rewrite <- app_assoc.
  - destruct (fIterA it) as [|a' rA] eqn:EitA; cbn [TIterator.Next];
      close_inv.
  - destruct (fIterB it) as [|b' rB] eqn:EitB; cbn [TIterator.Next];
      close_inv.
  - close_inv.
Qed.

Lemma inv_lenB (A B : list Hit) (d : Dist) (EA EB : Hit -> Prop)
      (it : iter) :
  inv A B d EA EB it -> (length (fIterB it) <= length B)%nat.
Proof.
  intros [_ _ _ _ (pre & -> & _) _ _]. rewrite length_app. lia.
Qed.

Lemma present_le (o : option Hit) : (present o <= 1)%nat.
Proof. destruct o; simpl; lia. Qed.

Lemma weight_lt (a a' b b' K : nat) :
  (a' + 1 <= a)%nat -> (b' <= K + 1)%nat ->
  (a' * (K + 2) + b' < a * (K + 2) + b)%nat.
Proof. intros. nia. Qed.

(** Every call of [Next()] before the end either moves the cursor of A
    forward, or leaves it and moves the cursor of B forward. *)
Lemma advance_weight (A B : list Hit) (d : Dist) (EA EB EA' EB' : Hit -> Prop)
      (it it' : iter) :
  inv A B d EA EB it -> inv A B d EA' EB' it' ->
  advance it = Some it' ->
  fNext it <> (None, None) ->
  (weight B it' < weight B it)%nat.
Proof.
  intros Hi Hi' Hadv Hne.
  pose proof (inv_lenB _ _ _ _ _ _ Hi) as L.
  pose proof (inv_lenB _ _ _ _ _ _ Hi') as L'.
  revert Hadv. unfold HitPairIter.advance, weight.
  destruct (fNext it) as [[a|] [b|]] eqn:Hn; cbn [fst snd present].
  - destruct (Compare a b (fMaxDist it) =? -1).
    { destruct (fIterA it); cbn [TIterator.Next]; intros [= <-]; cbn in *;
        nia. }
    destruct (Compare a b (fMaxDist it) =? 1).
    { destruct (fIterB it); cbn [TIterator.Next]; intros [= <-]; cbn in *;
        nia. }
    destruct (TIterator.Next (fIterB it)) as [nextB itB] eqn:EN.
    destruct (match nextB with
              | Some nb => Compare a nb (fMaxDist it) <? 0
              | None => true end) eqn:Eends.
    + destruct (fScanning it).
      * destruct (fIterA it) as [|a' rA]; cbn [TIterator.Next].
        -- intros [= <-]; cbn in *.
           pose proof (present_le nextB). nia.
        -- destruct (skipB _ _ _ _ _) as [[hB l']|]; [|discriminate].
           intros [= <-]; cbn in *.
           pose proof (present_le hB). nia.
      * destruct (fIterA it) as [|a' rA]; destruct (fIterB it);
          cbn [TIterator.Next] in *; inversion EN; subst;
          intros [= <-]; cbn in *; nia.
    + destruct (fIterB it); cbn [TIterator.Next] in EN; inversion EN; subst;
        [discriminate|].
      intros [= <-]; cbn in *; nia.
  - destruct (fIterA it); cbn [TIterator.Next]; intros [= <-]; cbn in *; nia.
  - destruct (fIterB it); cbn [TIterator.Next]; intros [= <-]; cbn in *; nia.
  - congruence.
Qed.

(** A published pair with both hits present went through the branch
    [default:] of the [switch]. *)
Lemma advance_sound (it it' : iter) (a b : Hit) :
  (forall x y e, Compare x y e = -1 \/ Compare x y e = 0
                 \/ Compare x y e = 1) ->
  advance it = Some it' ->
  fCurrent it' = (Some a, Some b) ->
  Compare a b (fMaxDist it) = 0 /\ fMaxDist it' = fMaxDist it.
Proof.
  intros Hrange. unfold HitPairIter.advance.
  destruct (fNext it) as [[x|] [y|]] eqn:Hn.
  - destruct (Compare x y (fMaxDist it) =? -1) eqn:C1.
    { destruct (TIterator.Next (fIterA it)); intros [= <-]; cbn; congruence. }
    destruct (Compare x y (fMaxDist it) =? 1) eqn:C2.
    { destruct (TIterator.Next (fIterB it)); intros [= <-]; cbn; congruence. }
    assert (Compare x y (fMaxDist it) = 0) as C0.
    { destruct (Hrange x y (fMaxDist it)) as [H|[H|H]]; auto; lia. }
    destruct (TIterator.Next (fIterB it)) as [nextB itB].
    destruct (match nextB with
              | Some nb => Compare x nb (fMaxDist it) <? 0
              | None => true end).
    + destruct (fScanning it).
      * destruct (TIterator.Next (fIterA it)) as [[a'|] rA].
        -- destruct (skipB _ _ _ _ _) as [[hB l']|]; [|discriminate].
           intros [= <-]; cbn; intros [= <- <-]; auto.
        -- intros [= <-]; cbn; intros [= <- <-]; auto.
      * destruct (TIterator.Next (fIterA it)).
        intros [= <-]; cbn; intros [= <- <-]; auto.
    + intros [= <-]; cbn; intros [= <- <-]; auto.
  - destruct (TIterator.Next (fIterA it)); intros [= <-]; cbn; congruence.
  - destruct (TIterator.Next (fIterB it)); intros [= <-]; cbn; congruence.
  - intros [= <-]; cbn; congruence.
Qed.

(** The all-absent pair is published only once the lookahead is. *)
Lemma advance_current (it it' : iter) :
  advance it = Some it' ->
  fNext it <> (None, None) ->
  fCurrent it' <> (None, None).
Proof.
  unfold HitPairIter.advance.
  destruct (fNext it) as [[x|] [y|]] eqn:Hn.
  - destruct (Compare x y (fMaxDist it) =? -1).
    { destruct (TIterator.Next (fIterA it)); intros [= <-]; cbn; congruence. }
    destruct (Compare x y (fMaxDist it) =? 1).
    { destruct (TIterator.Next (fIterB it)); intros [= <-]; cbn; congruence. }
    destruct (TIterator.Next (fIterB it)) as [nextB itB].
    destruct (match nextB with
              | Some nb => Compare x nb (fMaxDist it) <? 0
              | None => true end).
    + destruct (fScanning it).
      * destruct (TIterator.Next (fIterA it)) as [[a'|] rA].
        -- destruct (skipB _ _ _ _ _) as [[hB l']|]; [|discriminate].
           intros [= <-]; cbn; congruence.
        -- intros [= <-]; cbn; congruence.
      * destruct (TIterator.Next (fIterA it)).
        intros [= <-]; cbn; congruence.
    + intros [= <-]; cbn; congruence.
  - destruct (TIterator.Next (fIterA it)); intros [= <-]; cbn; congruence.
  - destruct (TIterator.Next (fIterB it)); intros [= <-]; cbn; congruence.
  - congruence.
Qed.

Lemma start_idem (it : iter) : start (start it) = start it.
Proof.
  unfold start. destruct (fStarted it) eqn:E; [now rewrite E|].
  destruct (TIterator.Next (fIterA it)), (TIterator.Next (fIterB it)).
  reflexivity.
Qed.

Lemma Next_start (it : iter) : Next (start it) = Next it.
Proof. unfold HitPairIter.Next. now rewrite start_idem. Qed.

Lemma Next_started (it : iter) : fStarted it = true -> Next it = advance it.
Proof. intros H. unfold HitPairIter.Next, start. now rewrite H. Qed.

Lemma emit_start (k : nat) (it : iter) :
  emit (S k) (start it) = emit (S k) it.
Proof. cbn [HitPairIter.emit]. now rewrite Next_start. Qed.

Lemma emit_snoc (n : nat) (it it1 it2 : iter) (l : list (ObjectPair Hit)) :
  emit n it = Some (l, it1) -> Next it1 = Some it2 ->
  emit (S n) it = Some (l ++ [fCurrent it2], it2).
Proof.
  revert it l. induction n as [|n IH]; intros it l.
  - cbn. intros [= <- <-] ->. reflexivity.
  - intros H H2. cbn [HitPairIter.emit] in H.
    destruct (Next it) as [i1|] eqn:E1; [|discriminate].
    destruct (emit n i1) as [[l1 i2]|] eqn:E2; [|discriminate].
    injection H as <- <-.
    specialize (IH _ _ E2 H2).
    change (emit (S (S n)) it) with
      (match Next it with
       | None => None
       | Some j => match emit (S n) j with
                   | None => None
                   | Some (l, j2) => Some (fCurrent j :: l, j2)
                   end
       end).
    rewrite E1, IH. reflexivity.
Qed.

Lemma inv_start (A B : list Hit) (d : Dist) :
  inv A B d (fun _ => False) (fun _ => False) (start (init A B d)).
Proof.
  unfold start, init; cbn.
  destruct A as [|a A], B as [|b B]; cbn; constructor; cbn; auto;
    try discriminate;
    try solve [ exists []; split; auto; intros x []
              | eexists [_]; split; [reflexivity|]; intros x [->|[]]; auto ].
Qed.

Lemma inv_weaken (A B : list Hit) (d : Dist) (EA EB EA' EB' : Hit -> Prop)
      (it : iter) :
  (forall x, EA x -> EA' x) -> (forall x, EB x -> EB' x) ->
  inv A B d EA EB it -> inv A B d EA' EB' it.
Proof.
  intros HA HB [H1 H2 (pa & H3 & H3') H4 (pb & H5 & H5') H6 H7].
  constructor; auto.
  - exists pa. split; auto. intros x Hx. destruct (H3' x Hx); auto.
  - exists pb. split; auto. intros x Hx. destruct (H5' x Hx); auto.
Qed.

Lemma firsts_cons (e : ObjectPair Hit) (l : list (ObjectPair Hit)) (x : Hit) :
  firsts (e :: l) x <-> fst e = Some x \/ firsts l x.
Proof. reflexivity. Qed.

Lemma seconds_cons (e : ObjectPair Hit) (l : list (ObjectPair Hit)) (x : Hit) :
  seconds (e :: l) x <-> snd e = Some x \/ seconds l x.
Proof. reflexivity. Qed.

Section Run.

Hypothesis Compare_range :
  forall x y e, Compare x y e = -1 \/ Compare x y e = 0
                \/ Compare x y e = 1.

(** Any number of calls of [Next()] succeeds, keeps the invariant and
    publishes matching pairs only. *)
Lemma emit_total (A B : list Hit) (d : Dist) (n : nat) :
  forall (EA EB : Hit -> Prop) (it : iter),
    inv A B d EA EB it ->
    exists l it',
      emit n it = Some (l, it')
      /\ inv A B d (fun x => EA x \/ firsts l x)
                   (fun x => EB x \/ seconds l x) it'
      /\ sound d l.
Proof.
  induction n as [|n IH]; intros EA EB it Hi.
  - exists [], it. split; [reflexivity|]. split.
    + eapply inv_weaken; [| |exact Hi]; auto.
    + intros a b [].
  - destruct (advance_inv _ _ _ _ _ _ Hi) as (it1 & E1 & Hi1).
    destruct (IH _ _ _ Hi1) as (l & it' & E2 & Hi' & Hs).
    exists (fCurrent it1 :: l), it'.
    cbn [HitPairIter.emit].
    rewrite (Next_started it) by apply Hi. rewrite E1, E2.
    split; [reflexivity|]. split.
    + eapply inv_weaken; [| |exact Hi']; intros x;
        rewrite ?firsts_cons, ?seconds_cons; tauto.
    + intros a b [H|H]; [|now apply Hs].
      destruct (advance_sound it it1 a b Compare_range E1 H) as [H1 _].
      now rewrite (inv_dist _ _ _ _ _ _ _ _ Hi) in H1.
Qed.

(** The iteration ends: after finitely many calls the lookahead is
    the all-absent pair, and no all-absent pair was published before. *)
Lemma emit_ends (A B : list Hit) (d : Dist) (w : nat) :
  forall (EA EB : Hit -> Prop) (it : iter),
    inv A B d EA EB it -> (weight B it <= w)%nat ->
    exists n l it',
      emit n it = Some (l, it')
      /\ fNext it' = (None, None)
      /\ (forall e, In e l -> e <> (None, None))
      /\ inv A B d (fun x => EA x \/ firsts l x)
                   (fun x => EB x \/ seconds l x) it'
      /\ sound d l.
Proof.
  induction w as [|w IH]; intros EA EB it Hi Hw.
  - exists O, [], it. split; [reflexivity|]. split; [|split; [|split]].
    + unfold weight in Hw.
      destruct (fNext it) as [[a|] [b|]]; cbn in Hw; try lia. reflexivity.
    + intros e [].
    + eapply inv_weaken; [| |exact Hi]; auto.
    + intros a b [].
  - destruct (fNext it) as [[a|] [b|]] eqn:Hn.
    4:{ exists O, [], it. split; [reflexivity|]. split; [exact Hn|].
        split; [intros e []|].
        split; [eapply inv_weaken; [| |exact Hi]; auto | intros x y []]. }
    all: destruct (advance_inv _ _ _ _ _ _ Hi) as (it1 & E1 & Hi1);
      assert (fNext it <> (None, None)) as Hne by (rewrite Hn; congruence);
      pose proof (advance_weight _ _ _ _ _ _ _ _ _ Hi Hi1 E1 Hne) as Hlt;
      destruct (IH _ _ it1 Hi1 ltac:(lia))
        as (n & l & it' & E2 & Hend & Hnt & Hi' & Hs);
      exists (S n), (fCurrent it1 :: l), it';
      cbn [HitPairIter.emit];
      rewrite (Next_started it) by apply Hi; rewrite E1, E2;
      (split; [reflexivity|]); (split; [exact Hend|]);
      (split; [|split]).
    all: try (eapply inv_weaken; [| |exact Hi']; intros x;
              rewrite ?firsts_cons, ?seconds_cons; tauto).
    all: try (intros x y [H|H]; [|now apply Hs];
              destruct (advance_sound it it1 x y Compare_range E1 H)
                as [H1 _];
              now rewrite (inv_dist _ _ _ _ _ _ _ _ Hi) in H1).
    all: intros e [<-|He]; [|now apply Hnt].
    all: now apply (advance_current it it1 E1).
Qed.

(** At the end of the iteration every hit has been published. *)
Lemma inv_end (A B : list Hit) (d : Dist) (EA EB : Hit -> Prop)
      (it : iter) :
  inv A B d EA EB it -> fNext it = (None, None) ->
  (forall x, In x A -> EA x) /\ (forall x, In x B -> EB x).
Proof.
  intros [_ _ (pa & -> & Ha) Hae (pb & -> & Hb) Hbe _] Hn.
  rewrite Hn in *. cbn [fst snd] in *. split; intros x Hx.
  - rewrite Hae, app_nil_r in Hx by reflexivity.
    destruct (Ha x Hx); [auto|discriminate].
  - apply in_app_or in Hx. destruct Hx as [Hx|Hx]; [|now apply Hbe].
    destruct (Hb x Hx); [auto|discriminate].
Qed.

Lemma advance_end (it : iter) :
  fNext it = (None, None) ->
  exists it', advance it = Some it' /\ fCurrent it' = (None, None).
Proof.
  intros H. unfold HitPairIter.advance. rewrite H.
  eexists. split; reflexivity.
Qed.

End Run.

(** C1.  Pair-iterator soundness: whatever the two collections and the
    tolerance, any number of calls of [Next()] succeeds, and every pair
    it publishes with both hits present compares as 0 within the
    tolerance.  [Compare] is assumed to return -1, 0 or 1 only. *)
Theorem pair_iterator_soundness :
  (forall x y e, Compare x y e = -1 \/ Compare x y e = 0
                 \/ Compare x y e = 1) ->
  forall (A B : list Hit) (maxdist : Dist) (n : nat),
  exists l it,
    emit n (init A B maxdist) = Some (l, it)
    /\ forall a b, In (Some a, Some b) l -> Compare a b maxdist = 0.
Proof.
  intros Hrange A B maxdist [|k].
  - exists [], (init A B maxdist). split; [reflexivity|]. intros a b [].
  - rewrite <- emit_start.
    destruct (emit_total Hrange A B maxdist (S k) _ _ _
                (inv_start A B maxdist)) as (l & it & E & _ & Hs).
    exists l, it. split; [exact E|exact Hs].
Qed.

(** C2.  Pair-iterator completeness: the iteration ends, that is after
    finitely many calls of [Next()] the all-absent pair is published and
    none before it; by then every hit of A has been published as a
    first component, alone or with a hit of B it compares as 0 with, and
    every hit of B as a second component, likewise. *)
Theorem pair_iterator_completeness :
  (forall x y e, Compare x y e = -1 \/ Compare x y e = 0
                 \/ Compare x y e = 1) ->
  forall (A B : list Hit) (maxdist : Dist),
  exists n l it,
    emit (S n) (init A B maxdist) = Some (l ++ [(None, None)], it)
    /\ (forall e, In e l -> e <> (None, None))
    /\ (forall h, In h A ->
          exists e, In e l /\ fst e = Some h
            /\ (snd e = None
                \/ exists b, snd e = Some b /\ Compare h b maxdist = 0))
    /\ (forall h, In h B ->
          exists e, In e l /\ snd e = Some h
            /\ (fst e = None
                \/ exists a, fst e = Some a /\ Compare a h maxdist = 0)).
Proof.
  intros Hrange A B maxdist.
  destruct (emit_ends Hrange A B maxdist _ _ _ _
              (inv_start A B maxdist) (le_n _))
    as (n & l & it1 & E & Hend & Hnt & Hi & Hs).
  destruct (advance_end it1 Hend) as (it2 & E2 & Hcur).
  rewrite <- Next_started in E2 by apply Hi.
  pose proof (emit_snoc _ _ _ _ _ E E2) as E3.
  rewrite emit_start, Hcur in E3.
  destruct (inv_end _ _ _ _ _ _ Hi Hend) as [HA HB].
  exists n, l, it2. split; [exact E3|]. split; [exact Hnt|].
  split; intros h Hh.
  - destruct (HA h Hh) as [[]|Hf].
    apply in_map_iff in Hf. destruct Hf as ([x y] & Hx & Hin).
    cbn in Hx. subst x. exists (Some h, y). repeat split; auto.
    destruct y as [b|]; [right|now left].
    exists b. split; [reflexivity|]. now apply Hs.
  - destruct (HB h Hh) as [[]|Hf].
    apply in_map_iff in Hf. destruct Hf as ([x y] & Hy & Hin).
    cbn in Hy. subst y. exists (x, Some h). repeat split; auto.
    destruct x as [a|]; [right|now left].
    exists a. split; [reflexivity|]. now apply Hs.
Qed.

(** One hit of A that matches three hits of B in a row: a scan. *)
Lemma scan_three (a b0 b1 b2 : Hit) (d : Dist) :
  Compare a b0 d = 0 -> Compare a b1 d = 0 -> Compare a b2 d = 0 ->
  option_map fst (emit 4 (init [a] [b0; b1; b2] d))
  = Some [(Some a, Some b0); (Some a, Some b1); (Some a, Some b2);
          (None, None)].
Proof.
  intros H0 H1 H2.
  unfold HitPairIter.emit, HitPairIter.Next, start, HitPairIter.advance,
    init, TIterator.Next.
  repeat (cbn [Z.eqb Z.ltb Z.compare fStarted fIterA fIterB fNext fMaxDist
               fScanning fSaveIter fSaveHit fCurrent fCollA fCollB
               option_map fst];
          rewrite ?H0, ?H1, ?H2).
  reflexivity.
Qed.

(** A copy whose storage happened to hold the tolerance of the original
    is the original: [fMaxDist] is the only member the copy constructor
    does not take from [rhs]. *)
Lemma copy_ctor_same (rhs : iter) : copy_ctor (fMaxDist rhs) rhs = rhs.
Proof. destruct rhs; reflexivity. Qed.

(** The assignment operator does take the tolerance from [rhs]. *)
Lemma assign_fMaxDist (self rhs : iter) :
  fMaxDist (assign self rhs) = fMaxDist rhs.
Proof. reflexivity. Qed.

End Facts.

End HitPairIterFacts.

(* ===================================================================== *)
(** * The pair iterator on the hits of the scenarios *)

Module HitFacts.

Lemma Compare_range (x y : Hit.t) (e : Q) :
  Hit.Compare x y e = -1 \/ Hit.Compare x y e = 0 \/ Hit.Compare x y e = 1.
Proof.
  unfold Hit.Compare. destruct (Qle_bool _ e); [auto|].
  destruct (Qle_bool _ _); auto.
Qed.

End HitFacts.

Module ScenarioHits.

Import Scenario.

Local Abbreviation emitted n it :=
  (option_map fst (HitPairIter.emit Hit.eq_dec Hit.Compare n it)).

Lemma pair_iterator_soundness_witness :
  (forall x y e, Hit.Compare x y e = -1 \/ Hit.Compare x y e = 0
                 \/ Hit.Compare x y e = 1)
  /\ exists l it,
       HitPairIter.emit Hit.eq_dec Hit.Compare 4
         (HitPairIter.init A5 B5 maxdist5) = Some (l, it)
       /\ forall a b, In (Some a, Some b) l -> Hit.Compare a b maxdist5 = 0.
Proof.
  split; [exact HitFacts.Compare_range|].
  exact (HitPairIterFacts.pair_iterator_soundness
           Hit.t Hit.eq_dec Q Hit.Compare HitFacts.Compare_range
           A5 B5 maxdist5 4%nat).
Defined.

Lemma pair_iterator_completeness_witness :
  (forall x y e, Hit.Compare x y e = -1 \/ Hit.Compare x y e = 0
                 \/ Hit.Compare x y e = 1)
  /\ exists n l it,
       HitPairIter.emit Hit.eq_dec Hit.Compare (S n)
         (HitPairIter.init A5 B5 maxdist5) = Some (l ++ [(None, None)], it)
       /\ (forall e, In e l -> e <> (None, None))
       /\ (forall h, In h A5 ->
             exists e, In e l /\ fst e = Some h
               /\ (snd e = None
                   \/ exists b, snd e = Some b
                                /\ Hit.Compare h b maxdist5 = 0))
       /\ (forall h, In h B5 ->
             exists e, In e l /\ snd e = Some h
               /\ (fst e = None
                   \/ exists a, fst e = Some a
                                /\ Hit.Compare a h maxdist5 = 0)).
Proof.
  split; [exact HitFacts.Compare_range|].
  exact (HitPairIterFacts.pair_iterator_completeness
           Hit.t Hit.eq_dec Q Hit.Compare HitFacts.Compare_range
           A5 B5 maxdist5).
Defined.

(** C8.  Scenario S5: with A = [x=1.0], B = [x=0.8, x=1.1, x=1.3] and
    maxdist = 0.5, the first four calls of [Next()], the first of them
    made by the constructor, publish (A0,B0), (A0,B1), (A0,B2) and then
    the all-absent pair. *)
Theorem scan_scenario_S5 :
  emitted 4%nat (HitPairIter.init A5 B5 maxdist5)
  = Some [ (Some (hit 0 0 1), Some (hit 1 0 0.8));
           (Some (hit 0 0 1), Some (hit 1 1 1.1));
           (Some (hit 0 0 1), Some (hit 1 2 1.3));
           (None, None) ].
Proof.
  apply (HitPairIterFacts.scan_three Hit.t Hit.eq_dec Q Hit.Compare);
    reflexivity.
Qed.

(** After a scan that ends with A exhausted the cursor of B stays at the
    saved position (line 223 has rewound it): the hits of B behind it are
    published again, as singletons. *)
Lemma rewind_after_scan :
  emitted 7%nat (HitPairIter.init A5 B5far maxdist5)
  = Some [ (Some (hit 0 0 1), Some (hit 1 0 0.8));
           (Some (hit 0 0 1), Some (hit 1 1 1.1));
           (Some (hit 0 0 1), Some (hit 1 2 1.3));
           (None, Some (hit 1 3 5));
           (None, Some (hit 1 2 1.3));
           (None, Some (hit 1 3 5));
           (None, None) ].
Proof. vm_compute. reflexivity. Qed.

(** C3.  The copy constructor leaves [fMaxDist] to what the storage of
    the copy holds.  With two hits on each side that pair up within 0.5,
    the original publishes (A1,B1) next; a copy made at that point whose
    storage holds 0 publishes the singleton (A1, absent) instead. *)
Theorem copy_ctor_diverges :
  exists it,
    HitPairIter.ctor Hit.eq_dec Hit.Compare Acopy Bcopy maxdist5 = Some it
    /\ emitted 1%nat it = Some [(Some (hit 0 1 2), Some (hit 1 1 2.2))]
    /\ emitted 1%nat (HitPairIter.copy_ctor 0%Q it)
       = Some [(Some (hit 0 1 2), None)].
Proof.
  eexists. split; [vm_compute; reflexivity|].
  split; vm_compute; reflexivity.
Qed.

End ScenarioHits.

(* ===================================================================== *)
(** * HitSet: similarity *)

Module HitSetFacts.
Import HitSet.

Section Facts.

Variable Hit : Type.
Variable comp : Hit -> Hit -> bool.
Variable GetPlaneNum : Hit -> Z.

Local Abbreviation walk := (HitSet.walk comp GetPlaneNum).
Local Abbreviation inter := (HitSet.merge_intersection comp).
Local Abbreviation mask := (HitSet.GetMatchValue GetPlaneNum).

Local Abbreviation add_plane :=
  (fun (curpat : Z) (h : Hit) => Z.lor curpat (plane_bit (GetPlaneNum h))).

(** The loop accumulates the plane bits of the merge-order
    intersection. *)
Lemma walk_fold (ihits itry : list Hit) (pat : Z) :
  walk ihits itry pat = fold_left add_plane (inter ihits itry) pat.
Proof.
  revert itry pat. induction ihits as [|h ihits IHi]; intros itry pat.
  - destruct itry; reflexivity.
  - induction itry as [|y itry IHt] in pat |- *; [reflexivity|].
    cbn [HitSet.walk HitSet.merge_intersection].
    destruct (comp y h); [apply IHt|].
    destruct (comp h y); [apply IHi|].
    cbn [fold_left]. apply IHi.
Qed.

(** What is in the merge-order intersection is a hit of [tryset] that
    has the key of a hit of [this]. *)
Lemma inter_common (ihits itry : list Hit) (y : Hit) :
  In y (inter ihits itry) ->
  In y itry /\ exists h, In h ihits /\ equiv comp h y.
Proof.
  revert itry. induction ihits as [|h ihits IHi]; intros itry.
  - destruct itry; intros [].
  - induction itry as [|z itry IHt]; [intros []|].
    cbn [HitSet.merge_intersection].
    destruct (comp z h) eqn:E1.
    { intros H. destruct (IHt H) as [H1 H2]. split; [now right|exact H2]. }
    destruct (comp h z) eqn:E2.
    { intros H. destruct (IHi _ H) as [H1 (h' & H2 & H3)].
      split; [exact H1|]. exists h'. split; [now right|exact H3]. }
    intros [<-|H].
    + split; [now left|]. exists h. split; [now left|]. now split.
    + destruct (IHi _ H) as [H1 (h' & H2 & H3)].
      split; [now right|]. exists h'. split; [now right|exact H3].
Qed.

Lemma plane_bit_testbit (k p : Z) :
  Z.testbit (plane_bit k) p = true -> k = p.
Proof.
  unfold plane_bit, wrap32. intros H.
  destruct (Z.ltb_spec p 0) as [Hp|Hp].
  { now rewrite Z.testbit_neg_r in H. }
  rewrite Z.testbit_mod_pow2 in H by lia.
  apply andb_prop in H. destruct H as [_ H].
  destruct (Z.ltb_spec k 0) as [Hk|Hk].
  - rewrite Z.shiftl_1_l in H. rewrite Z.pow_neg_r in H by lia.
    now rewrite Z.bits_0 in H.
  - rewrite Z.shiftl_1_l, Z.pow2_bits_eqb in H by lia.
    now apply Z.eqb_eq in H.
Qed.

Lemma fold_testbit (l : list Hit) (pat p : Z) :
  Z.testbit (fold_left add_plane l pat) p = true ->
  Z.testbit pat p = true \/ exists y, In y l /\ GetPlaneNum y = p.
Proof.
  revert pat. induction l as [|y l IH]; intros pat H; [now left|].
  cbn [fold_left] in H. destruct (IH _ H) as [H1|(z & H1 & H2)].
  - rewrite Z.lor_spec in H1.
    apply orb_prop in H1. destruct H1 as [H1|H1]; [now left|].
    right. exists y. split; [now left|now apply plane_bit_testbit].
  - right. exists z. split; [now right|exact H2].
Qed.

Lemma plane_bit_pow2 (k : Z) : 0 <= k < 32 -> plane_bit k = 2 ^ k.
Proof.
  intros Hk. unfold plane_bit, wrap32.
  rewrite Z.shiftl_1_l. apply Z.mod_small. split.
  - apply Z.pow_nonneg. lia.
  - apply Z.pow_lt_mono_r; lia.
Qed.

Lemma fold_keeps (l : list Hit) (p : Z) :
  forall pat, Z.testbit pat p = true ->
    Z.testbit (fold_left (fun curpat h =>
                            Z.lor curpat (plane_bit (GetPlaneNum h))) l pat) p
    = true.
Proof.
  induction l as [|h l IH]; intros pat Hp; cbn [fold_left]; [exact Hp|].
  apply IH. rewrite Z.lor_spec, Hp. reflexivity.
Qed.

Lemma fold_sets (l : list Hit) (y : Hit) :
  In y l -> 0 <= GetPlaneNum y < 32 ->
  forall pat,
    Z.testbit (fold_left (fun curpat h =>
                            Z.lor curpat (plane_bit (GetPlaneNum h))) l pat)
      (GetPlaneNum y) = true.
Proof.
  intros Hy Hr. induction l as [|h l IH]; [destruct Hy|].
  intros pat. cbn [fold_left]. destruct Hy as [->|Hy]; [|now apply IH].
  apply fold_keeps. rewrite Z.lor_spec, (plane_bit_pow2 _ Hr).
  rewrite Z.pow2_bits_true by lia. apply orb_true_r.
Qed.

(** The plane occupancy of a list of hits in planes 0 to 31, read off
    the bits of its match value. *)
Lemma mask_testbit (l : list Hit) :
  (forall y, In y l -> 0 <= GetPlaneNum y < 32) ->
  forall p, Z.testbit (mask l) p = true
            <-> exists y, In y l /\ GetPlaneNum y = p.
Proof.
  intros Hr p. unfold GetMatchValue. split.
  - intros H. destruct (fold_testbit l 0 p H) as [H0|H0]; [|exact H0].
    rewrite Z.bits_0 in H0. discriminate.
  - intros (y & Hy & <-). apply fold_sets; auto.
Qed.

(** C5.  HitSet similarity.  When the assertion on the plane pattern of
    [tryset] holds and the hits of [tryset] lie in planes 0 to 31 (the
    planes for which [1U << plane] is defined), [IsSimilarTo] compares
    the cached plane pattern of [tryset] with the match value of the
    merge-order intersection of the two sets, and it returns true
    exactly when that pattern is the plane occupancy of the
    intersection: bit [p] of the pattern is set if and only if a hit of
    the intersection lies in plane [p].  In particular, when it returns
    true, every plane set in the pattern has a hit of [tryset] with the
    key of a hit of [this]. *)
Theorem IsSimilarTo_spec (this tryset : HitSet.t Hit) :
  plane_pattern tryset <> 0 ->
  (forall y, In y (hits tryset) -> 0 <= GetPlaneNum y < 32) ->
  IsSimilarTo comp GetPlaneNum this tryset
  = Some (plane_pattern tryset
          =? mask (inter (hits this) (hits tryset)))
  /\ (IsSimilarTo comp GetPlaneNum this tryset = Some true
      <-> forall p,
            Z.testbit (plane_pattern tryset) p = true
            <-> exists y, In y (inter (hits this) (hits tryset))
                          /\ GetPlaneNum y = p)
  /\ (IsSimilarTo comp GetPlaneNum this tryset = Some true ->
      forall p, Z.testbit (plane_pattern tryset) p = true ->
        exists y h, In y (hits tryset) /\ In h (hits this)
                    /\ equiv comp h y /\ GetPlaneNum y = p).
Proof.
  intros Hne Hr.
  assert (Hin : forall y, In y (inter (hits this) (hits tryset)) ->
                          0 <= GetPlaneNum y < 32).
  { intros y Hy. apply Hr. now apply inter_common in Hy. }
  pose proof (mask_testbit _ Hin) as Hbits.
  assert (E : IsSimilarTo comp GetPlaneNum this tryset
              = Some (plane_pattern tryset
                      =? mask (inter (hits this) (hits tryset)))).
  { unfold IsSimilarTo.
    destruct (Z.eqb_spec (plane_pattern tryset) 0) as [E0|_];
      [contradiction|].
    now rewrite walk_fold. }
  split; [exact E|]. rewrite E. split.
  - split.
    + intros [= H] p. apply Z.eqb_eq in H. rewrite H. apply Hbits.
    + intros H. f_equal. apply Z.eqb_eq. apply Z.bits_inj'.
      intros n _. apply eq_true_iff_eq.
      rewrite (H n). symmetry. apply Hbits.
  - intros [= H] p Hp. apply Z.eqb_eq in H. rewrite H in Hp.
    apply Hbits in Hp. destruct Hp as (y & Hy & Hpl).
    apply inter_common in Hy. destruct Hy as [Hy (h & Hh & He)].
    exists y, h. auto.
Qed.

End Facts.

End HitSetFacts.

Module ScenarioSets.

Import Scenario.

(** Scenario S6, second part: the hits of [try] lie in planes 2, 3, 4
    and 4, and its pattern 28 has the bits 2, 3 and 4. *)
Lemma IsSimilarTo_spec_witness :
  HitSet.plane_pattern try6 <> 0
  /\ (forall y, In y (HitSet.hits try6) -> 0 <= Hit.fPlaneNum y < 32)
  /\ HitSet.IsSimilarTo comp6 Hit.fPlaneNum this6 try6
     = Some (HitSet.plane_pattern try6
             =? HitSet.GetMatchValue Hit.fPlaneNum
                  (HitSet.merge_intersection comp6
                     (HitSet.hits this6) (HitSet.hits try6)))
  /\ (HitSet.IsSimilarTo comp6 Hit.fPlaneNum this6 try6 = Some true
      <-> forall p,
            Z.testbit (HitSet.plane_pattern try6) p = true
            <-> exists y,
                  In y (HitSet.merge_intersection comp6
                          (HitSet.hits this6) (HitSet.hits try6))
                  /\ Hit.fPlaneNum y = p)
  /\ (HitSet.IsSimilarTo comp6 Hit.fPlaneNum this6 try6 = Some true ->
      forall p, Z.testbit (HitSet.plane_pattern try6) p = true ->
        exists y h, In y (HitSet.hits try6) /\ In h (HitSet.hits this6)
                    /\ HitSet.equiv comp6 h y /\ Hit.fPlaneNum y = p).
Proof.
  assert (H : forall y, In y (HitSet.hits try6) ->
                        0 <= Hit.fPlaneNum y < 32).
  { intros y Hy. cbn in Hy.
    repeat (destruct Hy as [<-|Hy]; [cbn; lia|]). destruct Hy. }
  split; [discriminate|]. split; [exact H|].
  apply (HitSetFacts.IsSimilarTo_spec Hit.t comp6 Hit.fPlaneNum this6 try6);
    [discriminate|exact H].
Defined.

(** Scenario S6, second part: the two sets are similar. *)
Lemma similar_S6 :
  HitSet.IsSimilarTo comp6 Hit.fPlaneNum this6 try6 = Some true.
Proof. vm_compute. reflexivity. Qed.

End ScenarioSets.

(* ===================================================================== *)
(** * ChildIter: the children of a canonical pattern *)

Module ChildIterFacts.

Import GeneratorInv.

Lemma Forall2_imap_rel (R : Z -> Z -> Prop) (l : list Z) :
  forall f : nat -> Z -> Z,
    (forall i x, R x (f i x)) -> Forall2 R l (imap f l).
Proof.
  induction l as [|x l IH]; intros f Hf; cbn; constructor; auto.
  apply IH. intros i y. apply Hf.
Qed.

Lemma raw_doubled (parent : list Z) (count : Z) :
  Forall2 doubled parent (ChildIter.raw parent count).
Proof.
  apply Forall2_imap_rel. intros i x. unfold doubled. cbv zeta.
  rewrite (Z.shiftl_mul_pow2 x 1) by lia. change (2 ^ 1) with 2.
  destruct (Z.land count _ =? 0); lia.
Qed.

Lemma minbit_le (l : list Z) :
  ChildIter.minbit l <= 1 /\ forall x, In x l -> ChildIter.minbit l <= x.
Proof.
  unfold ChildIter.minbit. induction l as [|y l [IH1 IH2]]; cbn.
  - split; [lia|intros x []].
  - split; [lia|]. intros x [->|Hx]; [lia|]. specialize (IH2 x Hx). lia.
Qed.

Lemma minbit_ge (l : list Z) :
  (forall x, In x l -> 0 <= x) -> 0 <= ChildIter.minbit l.
Proof.
  unfold ChildIter.minbit. induction l as [|y l IH]; cbn; intros H; [lia|].
  assert (0 <= y) by (apply H; now left).
  assert (0 <= fold_right Z.min 1 l) by (apply IH; intros; apply H; now right).
  lia.
Qed.

Lemma maxbit_ge (l : list Z) :
  0 <= ChildIter.maxbit l /\ forall x, In x l -> x <= ChildIter.maxbit l.
Proof.
  unfold ChildIter.maxbit. induction l as [|y l [IH1 IH2]]; cbn.
  - split; [lia|intros x []].
  - split; [lia|]. intros x [->|Hx]; [lia|]. specialize (IH2 x Hx). lia.
Qed.

Lemma last_In (l : list Z) (d : Z) : l <> [] -> In (List.last l d) l.
Proof.
  induction l as [|x l IH]; [congruence|]. intros _.
  destruct l as [|y l]; [now left|]. right. apply IH. congruence.
Qed.

Lemma last_map_nonempty (f : Z -> Z) (l : list Z) (d d' : Z) :
  l <> [] -> List.last (map f l) d' = f (List.last l d).
Proof.
  induction l as [|x l IH]; [congruence|]. intros _.
  destruct l as [|y l]; [reflexivity|].
  change (List.last (map f (x :: y :: l)) d') with (List.last (map f (y :: l)) d').
  change (List.last (x :: y :: l) d) with (List.last (y :: l) d).
  apply IH. congruence.
Qed.

(** What the child bins [c] of a canonical parent [p] look like before
    they are shifted and mirrored. *)
Lemma doubled_facts (p c : list Z) :
  canonical p -> Forall2 doubled p c ->
  length c = length p
  /\ c <> []
  /\ (forall x, In x c -> 0 <= x)
  /\ (List.hd 0 c = 0 \/ List.hd 0 c = 1)
  /\ (List.last c 0 = 2 * List.last p 0
      \/ List.last c 0 = 2 * List.last p 0 + 1).
Proof.
  intros [Hhd Hrange] HF.
  assert (Hlen : length c = length p)
    by (symmetry; eapply Forall2_length; eauto).
  split; [exact Hlen|].
  assert (Hne : p <> []) by (destruct p; cbn in Hhd; [lia|congruence]).
  split; [destruct HF; congruence|].
  split.
  { clear Hhd Hne Hlen.
    assert (Hp : forall x, In x p -> 0 <= x) by (intros x Hx; apply Hrange in Hx; lia).
    clear Hrange. induction HF as [|a b p c Hab HF IH]; [intros x []|].
    intros x [<-|Hx].
    - assert (0 <= a) by (apply Hp; now left). destruct Hab; lia.
    - apply IH; auto. intros y Hy. apply Hp. now right. }
  split.
  { destruct HF as [|a b p c Hab HF]; [congruence|]. cbn in *.
    subst a. destruct Hab; lia. }
  clear Hhd Hrange Hlen. induction HF as [|a b p c Hab HF IH]; [congruence|].
  destruct HF as [|a' b' p c Hab' HF].
  - cbn. exact Hab.
  - change (List.last (b :: b' :: c) 0) with (List.last (b' :: c) 0).
    change (List.last (a :: a' :: p) 0) with (List.last (a' :: p) 0).
    apply IH. congruence.
Qed.

(** The selection, the shift and the mirroring of lines 63-78 turn the
    child bins of a canonical parent into a canonical pattern; the tag is
    0, 1 or 2, and it is 2 only below the all-zero pattern. *)
Lemma accepted_canonical (p c : list Z) :
  canonical p -> Forall2 doubled p c ->
  (ChildIter.maxbit c - ChildIter.minbit c >? Z.abs (Pattern.GetWidth c))
  = false ->
  forall ty child1 ty2 child2,
    (if ChildIter.minbit c =? 0 then (0, c)
     else (1, map (fun b => b - 1) c)) = (ty, child1) ->
    (if Pattern.GetWidth c <? 0
     then (ty + 2, map (fun b => - Pattern.GetWidth c - b) child1)
     else (ty, child1)) = (ty2, child2) ->
    canonical child2 /\ length child2 = length p /\ tag_ok p ty2.
Proof.
  intros Hp HF Hacc ty child1 ty2 child2 E1 E2.
  destruct (doubled_facts p c Hp HF) as (Hlen & Hne & Hpos & Hhd & Hlast).
  destruct (minbit_le c) as [Hm1 Hm2].
  pose proof (minbit_ge c Hpos) as Hm0.
  destruct (maxbit_ge c) as [HM0 HM2].
  pose proof (last_In c 0 Hne) as HlastIn.
  assert (HhdIn : In (List.hd 0 c) c) by (destruct c; [congruence|now left]).
  pose proof (Hm2 _ HlastIn). pose proof (HM2 _ HlastIn).
  pose proof (Hm2 _ HhdIn). pose proof (HM2 _ HhdIn).
  pose proof (Hpos _ HlastIn) as Hl0.
  unfold Pattern.GetWidth in *.
  assert (Hhd1 : forall l : list Z, l <> [] -> List.hd 1 l = List.hd 0 l)
    by (intros [|? ?]; [congruence|reflexivity]).
  assert (Hhdmap : forall (f : Z -> Z) (l : list Z), l <> [] ->
             List.hd 0 (map f l) = f (List.hd 0 l))
    by (intros f [|? ?]; [congruence|reflexivity]).
  assert (Hmapne : forall (f : Z -> Z) (l : list Z), l <> [] -> map f l <> [])
    by (intros f [|? ?]; [congruence|discriminate]).
  destruct (Z.ltb_spec (List.last c 0 - List.hd 0 c) 0) as [Hw|Hw].
  - (* mirrored: the last bin is 0 and the first one is 1 *)
    assert (List.last c 0 = 0) as L0 by lia.
    assert (List.hd 0 c = 1) as Hd1 by lia.
    assert (ChildIter.minbit c = 0) as M0 by lia.
    rewrite M0 in E1. cbn in E1. injection E1 as <- <-.
    injection E2 as <- <-.
    rewrite L0, Hd1 in *. cbn [Z.sub Z.opp Z.abs Z.add Z.pos_sub] in *.
    assert (ChildIter.maxbit c <= 1) by lia.
    split; [|split].
    + split.
      * rewrite Hhd1 by (apply Hmapne; auto). rewrite Hhdmap by auto. lia.
      * rewrite (last_map_nonempty _ c 0 0) by auto. rewrite L0.
        intros x Hx. apply in_map_iff in Hx. destruct Hx as (y & <- & Hy).
        pose proof (HM2 _ Hy). pose proof (Hpos _ Hy). lia.
    + rewrite length_map. exact Hlen.
    + split; [auto|]. intros _ x Hx.
      destruct Hp as [_ Hr]. specialize (Hr x Hx). lia.
  - (* not mirrored *)
    injection E2 as <- <-.
    rewrite Z.gtb_ltb in Hacc. apply Z.ltb_ge in Hacc.
    rewrite Z.abs_eq in Hacc by lia.
    assert (Hbetween : forall x, In x c -> List.hd 0 c <= x <= List.last c 0).
    { intros x Hx. pose proof (Hm2 _ Hx). pose proof (HM2 _ Hx). lia. }
    assert (Hmin : ChildIter.minbit c = List.hd 0 c) by lia.
    destruct (Z.eqb_spec (ChildIter.minbit c) 0) as [M0|M0];
      injection E1 as <- <-.
    + split; [|split].
      * split; [rewrite Hhd1 by auto; lia|].
        intros x Hx. specialize (Hbetween x Hx). lia.
      * exact Hlen.
      * split; [auto|]. intros H'. now contradiction H'.
    + split; [|split].
      * split.
        -- rewrite Hhd1 by (apply Hmapne; auto). rewrite Hhdmap by auto. lia.
        -- rewrite (last_map_nonempty _ c 0 0) by auto.
           intros x Hx. apply in_map_iff in Hx. destruct Hx as (y & <- & Hy).
           specialize (Hbetween y Hy). lia.
      * rewrite length_map. exact Hlen.
      * split; [auto|]. intros H'. now contradiction H'.
Qed.


Lemma scan_iter_ok (n k : nat) :
  forall it : ChildIter.t,
    canonical (ChildIter.fParent it) ->
    length (ChildIter.fParent it) = n ->
    ChildIter.fParent (ChildIter.scan k it) = ChildIter.fParent it
    /\ -1 <= ChildIter.fCount (ChildIter.scan k it) < Z.of_nat k
    /\ (0 <= ChildIter.fCount (ChildIter.scan k it) ->
        canonical (ChildIter.fChild (ChildIter.scan k it))
        /\ length (ChildIter.fChild (ChildIter.scan k it)) = n
        /\ tag_ok (ChildIter.fParent it)
                  (ChildIter.fType (ChildIter.scan k it))).
Proof.
  induction k as [|k IH]; intros it Hc Hl; cbn [ChildIter.scan].
  - cbn. repeat split; try lia.
  - set (c := ChildIter.raw (ChildIter.fParent it) (Z.of_nat k)).
    destruct (ChildIter.maxbit c - ChildIter.minbit c
              >? Z.abs (Pattern.GetWidth c)) eqn:Hacc.
    + destruct (IH {| ChildIter.fParent := ChildIter.fParent it;
                      ChildIter.fChild := c;
                      ChildIter.fCount := Z.of_nat k;
                      ChildIter.fType := ChildIter.fType it |} Hc Hl)
        as (H1 & H2 & H3).
      cbn in H1, H3. split; [exact H1|]. split; [lia|exact H3].
    + destruct (if ChildIter.minbit c =? 0 then (0, c)
                else (1, map (fun b => b - 1) c)) as [ty child1] eqn:E1.
      destruct (if Pattern.GetWidth c <? 0
                then (ty + 2, map (fun b => - Pattern.GetWidth c - b) child1)
                else (ty, child1)) as [ty2 child2] eqn:E2.
      cbn. split; [reflexivity|]. split; [lia|]. intros _.
      rewrite <- Hl.
      exact (accepted_canonical _ c Hc (raw_doubled _ _) Hacc _ _ _ _ E1 E2).
Qed.

Lemma incr_ok (n : nat) (it : ChildIter.t) :
  iter_ok n it ->
  iter_ok n (ChildIter.incr it)
  /\ ChildIter.fParent (ChildIter.incr it) = ChildIter.fParent it
  /\ (0 <= ChildIter.fCount it ->
      ChildIter.fCount (ChildIter.incr it) < ChildIter.fCount it).
Proof.
  intros (Hc & Hl & Hcnt & _). unfold ChildIter.incr.
  destruct (Z.gtb_spec (ChildIter.fCount it) 0) as [Hpos|Hpos].
  - destruct (scan_iter_ok n (Z.to_nat (ChildIter.fCount it)) it Hc Hl)
      as (H1 & H2 & H3).
    split; [|split; [exact H1|lia]].
    unfold iter_ok. rewrite H1.
    split; [exact Hc|]. split; [exact Hl|]. split; [lia|exact H3].
  - cbn. split; [|split; [reflexivity|lia]].
    unfold iter_ok; cbn.
    split; [exact Hc|]. split; [exact Hl|]. split; [lia|lia].
Qed.

Lemma make_ok (n : nat) (p : list Z) :
  canonical p -> length p = n ->
  iter_ok n (ChildIter.make p)
  /\ ChildIter.fParent (ChildIter.make p) = p
  /\ ChildIter.fCount (ChildIter.make p) < 2 ^ Z.of_nat n.
Proof.
  intros Hc Hl. unfold ChildIter.make, ChildIter.incr. cbn [ChildIter.fCount].
  unfold Pattern.GetNbits. rewrite Hl, Z.shiftl_1_l.
  assert (0 < 2 ^ Z.of_nat n) by (apply Z.pow_pos_nonneg; lia).
  destruct (Z.gtb_spec (2 ^ Z.of_nat n) 0) as [_|?]; [|lia].
  match goal with
  | |- context [ChildIter.scan ?k ?i] =>
      destruct (scan_iter_ok n k i Hc Hl) as (H1 & H2 & H3)
  end.
  cbn [ChildIter.fParent] in H1, H3.
  split; [|split; [exact H1|lia]].
  unfold iter_ok. rewrite H1.
  split; [exact Hc|]. split; [exact Hl|]. split; [lia|exact H3].
Qed.

End ChildIterFacts.

(* ===================================================================== *)
(** * The build keeps the generator well formed *)

Module GeneratorFacts.

Import Pattern PatternGenerator GeneratorInv ChildIterFacts.

Lemma bind_Ok {A B : Type} (m : res A) (k : A -> res B) (a : A) :
  m = Ok a -> bind m k = k a.
Proof. intros ->. reflexivity. Qed.

Lemma map_lookup {A B : Type} (f : A -> B) (l : list A) (i : nat) :
  map f l !! i = option_map f (l !! i).
Proof.
  revert i. induction l as [|x l IH]; intros [|i]; cbn; auto.
Qed.

Lemma map_insert_same {A B : Type} (f : A -> B) (l : list A) (i : nat)
      (x y : A) :
  l !! i = Some x -> f y = f x -> map f (<[i := y]> l) = map f l.
Proof.
  revert i. induction l as [|z l IH]; intros [|i]; cbn; try discriminate.
  - intros [= ->] ->. reflexivity.
  - intros H1 H2. f_equal. now apply IH.
Qed.

Lemma deref_Some (g : t) (p : nat) (pat : Pattern.t) :
  heap g !! p = Some pat -> deref g p = Ok pat.
Proof. unfold deref. now intros ->. Qed.

Lemma deref_lt (g : t) (p : nat) :
  (p < length (heap g))%nat ->
  exists pat, heap g !! p = Some pat /\ deref g p = Ok pat.
Proof.
  intros H. destruct (lookup_lt_is_Some_2 _ _ H) as [pat Hp].
  exists pat. split; [exact Hp|now apply deref_Some].
Qed.

Lemma update_Some (g : t) (p : nat) (f : Pattern.t -> Pattern.t)
      (pat : Pattern.t) :
  heap g !! p = Some pat ->
  update p f g = Ok (set_heap (<[p := f pat]> (heap g)) g).
Proof. unfold update. now intros ->. Qed.

Lemma ext_refl (g : t) : ext g g.
Proof.
  unfold ext. repeat split; auto. exists []. now rewrite app_nil_r.
Qed.

Lemma ext_trans (g1 g2 g3 : t) : ext g1 g2 -> ext g2 g3 -> ext g1 g3.
Proof.
  intros (A1 & A2 & A3 & A4 & A5 & m1 & A6) (B1 & B2 & B3 & B4 & B5 & m2 & B6).
  unfold ext. repeat split; try congruence.
  exists (m1 ++ m2). rewrite B6, A6. now rewrite app_assoc.
Qed.

Lemma ext_length (g g' : t) :
  ext g g' -> (length (heap g) <= length (heap g'))%nat.
Proof.
  intros (_ & _ & _ & _ & _ & m & H).
  apply (f_equal (@length _)) in H.
  rewrite length_app, !length_map in H. lia.
Qed.

Lemma ext_lookup (g g' : t) (a : nat) (pa : Pattern.t) :
  ext g g' -> heap g !! a = Some pa ->
  exists pa', heap g' !! a = Some pa' /\ fBits pa' = fBits pa.
Proof.
  intros E H. pose proof (ext_length _ _ E) as L.
  pose proof (lookup_lt_Some _ _ _ H) as La.
  destruct (lookup_lt_is_Some_2 (heap g') a ltac:(lia)) as [pa' Hp'].
  exists pa'. split; [exact Hp'|].
  destruct E as (_ & _ & _ & _ & _ & m & Hm).
  assert (map fBits (heap g') !! a = Some (fBits pa')) as H1
      by (rewrite map_lookup, Hp'; reflexivity).
  rewrite Hm, lookup_app_l in H1 by (rewrite length_map; lia).
  rewrite map_lookup, H in H1. cbn in H1. congruence.
Qed.

Section Facts.

Variable Hash : list Z -> Z.
Variable mindepth0 : Z.
Variable n : nat.

Local Abbreviation Inv := (GeneratorInv.Inv Hash n).
Local Abbreviation Find := (PatternGenerator.Find Hash).
Local Abbreviation AddHash := (PatternGenerator.AddHash Hash).
Local Abbreviation consider := (PatternGenerator.consider Hash mindepth0).
Local Abbreviation candidates := (PatternGenerator.candidates Hash mindepth0).
Local Abbreviation MakeChildNodes :=
  (PatternGenerator.MakeChildNodes Hash mindepth0).

Lemma bucket_lt (size : Z) (bits : list Z) :
  0 < size -> (bucket Hash size bits < Z.to_nat size)%nat.
Proof.
  intros H. unfold bucket.
  pose proof (Z.mod_pos_bound (wrap32 (Hash bits)) size H). lia.
Qed.

(** The chain walk finds the pattern with the given bins if the chain
    has one. *)
Lemma find_chain_spec (g : t) (bits : list Z) (chain : list Link) :
  (forall ln, In ln chain -> (GetPattern ln < length (heap g))%nat) ->
  exists r,
    find_chain g bits chain = Ok r
    /\ match r with
       | Some a => exists pa, heap g !! a = Some pa /\ fBits pa = bits
       | None => forall a pa, In a (map GetPattern chain) ->
                              heap g !! a = Some pa -> fBits pa <> bits
       end.
Proof.
  induction chain as [|ln chain IH]; intros Hptr; cbn [find_chain].
  - exists None. split; [reflexivity|]. intros a pa [].
  - destruct (deref_lt g (GetPattern ln)) as (rhs & Hrhs & ->);
      [apply Hptr; now left|].
    cbn [bind]. destruct (bool_decide (bits = fBits rhs)) eqn:E.
    + apply bool_decide_eq_true in E.
      exists (Some (GetPattern ln)). split; [reflexivity|].
      exists rhs. split; [exact Hrhs|now symmetry].
    + apply bool_decide_eq_false in E.
      destruct IH as (r & Hr & Hspec); [intros; apply Hptr; now right|].
      exists r. split; [exact Hr|]. destruct r as [a|]; [exact Hspec|].
      intros a pa [<-|Ha] Hpa; [congruence|eapply Hspec; eauto].
Qed.

(** [Find] returns the one stored pattern with the given bins, or null
    when no stored pattern has them. *)
Lemma Find_spec (g : t) (bits : list Z) :
  Inv g ->
  exists r,
    Find bits g = Ok r
    /\ match r with
       | Some a => exists pa, heap g !! a = Some pa /\ fBits pa = bits
       | None => ~ In bits (map fBits (heap g))
       end.
Proof.
  intros I. unfold PatternGenerator.Find.
  pose proof (inv_table _ _ _ I) as Hlen.
  destruct (Z.eqb_spec (Z.of_nat (length (fHashTable g))) 0) as [?|_]; [lia|].
  pose proof (bucket_lt (Z.of_nat (length (fHashTable g))) bits ltac:(lia))
    as Hb. rewrite Nat2Z.id in Hb.
  destruct (lookup_lt_is_Some_2 _ _ Hb) as [chain Hchain].
  rewrite Hchain.
  destruct (find_chain_spec g bits chain) as (r & Hr & Hspec).
  { intros ln Hln. eapply (inv_table_ptr _ _ _ I); eauto. }
  exists r. split; [exact Hr|]. destruct r as [a|]; [exact Hspec|].
  intros Hin. apply in_map_iff in Hin. destruct Hin as (pa & Hbits & Hpa).
  apply list_elem_of_In, list_elem_of_lookup in Hpa.
  destruct Hpa as [a Ha].
  destruct (inv_table_all _ _ _ I a pa Ha) as (chain' & Hc' & Hin').
  rewrite Hbits, Hchain in Hc'. injection Hc' as <-.
  exact (Hspec a pa Hin' Ha Hbits).
Qed.


Lemma lookup_set (h : list Pattern.t) (p a : nat) (x pa : Pattern.t) :
  <[p := x]> h !! a = Some pa ->
  (a = p /\ pa = x /\ (p < length h)%nat) \/ (h !! a = Some pa).
Proof.
  rewrite list_lookup_insert. destruct (decide _) as [[-> H]|_].
  - intros [= <-]. now left.
  - now right.
Qed.

(** Rewriting one pattern in place, its bins kept and its child list
    extended by well-formed links, keeps the generator well formed. *)
Lemma Inv_update (g : t) (p : nat) (pat newpat : Pattern.t) :
  Inv g ->
  heap g !! p = Some pat ->
  fBits newpat = fBits pat ->
  (forall ln, In ln (fChild newpat) ->
              In ln (fChild pat)
              \/ ((GetPattern ln < length (heap g))%nat
                  /\ tag_ok (fBits pat) (Type_ ln))) ->
  Inv (set_heap (<[p := newpat]> (heap g)) g)
  /\ ext g (set_heap (<[p := newpat]> (heap g)) g).
Proof.
  intros I Hp Hbits Hch.
  assert (Hmap : map fBits (<[p := newpat]> (heap g)) = map fBits (heap g))
    by (eapply map_insert_same; eauto).
  split.
  - constructor; cbn [set_heap fNplanes fHashTable heap].
    + apply I.
    + apply I.
    + intros k chain ln H1 H2. rewrite length_insert.
      eapply (inv_table_ptr _ _ _ I); eauto.
    + intros a pa Ha. apply lookup_set in Ha.
      destruct Ha as [(-> & -> & _)|Ha].
      * rewrite Hbits. eapply (inv_table_all _ _ _ I); eauto.
      * eapply (inv_table_all _ _ _ I); eauto.
    + rewrite Hmap. apply I.
    + intros a pa ln Ha Hln. rewrite length_insert.
      apply lookup_set in Ha. destruct Ha as [(-> & -> & _)|Ha].
      * destruct (Hch ln Hln) as [Hold|[Hnew _]]; [|exact Hnew].
        eapply (inv_child_ptr _ _ _ I); eauto.
      * eapply (inv_child_ptr _ _ _ I); eauto.
    + intros a pa Ha. apply lookup_set in Ha.
      destruct Ha as [(-> & -> & _)|Ha].
      * rewrite Hbits. eapply (inv_canonical _ _ _ I); eauto.
      * eapply (inv_canonical _ _ _ I); eauto.
    + intros a pa ln Ha Hln. apply lookup_set in Ha.
      destruct Ha as [(-> & -> & _)|Ha].
      * rewrite Hbits. destruct (Hch ln Hln) as [Hold|[_ Hnew]]; [|exact Hnew].
        eapply (inv_links _ _ _ I); eauto.
      * eapply (inv_links _ _ _ I); eauto.
  - unfold ext; cbn [set_heap fNlevels fNplanes fMaxSlope fZ fHashTable heap].
    repeat split; auto. exists []. now rewrite Hmap, app_nil_r.
Qed.

Lemma UsedAtDepth_ok (g : t) (p : nat) (d : Z) :
  Inv g -> (p < length (heap g))%nat ->
  exists g', update p (UsedAtDepth d) g = Ok g' /\ Inv g' /\ ext g g'.
Proof.
  intros I Hp. destruct (deref_lt g p Hp) as (pat & Hpat & _).
  rewrite (update_Some _ _ _ _ Hpat). eexists. split; [reflexivity|].
  apply (Inv_update g p pat); auto.
Qed.

Lemma AddChild_ok (g : t) (p child : nat) (type : Z) (pat : Pattern.t) :
  Inv g -> heap g !! p = Some pat ->
  (child < length (heap g))%nat -> tag_ok (fBits pat) type ->
  exists g', update p (AddChild child type) g = Ok g' /\ Inv g' /\ ext g g'.
Proof.
  intros I Hpat Hc Ht.
  rewrite (update_Some _ _ _ _ Hpat). eexists. split; [reflexivity|].
  apply (Inv_update g p pat); auto. intros ln [<-|Hln]; [right|now left].
  cbn. auto.
Qed.

(** Storing a new canonical pattern whose bins no stored pattern has
    keeps the generator well formed. *)
Lemma alloc_ok (g : t) (bits : list Z) :
  Inv g ->
  ~ In bits (map fBits (heap g)) ->
  canonical bits -> length bits = n ->
  exists g',
    AddHash (length (heap g)) (snd (new_Pattern mindepth0 bits g)) = Ok g'
    /\ Inv g' /\ ext g g'
    /\ length (heap g') = S (length (heap g)).
Proof.
  intros I Hnew Hcan Hlen. unfold new_Pattern, PatternGenerator.AddHash.
  cbn [snd set_heap fHashTable fNlevels heap].
  pose proof (inv_table _ _ _ I) as Htl.
  destruct (Nat.eqb_spec (length (fHashTable g)) 0) as [?|_]; [lia|].
  destruct (Z.eqb_spec (Z.of_nat (length (fHashTable g))) 0) as [?|_]; [lia|].
  set (pat := {| fBits := bits; fChild := []; fMinDepth := mindepth0 |}).
  assert (Hd : deref (set_heap (heap g ++ [pat]) g) (length (heap g)) = Ok pat).
  { apply deref_Some. cbn. apply list_lookup_middle. reflexivity. }
  unfold deref in Hd. cbn [set_heap heap] in Hd.
  unfold deref. cbn [set_heap heap]. 
  destruct ((heap g ++ [pat]) !! length (heap g)) as [pat'|]; [|discriminate].
  injection Hd as ->. cbn [bind fBits pat].
  set (size := Z.of_nat (length (fHashTable g))).
  pose proof (bucket_lt size bits ltac:(lia)) as Hb.
  unfold size in Hb at 2. rewrite Nat2Z.id in Hb.
  eexists. split; [reflexivity|].
  assert (Hlk : forall a pa, (heap g ++ [pat]) !! a = Some pa ->
            heap g !! a = Some pa \/ (a = length (heap g) /\ pa = pat)).
  { intros a pa Ha. apply lookup_app_Some in Ha.
    destruct Ha as [Ha|[Hge Ha]]; [now left|right].
    destruct (a - length (heap g))%nat as [|k] eqn:Ek; cbn in Ha;
      [|discriminate].
    injection Ha as <-. split; [lia|reflexivity]. }
  split; [|split].
  - constructor; cbn [set_table set_heap fNplanes fHashTable heap].
    + apply I.
    + rewrite length_alter. exact Htl.
    + intros k chain ln Hk Hln. rewrite length_app. cbn [length].
      rewrite list_lookup_alter in Hk. destruct (decide _) as [<-|_].
      * destruct (fHashTable g !! bucket Hash size bits) as [c0|] eqn:E0;
          [|discriminate]. cbn in Hk. injection Hk as <-.
        destruct Hln as [<-|Hln]; [cbn; lia|].
        pose proof (inv_table_ptr _ _ _ I _ _ _ E0 Hln). lia.
      * pose proof (inv_table_ptr _ _ _ I _ _ _ Hk Hln). lia.
    + intros a pa Ha. rewrite length_alter. fold size.
      rewrite list_lookup_alter.
      apply Hlk in Ha. destruct Ha as [Ha|[-> ->]].
      * destruct (inv_table_all _ _ _ I a pa Ha) as (chain & Hc & Hin).
        fold size in Hc.
        destruct (decide _) as [Heq|_].
        -- rewrite Heq in *. rewrite Hc. cbn. eexists. split; [reflexivity|].
           now right.
        -- exists chain. split; [exact Hc|exact Hin].
      * cbn [fBits pat]. destruct (decide _) as [_|?]; [|congruence].
        destruct (lookup_lt_is_Some_2 _ _ Hb) as [c0 Hc0].
        rewrite Hc0. cbn. eexists. split; [reflexivity|]. now left.
    + rewrite map_app. cbn [map fBits pat].
      apply NoDup_app. split; [apply I|]. split.
      * intros x Hx [->|[]]%list_elem_of_In. apply Hnew.
        now apply list_elem_of_In.
      * apply NoDup_singleton.
    + intros a pa ln Ha Hln. rewrite length_app. cbn [length].
      apply Hlk in Ha. destruct Ha as [Ha|[-> ->]]; [|destruct Hln].
      pose proof (inv_child_ptr _ _ _ I _ _ _ Ha Hln). lia.
    + intros a pa Ha. apply Hlk in Ha. destruct Ha as [Ha|[-> ->]].
      * eapply (inv_canonical _ _ _ I); eauto.
      * cbn. auto.
    + intros a pa ln Ha Hln.
      apply Hlk in Ha. destruct Ha as [Ha|[-> ->]]; [|destruct Hln].
      eapply (inv_links _ _ _ I); eauto.
  - unfold ext;
      cbn [set_table set_heap fNlevels fNplanes fMaxSlope fZ fHashTable heap].
    repeat split; auto; [apply length_alter|].
    exists [bits]. now rewrite map_app.
  - cbn [set_table set_heap heap]. rewrite length_app. cbn. lia.
Qed.


Lemma LineCheck_ok (g : t) (bits : list Z) :
  Inv g -> exists b, LineCheck g bits = Ok b.
Proof.
  intros I. unfold LineCheck. destruct (inv_planes _ _ _ I) as [-> Hn].
  destruct (Z.eqb_spec (Z.of_nat n) 0) as [?|_]; [lia|]. eexists. reflexivity.
Qed.

(** One candidate: the parent gets a link to the stored pattern with the
    bins of the candidate, to a new stored pattern with these bins, or
    no link. *)
Lemma consider_ok (g : t) (parent : nat) (depth : Z) (child : list Z)
      (type : Z) (pp : Pattern.t) :
  Inv g -> heap g !! parent = Some pp ->
  canonical child -> length child = n -> tag_ok (fBits pp) type ->
  exists g', consider g parent depth child type = Ok g' /\ Inv g' /\ ext g g'.
Proof.
  intros I Hpp Hcan Hlen Htag. unfold PatternGenerator.consider.
  destruct (Find_spec g child I) as (r & -> & Hr). cbn [bind].
  destruct r as [a|].
  - destruct Hr as (pa & Hpa & Hbits).
    rewrite (deref_Some _ _ _ Hpa). cbn [bind].
    destruct (_ || _).
    + eapply AddChild_ok; eauto. eapply lookup_lt_Some; eauto.
    + exists g. split; [reflexivity|]. split; [exact I|apply ext_refl].
  - destruct (TestSlope g child depth).
    2:{ exists g. split; [reflexivity|]. split; [exact I|apply ext_refl]. }
    destruct (LineCheck_ok g child I) as (b & ->). cbn [bind].
    destruct b.
    2:{ exists g. split; [reflexivity|]. split; [exact I|apply ext_refl]. }
    destruct (alloc_ok g child I Hr Hcan Hlen) as (g2 & E2 & I2 & X2 & L2).
    unfold new_Pattern in *. cbn [snd] in E2. rewrite E2. cbn [bind].
    destruct (ext_lookup _ _ _ _ X2 Hpp) as (pp' & Hpp' & Hb').
    destruct (AddChild_ok g2 parent (length (heap g)) type pp' I2 Hpp')
      as (g3 & E3 & I3 & X3); [lia|now rewrite Hb'|].
    exists g3. split; [exact E3|]. split; [exact I3|].
    eapply ext_trans; eauto.
Qed.

(** The loop over the candidates of one parent ends and keeps the
    generator well formed. *)
Lemma candidates_ok (parent : nat) (depth : Z) (fuel : nat) :
  forall (it : ChildIter.t) (g : t) (pp : Pattern.t),
    Inv g -> heap g !! parent = Some pp ->
    ChildIter.fParent it = fBits pp -> iter_ok n it ->
    (Z.to_nat (ChildIter.fCount it + 1) <= fuel)%nat ->
    exists g', candidates fuel g parent depth it = Ok g'
               /\ Inv g' /\ ext g g'.
Proof.
  induction fuel as [|k IH]; intros it g pp I Hpp Hpar Hit Hfuel.
  - cbn [PatternGenerator.candidates]. unfold ChildIter.valid.
    destruct (Z.geb_spec (ChildIter.fCount it) 0) as [?|_]; [lia|].
    exists g. split; [reflexivity|]. split; [exact I|apply ext_refl].
  - cbn [PatternGenerator.candidates]. unfold ChildIter.valid.
    destruct (Z.geb_spec (ChildIter.fCount it) 0) as [Hv|_].
    2:{ exists g. split; [reflexivity|]. split; [exact I|apply ext_refl]. }
    destruct Hit as (Hc & Hl & Hcnt & Hgood).
    destruct (Hgood ltac:(lia)) as (Hcc & Hcl & Htag).
    rewrite Hpar in Htag.
    destruct (consider_ok g parent depth _ _ pp I Hpp Hcc Hcl Htag)
      as (g1 & -> & I1 & X1). cbn [bind].
    destruct (ext_lookup _ _ _ _ X1 Hpp) as (pp1 & Hpp1 & Hb1).
    destruct (incr_ok n it) as (Hit' & Hpar' & Hdec);
      [unfold iter_ok; auto|].
    specialize (Hdec ltac:(lia)).
    destruct (IH (ChildIter.incr it) g1 pp1 I1 Hpp1) as (g2 & E2 & I2 & X2);
      [congruence|exact Hit'|lia|].
    exists g2. split; [exact E2|]. split; [exact I2|].
    eapply ext_trans; eauto.
Qed.

(** The loop over the child list ends and keeps the generator well
    formed when the recursive calls do. *)
Lemma descend_ok (recurse : t -> nat -> Z -> res t) (depth L : Z) :
  (forall g p, Inv g -> fNlevels g = L -> (p < length (heap g))%nat ->
               exists g', recurse g p (depth + 1) = Ok g'
                          /\ Inv g' /\ ext g g') ->
  forall (ln : list Link) (g : t),
    Inv g -> fNlevels g = L ->
    (forall l, In l ln -> (GetPattern l < length (heap g))%nat) ->
    exists g', descend recurse depth ln g = Ok g' /\ Inv g' /\ ext g g'.
Proof.
  intros Hrec. induction ln as [|l next IH]; intros g I HL Hptr;
    cbn [descend].
  - exists g. split; [reflexivity|]. split; [exact I|apply ext_refl].
  - destruct (deref_lt g (GetPattern l)) as (node & Hnode & ->);
      [apply Hptr; now left|]. cbn [bind].
    assert (exists g1,
               match fChild node with
               | [] => recurse g (GetPattern l) (depth + 1)
               | _ :: _ =>
                   if fMinDepth node >? depth
                   then recurse g (GetPattern l) (depth + 1)
                   else Ok g
               end = Ok g1 /\ Inv g1 /\ ext g g1) as (g1 & -> & I1 & X1).
    { assert (Hr := Hrec g (GetPattern l) I HL
                      ltac:(apply Hptr; now left)).
      destruct (fChild node); [exact Hr|].
      destruct (fMinDepth node >? depth); [exact Hr|].
      exists g. split; [reflexivity|]. split; [exact I|apply ext_refl]. }
    cbn [bind].
    destruct (IH g1 I1) as (g2 & E2 & I2 & X2).
    + destruct X1 as (-> & _). exact HL.
    + intros l' Hl'. pose proof (ext_length _ _ X1).
      specialize (Hptr l' ltac:(now right)). lia.
    + exists g2. split; [exact E2|]. split; [exact I2|].
      eapply ext_trans; eauto.
Qed.

(** [MakeChildNodes] returns, and keeps the generator well formed, when
    the fuel covers the candidates of one parent and the levels left. *)
Lemma MakeChildNodes_ok (fuel : nat) :
  forall (g : t) (parent : nat) (depth : Z),
    Inv g -> (parent < length (heap g))%nat ->
    enough n g depth fuel ->
    exists g', MakeChildNodes fuel g parent depth = Ok g'
               /\ Inv g' /\ ext g g'.
Proof.
  induction fuel as [|k IH]; intros g parent depth I Hp Hfuel.
  - unfold enough in Hfuel. lia.
  - cbn [PatternGenerator.MakeChildNodes].
    assert (exists g1,
               (if depth >? 0
                then update parent (UsedAtDepth (depth - 1)) g
                else Ok g) = Ok g1 /\ Inv g1 /\ ext g g1)
      as (g1 & -> & I1 & X1).
    { destruct (depth >? 0); [now apply UsedAtDepth_ok|].
      exists g. split; [reflexivity|]. split; [exact I|apply ext_refl]. }
    cbn [bind].
    assert (HL1 : fNlevels g1 = fNlevels g) by apply X1.
    destruct (Z.geb_spec depth (fNlevels g1)) as [Hbase|Hdeep].
    { exists g1. auto. }
    pose proof (ext_length _ _ X1) as Hlen1.
    destruct (deref_lt g1 parent ltac:(lia)) as (par & Hpar & ->).
    cbn [bind].
    assert (0 < 2 ^ Z.of_nat n) as Hpow by (apply Z.pow_pos_nonneg; lia).
    assert (exists g2,
               match fChild par with
               | [] => candidates (S k) g1 parent depth
                         (ChildIter.make (fBits par))
               | _ :: _ => Ok g1
               end = Ok g2 /\ Inv g2 /\ ext g1 g2)
      as (g2 & -> & I2 & X2).
    { destruct (fChild par).
      - destruct (inv_canonical _ _ _ I1 _ _ Hpar) as [Hcan Hl].
        destruct (make_ok n _ Hcan Hl) as (Hit & Hparent & Hcount).
        eapply candidates_ok; eauto.
        unfold enough in Hfuel. lia.
      - exists g1. split; [reflexivity|]. split; [exact I1|apply ext_refl]. }
    cbn [bind].
    pose proof (ext_length _ _ X2) as Hlen2.
    destruct (deref_lt g2 parent ltac:(lia)) as (par2 & Hpar2 & ->).
    cbn [bind].
    assert (HL2 : fNlevels g2 = fNlevels g) by (destruct X2; congruence).
    destruct (descend_ok (MakeChildNodes k) depth (fNlevels g))
      with (ln := fChild par2) (g := g2) as (g3 & E3 & I3 & X3); auto.
    + intros g' p I' HL' Hp'. apply IH; auto.
      unfold enough in *. rewrite HL'. lia.
    + intros l Hl. eapply (inv_child_ptr _ _ _ I2); eauto.
    + exists g3. split; [exact E3|]. split; [exact I3|].
      eapply ext_trans; [|exact X3]. eapply ext_trans; eauto.
Qed.


Lemma replicate_zero_canonical :
  (0 < n)%nat -> canonical (replicate n 0) /\ all_zero (replicate n 0).
Proof.
  intros Hn.
  assert (Hall : forall x, In x (replicate n 0) -> x = 0).
  { intros x Hx. apply list_elem_of_In, elem_of_replicate in Hx. tauto. }
  split; [|exact Hall]. split.
  - destruct n; [lia|reflexivity].
  - intros x Hx. rewrite (Hall x Hx).
    assert (replicate n 0 <> []) by (destruct n; [lia|discriminate]).
    rewrite (Hall _ (last_In _ 0 H)). lia.
Qed.

(** The root in the empty generator. *)
Lemma root_ok (L : Z) (slope : Q) (z : list Q) :
  (0 < n)%nat -> 1 <= L ->
  let g0 := {| fNlevels := L; fNplanes := Z.of_nat n; fMaxSlope := slope;
               fZ := z; fHashTable := []; heap := [] |} in
  exists g', AddHash 0%nat (snd (new_Pattern mindepth0 (replicate n 0) g0))
             = Ok g'
             /\ Inv g' /\ fNlevels g' = L
             /\ map fBits (heap g') = [replicate n 0].
Proof.
  intros Hn HL g0. unfold new_Pattern, PatternGenerator.AddHash.
  cbn [snd set_heap g0 fHashTable fNlevels heap length Nat.eqb app].
  rewrite length_replicate, Z.shiftl_1_l.
  assert (0 < 2 ^ (L - 1)) as Hpow by (apply Z.pow_pos_nonneg; lia).
  rewrite Z2Nat.id by lia.
  destruct (Z.eqb_spec (2 ^ (L - 1)) 0) as [?|_]; [lia|].
  unfold deref. cbn [set_heap heap lookup list_lookup bind fBits].
  set (size := 2 ^ (L - 1)) in *.
  pose proof (bucket_lt size (replicate n 0) Hpow) as Hb.
  eexists. split; [reflexivity|].
  destruct replicate_zero_canonical as [Hcan _]; [exact Hn|].
  split; [|split; reflexivity].
  constructor;
    cbn [set_table set_heap fNplanes fNlevels fHashTable heap length map].
  - auto.
  - rewrite length_alter, length_replicate. lia.
  - intros k chain ln Hk Hln. rewrite list_lookup_alter in Hk.
    destruct (decide _) as [<-|_].
    + rewrite lookup_replicate_2 in Hk by exact Hb. cbn in Hk.
      injection Hk as <-. destruct Hln as [<-|[]]. cbn. lia.
    + apply lookup_replicate in Hk. destruct Hk as [-> _]. destruct Hln.
  - intros [|a] pa Ha; cbn in Ha; [|discriminate]. injection Ha as <-.
    cbn [fBits]. rewrite length_alter, length_replicate.
    rewrite Z2Nat.id by lia. rewrite list_lookup_alter_eq.
    rewrite lookup_replicate_2 by exact Hb. cbn.
    eexists. split; [reflexivity|]. now left.
  - apply NoDup_singleton.
  - intros [|a] pa ln Ha; cbn in Ha; [|discriminate]. injection Ha as <-.
    intros [].
  - intros [|a] pa Ha; cbn in Ha; [|discriminate]. injection Ha as <-.
    cbn [fBits]. split; [exact Hcan|apply length_replicate].
  - intros [|a] pa ln Ha; cbn in Ha; [|discriminate]. injection Ha as <-.
    intros [].
Qed.

End Facts.

Lemma valid_facts (p : PatternTree.TreeParam_t) :
  PatternTree.valid p = true ->
  (2 <= length (PatternTree.zpos p))%nat /\ 1 <= PatternTree.maxdepth p.
Proof.
  unfold PatternTree.valid. intros H.
  apply andb_prop in H. destruct H as [H H4].
  apply andb_prop in H. destruct H as [H H3].
  apply andb_prop in H. destruct H as [H1 H2].
  apply Nat.leb_le in H1. apply Z.leb_le in H4. auto.
Qed.

(** The result of [Generate] on an empty generator: with fuel for the
    candidates of one parent and for the levels, the build returns a tree
    and leaves the generator well formed, with the root at index 0. *)
Lemma Generate_ok (Hash : list Z -> Z) (mindepth0 : Z)
      (p : PatternTree.TreeParam_t) (fuel : nat) :
  PatternTree.valid p = true ->
  (Z.to_nat (2 ^ Z.of_nat (length (PatternTree.zpos p)))
   + Z.to_nat (PatternTree.maxdepth p) + 1 <= fuel)%nat ->
  exists g tree,
    Generate Hash mindepth0 fuel ctor p = Ok (g, Some tree)
    /\ Inv Hash (length (PatternTree.zpos p)) g
    /\ exists root : Pattern.t,
         heap g !! 0%nat = Some root
         /\ fBits root = replicate (length (PatternTree.zpos p)) 0.
Proof.
  intros Hv Hfuel. destruct (valid_facts p Hv) as [Hn Hd].
  unfold Generate, PatternTree.Normalize. rewrite Hv.
  cbn [PatternTree.maxdepth PatternTree.zpos PatternTree.maxslope
       fNplanes ctor fHashTable heap].
  rewrite length_map, Nat2Z.id.
  set (n := length (PatternTree.zpos p)) in *.
  destruct (root_ok Hash mindepth0 n (PatternTree.maxdepth p + 1)
              (PatternTree.maxslope p)
              (map (fun z => ((z - List.hd 0%Q (PatternTree.zpos p))
                              / (List.last (PatternTree.zpos p) 0%Q
                                 - List.hd 0%Q (PatternTree.zpos p)))%Q)
                   (PatternTree.zpos p)))
    as (g2 & E2 & I2 & L2 & H2); [lia|lia|].
  unfold new_Pattern in *. cbn [snd heap length] in E2.
  cbn [heap length]. rewrite E2. cbn [bind].
  destruct (MakeChildNodes_ok Hash mindepth0 n fuel g2 0%nat 1 I2)
    as (g3 & E3 & I3 & X3).
  - apply (f_equal (@length _)) in H2. rewrite length_map in H2.
    rewrite H2. cbn. lia.
  - unfold enough. rewrite L2. replace (PatternTree.maxdepth p + 1 - 1)
      with (PatternTree.maxdepth p) by lia. exact Hfuel.
  - rewrite E3. cbn [bind]. eexists _, _. split; [reflexivity|].
    split; [exact I3|].
    destruct (heap g2) as [|r0 [|? ?]] eqn:Hh; cbn in H2; try discriminate.
    injection H2 as H2.
    destruct (ext_lookup g2 g3 0%nat r0 X3) as (root & Hr & Hb);
      [rewrite Hh; reflexivity|].
    exists root. split; [exact Hr|congruence].
Qed.


Lemma all_zero_replicate (b : list Z) :
  all_zero b -> b = replicate (length b) 0.
Proof.
  induction b as [|x b IH]; intros H; [reflexivity|]. cbn. f_equal.
  - apply H. now left.
  - apply IH. intros y Hy. apply H. now right.
Qed.

(** A candidate changes the stored bin tuples only by adding its own,
    and only after [Find] has returned null for it. *)
Lemma consider_alloc (Hash : list Z -> Z) (mindepth0 : Z) (g g' : t)
      (parent : nat) (depth : Z) (child : list Z) (type : Z) :
  consider Hash mindepth0 g parent depth child type = Ok g' ->
  map fBits (heap g') = map fBits (heap g)
  \/ (Find Hash child g = Ok None
      /\ map fBits (heap g') = map fBits (heap g) ++ [child]).
Proof.
  assert (Hupd : forall (h : t) (k : nat) (ty : Z) (h' : t),
             update parent (AddChild k ty) h = Ok h' ->
             map fBits (heap h') = map fBits (heap h)).
  { intros h k ty h'. unfold update.
    destruct (heap h !! parent) as [pat|] eqn:E; [|discriminate].
    intros [= <-]. cbn. eapply map_insert_same; eauto. }
  unfold consider.
  destruct (Find Hash child g) as [[a|]| |]; cbn [bind]; try discriminate.
  - destruct (deref g a) as [pn| |]; cbn [bind]; try discriminate.
    destruct (_ || _).
    + intros E. left. eapply Hupd; eauto.
    + intros [= <-]. now left.
  - destruct (TestSlope g child depth); [|intros [= <-]; now left].
    destruct (LineCheck g child) as [[|]| |]; cbn [bind]; try discriminate;
      [|intros [= <-]; now left].
    unfold new_Pattern.
    destruct (AddHash Hash _ _) as [g2| |] eqn:E2; cbn [bind];
      try discriminate.
    intros E. right. split; [reflexivity|].
    rewrite (Hupd _ _ _ _ E).
    revert E2. unfold AddHash. cbn [set_heap fHashTable fNlevels heap].
    destruct (Z.of_nat _ =? 0); [discriminate|].
    destruct (deref _ _) as [p0| |]; cbn [bind]; try discriminate.
    intros [= <-]. cbn. now rewrite map_app.
Qed.

(** C10.  Termination of the recursive build: for valid parameters (at
    least two planes, strictly increasing z-positions, max_slope >= 0,
    max_depth >= 1) [Generate] on an empty generator returns a tree as
    soon as the fuel covers the 2^N candidates of one parent and the
    max_depth levels of the recursion: no call of [MakeChildNodes] runs
    for ever and none aborts. *)
Theorem build_terminates (Hash : list Z -> Z) (mindepth0 : Z)
        (p : PatternTree.TreeParam_t) (fuel : nat) :
  PatternTree.valid p = true ->
  (Z.to_nat (2 ^ Z.of_nat (length (PatternTree.zpos p)))
   + Z.to_nat (PatternTree.maxdepth p) + 1 <= fuel)%nat ->
  exists g tree, Generate Hash mindepth0 fuel ctor p = Ok (g, Some tree).
Proof.
  intros Hv Hf.
  destruct (Generate_ok Hash mindepth0 p fuel Hv Hf) as (g & tree & E & _).
  exists g, tree. exact E.
Qed.

(** X30.  Uniqueness in the build on a newly constructed generator:
    after [Generate] any two distinct pattern instances linked in the
    hash table differ in a bin; and at every step of a build, a candidate
    leaves the stored bin tuples free of duplicates and adds a pattern
    only after [Find] has returned null for its bins. *)
Theorem patterns_unique (Hash : list Z -> Z) (mindepth0 : Z)
        (p : PatternTree.TreeParam_t) (fuel : nat) :
  PatternTree.valid p = true ->
  (Z.to_nat (2 ^ Z.of_nat (length (PatternTree.zpos p)))
   + Z.to_nat (PatternTree.maxdepth p) + 1 <= fuel)%nat ->
  exists g tree,
    Generate Hash mindepth0 fuel ctor p = Ok (g, Some tree)
    /\ (forall k1 k2 chain1 chain2 l1 l2,
          fHashTable g !! k1 = Some chain1 -> In l1 chain1 ->
          fHashTable g !! k2 = Some chain2 -> In l2 chain2 ->
          GetPattern l1 <> GetPattern l2 ->
          exists p1 p2,
            heap g !! GetPattern l1 = Some p1
            /\ heap g !! GetPattern l2 = Some p2
            /\ fBits p1 <> fBits p2)
    /\ (forall n g0 g1 parent depth child type,
          Inv Hash n g0 ->
          consider Hash mindepth0 g0 parent depth child type = Ok g1 ->
          NoDup (map fBits (heap g1))
          /\ ((length (heap g0) < length (heap g1))%nat ->
              Find Hash child g0 = Ok None)).
Proof.
  intros Hv Hf.
  destruct (Generate_ok Hash mindepth0 p fuel Hv Hf)
    as (g & tree & E & I & _).
  exists g, tree. split; [exact E|]. split.
  - intros k1 k2 chain1 chain2 l1 l2 H1 Hl1 H2 Hl2 Hne.
    pose proof (inv_table_ptr _ _ _ I _ _ _ H1 Hl1) as Hp1.
    pose proof (inv_table_ptr _ _ _ I _ _ _ H2 Hl2) as Hp2.
    destruct (lookup_lt_is_Some_2 _ _ Hp1) as [p1 E1].
    destruct (lookup_lt_is_Some_2 _ _ Hp2) as [p2 E2].
    exists p1, p2. split; [exact E1|]. split; [exact E2|].
    intros Heq. apply Hne.
    eapply (NoDup_lookup _ _ _ (fBits p1) (inv_unique _ _ _ I)).
    + rewrite map_lookup, E1. reflexivity.
    + rewrite map_lookup, E2, Heq. reflexivity.
  - intros n g0 g1 parent depth child type I0 Ec.
    destruct (consider_alloc _ _ _ _ _ _ _ _ Ec) as [Hsame|[HF Happ]].
    + split; [rewrite Hsame; apply I0|].
      intros Hlt. apply (f_equal (@length _)) in Hsame.
      rewrite !length_map in Hsame. lia.
    + split; [|intros _; exact HF].
      rewrite Happ. apply NoDup_app. split; [apply I0|].
      split; [|apply NoDup_singleton].
      intros x Hx Hx2. apply list_elem_of_In in Hx2.
      destruct Hx2 as [Hx2|[]]. subst x.
      destruct (Find_spec Hash n g0 child I0) as (r & Hr & Hspec).
      rewrite HF in Hr. injection Hr as <-.
      apply Hspec. now apply list_elem_of_In.
Qed.

(** C6.  Mirror rarity: in the generator [Generate] leaves, every child
    link carries the type tag 0, 1 or 2, never 3, and a link whose tag has
    bit 1 set is in the child list of the root, the all-zero pattern
    [Generate] has put at index 0 of the arena. *)
Theorem mirror_rarity (Hash : list Z -> Z) (mindepth0 : Z)
        (p : PatternTree.TreeParam_t) (fuel : nat) :
  PatternTree.valid p = true ->
  (Z.to_nat (2 ^ Z.of_nat (length (PatternTree.zpos p)))
   + Z.to_nat (PatternTree.maxdepth p) + 1 <= fuel)%nat ->
  exists g tree,
    Generate Hash mindepth0 fuel ctor p = Ok (g, Some tree)
    /\ forall (a : nat) (pa : Pattern.t) (ln : Link),
         heap g !! a = Some pa -> In ln (fChild pa) ->
         (Type_ ln = 0 \/ Type_ ln = 1 \/ Type_ ln = 2)
         /\ (Z.land (Type_ ln) 2 <> 0 ->
             a = 0%nat
             /\ fBits pa = replicate (length (PatternTree.zpos p)) 0).
Proof.
  intros Hv Hf.
  destruct (Generate_ok Hash mindepth0 p fuel Hv Hf)
    as (g & tree & E & I & root & Hroot & Hbits).
  exists g, tree. split; [exact E|].
  intros a pa ln Ha Hln.
  destruct (inv_links _ _ _ I a pa ln Ha Hln) as [Hty Hmir].
  split; [exact Hty|]. intros H2. specialize (Hmir H2).
  destruct (inv_canonical _ _ _ I a pa Ha) as [_ Hlen].
  apply all_zero_replicate in Hmir. rewrite Hlen in Hmir.
  split; [|exact Hmir].
  eapply (NoDup_lookup _ _ _ (fBits pa) (inv_unique _ _ _ I)).
  - rewrite map_lookup, Ha. reflexivity.
  - rewrite map_lookup, Hroot. cbn. congruence.
Qed.

End GeneratorFacts.

(* ===================================================================== *)
(** * The generator on the scenarios of the design document *)

Module ScenarioTree.

Import Pattern PatternGenerator GeneratorInv GeneratorFacts Scenario.

Lemma build_terminates_witness :
  PatternTree.valid S1 = true
  /\ (Z.to_nat (2 ^ Z.of_nat (length (PatternTree.zpos S1)))
      + Z.to_nat (PatternTree.maxdepth S1) + 1 <= 6)%nat
  /\ exists g tree, Generate Hash kMaxUInt 6 ctor S1 = Ok (g, Some tree).
Proof.
  split; [reflexivity|]. split; [vm_compute; lia|].
  apply (build_terminates Hash kMaxUInt S1 6); [reflexivity|vm_compute; lia].
Defined.

Lemma patterns_unique_witness :
  PatternTree.valid S1 = true
  /\ (Z.to_nat (2 ^ Z.of_nat (length (PatternTree.zpos S1)))
      + Z.to_nat (PatternTree.maxdepth S1) + 1 <= 6)%nat
  /\ exists g tree,
       Generate Hash kMaxUInt 6 ctor S1 = Ok (g, Some tree)
       /\ (forall k1 k2 chain1 chain2 l1 l2,
             fHashTable g !! k1 = Some chain1 -> In l1 chain1 ->
             fHashTable g !! k2 = Some chain2 -> In l2 chain2 ->
             GetPattern l1 <> GetPattern l2 ->
             exists p1 p2,
               heap g !! GetPattern l1 = Some p1
               /\ heap g !! GetPattern l2 = Some p2
               /\ fBits p1 <> fBits p2)
       /\ (forall n g0 g1 parent depth child type,
             Inv Hash n g0 ->
             consider Hash kMaxUInt g0 parent depth child type = Ok g1 ->
             NoDup (map fBits (heap g1))
             /\ ((length (heap g0) < length (heap g1))%nat ->
                 Find Hash child g0 = Ok None)).
Proof.
  split; [reflexivity|]. split; [vm_compute; lia|].
  apply (patterns_unique Hash kMaxUInt S1 6); [reflexivity|vm_compute; lia].
Defined.

Lemma mirror_rarity_witness :
  PatternTree.valid S1 = true
  /\ (Z.to_nat (2 ^ Z.of_nat (length (PatternTree.zpos S1)))
      + Z.to_nat (PatternTree.maxdepth S1) + 1 <= 6)%nat
  /\ exists g tree,
       Generate Hash kMaxUInt 6 ctor S1 = Ok (g, Some tree)
       /\ forall (a : nat) (pa : Pattern.t) (ln : Link),
            heap g !! a = Some pa -> In ln (fChild pa) ->
            (Type_ ln = 0 \/ Type_ ln = 1 \/ Type_ ln = 2)
            /\ (Z.land (Type_ ln) 2 <> 0 ->
                a = 0%nat
                /\ fBits pa = replicate (length (PatternTree.zpos S1)) 0).
Proof.
  split; [reflexivity|]. split; [vm_compute; lia|].
  apply (mirror_rarity Hash kMaxUInt S1 6); [reflexivity|vm_compute; lia].
Defined.

(** ** Running the build step by step

    The hash function is not known; the build is run with the two bucket
    numbers it needs left open, one call at a time. *)

Section Run.

Variable Hash : list Z -> Z.
Variable m : Z.

Lemma MakeChildNodes_S (k : nat) (g : t) (parent : nat) (depth : Z) :
  MakeChildNodes Hash m (S k) g parent depth =
  bind (if depth >? 0 then update parent (UsedAtDepth (depth - 1)) g
        else Ok g)
    (fun g1 =>
       if depth >=? fNlevels g1 then Ok g1
       else
         bind (deref g1 parent) (fun par =>
         bind (match fChild par with
               | [] => candidates Hash m (S k) g1 parent depth
                         (ChildIter.make (fBits par))
               | _ :: _ => Ok g1
               end) (fun g2 =>
         bind (deref g2 parent) (fun par2 =>
         descend (MakeChildNodes Hash m k) depth (fChild par2) g2)))).
Proof. reflexivity. Qed.

Lemma candidates_eq (k : nat) (g : t) (parent : nat) (depth : Z)
      (it : ChildIter.t) :
  candidates Hash m (S k) g parent depth it =
  if ChildIter.valid it then
    bind (consider Hash m g parent depth (ChildIter.fChild it)
            (ChildIter.fType it))
         (fun g1 => candidates Hash m k g1 parent depth (ChildIter.incr it))
  else Ok g.
Proof. reflexivity. Qed.

Lemma candidates_done (k : nat) (g : t) (parent : nat) (depth : Z)
      (it : ChildIter.t) :
  ChildIter.valid it = false ->
  candidates Hash m k g parent depth it = Ok g.
Proof. intros H. destruct k; cbn; now rewrite H. Qed.

Lemma descend_cons (rec : t -> nat -> Z -> res t) (depth : Z) (l : Link)
      (next : list Link) (g : t) :
  descend rec depth (l :: next) g =
  bind (deref g (GetPattern l)) (fun node =>
  bind (match fChild node with
        | [] => rec g (GetPattern l) (depth + 1)
        | _ :: _ => if fMinDepth node >? depth
                    then rec g (GetPattern l) (depth + 1) else Ok g
        end) (fun g' => descend rec depth next g')).
Proof. reflexivity. Qed.

Lemma Find_at (g : t) (bits : list Z) (size : Z) (b : nat)
      (chain : list Link) :
  Z.of_nat (length (fHashTable g)) = size -> size <> 0 ->
  bucket Hash size bits = b ->
  fHashTable g !! b = Some chain ->
  Find Hash bits g = find_chain g bits chain.
Proof.
  intros <- Hs <- Hc. unfold Find.
  destruct (Z.eqb_spec (Z.of_nat (length (fHashTable g))) 0); [easy|].
  now rewrite Hc.
Qed.

Lemma AddHash_at (g : t) (a : nat) (pat : Pattern.t) (size : Z) (b : nat) :
  heap g !! a = Some pat ->
  (if (length (fHashTable g) =? 0)%nat
   then Z.of_nat (Z.to_nat (Z.shiftl 1 (fNlevels g - 1)))
   else Z.of_nat (length (fHashTable g))) = size ->
  size <> 0 ->
  bucket Hash size (fBits pat) = b ->
  AddHash Hash a g
  = Ok (set_table
          (alter (fun head => mkLink a 0 :: head) b
             (if (length (fHashTable g) =? 0)%nat
              then replicate (Z.to_nat (Z.shiftl 1 (fNlevels g - 1))) []
              else fHashTable g)) g).
Proof.
  intros Hp <- Hs <-. unfold AddHash, deref. rewrite Hp.
  destruct (length (fHashTable g) =? 0)%nat.
  - rewrite length_replicate.
    destruct (Z.eqb_spec (Z.of_nat (Z.to_nat (Z.shiftl 1 (fNlevels g - 1)))) 0);
      [easy|reflexivity].
  - destruct (Z.eqb_spec (Z.of_nat (length (fHashTable g))) 0);
      [easy|reflexivity].
Qed.
End Run.

Ltac eval_vm t :=
  let v := eval vm_compute in t in
  let E := fresh "E" in
  assert (E : t = v) by (vm_compute; reflexivity);
  rewrite E; clear E.

Ltac glue :=
  cbv -[candidates MakeChildNodes descend consider AddHash bucket
        CalcStatistics].

Ltac use_bucket H0 H1 := first [exact H0 | exact H1].

Ltac eval_AddHash Hash H0 H1 :=
  match goal with
  | |- context [AddHash Hash ?a ?g] =>
      erewrite (AddHash_at Hash g a);
      [ | vm_compute; reflexivity | vm_compute; reflexivity | discriminate
        | use_bucket H0 H1 ]
  end.

Ltac eval_closed :=
  match goal with
  | |- context [find_chain ?g ?b ?c] => eval_vm (find_chain g b c)
  | |- context [TestSlope ?g ?b ?d] => eval_vm (TestSlope g b d)
  | |- context [LineCheck ?g ?b] => eval_vm (LineCheck g b)
  | |- context [new_Pattern ?m ?b ?g] => eval_vm (new_Pattern m b g)
  | |- context [deref ?g ?p] => eval_vm (deref g p)
  | |- context [update ?p ?f ?g] => eval_vm (update p f g)
  | |- context [set_table ?tb ?g] => eval_vm (set_table tb g)
  end.

Ltac eval_consider Hash H0 H1 t :=
  let E := fresh "E" in
  eassert (E : t = _);
  [ unfold consider;
    erewrite (Find_at Hash);
    [ | vm_compute; reflexivity | discriminate | use_bucket H0 H1
      | vm_compute; reflexivity ];
    repeat first [ eval_closed
                 | eval_AddHash Hash H0 H1
                 | progress (cbv beta iota zeta delta [bind]) ];
    reflexivity
  | rewrite E; clear E; glue ].

Ltac run_step Hash H0 H1 :=
  match goal with
  | |- context [consider Hash ?m ?g ?p ?d ?c ?ty] =>
      eval_consider Hash H0 H1 (consider Hash m g p d c ty)
  | |- context [AddHash Hash ?a ?g] =>
      eval_AddHash Hash H0 H1; eval_closed; glue
  | |- context [candidates Hash ?m (S ?k) ?g ?p ?d ?it] =>
      rewrite (candidates_eq Hash m k g p d it); glue
  | |- context [candidates Hash ?m ?k ?g ?p ?d ?it] =>
      rewrite (candidates_done Hash m k g p d it) by reflexivity; glue
  | |- context [MakeChildNodes Hash ?m (S ?k) ?g ?p ?d] =>
      rewrite (MakeChildNodes_S Hash m k g p d); glue
  | |- context [descend ?rec ?d (?l :: ?next) ?g] =>
      rewrite (descend_cons rec d l next g); glue
  | |- context [descend ?rec ?d [] ?g] =>
      change (descend rec d [] g) with (Ok g); glue
  end.


(** The build of S1 for given bucket numbers of [0,0] and [0,1]. *)
Lemma S1_run (Hash : list Z -> Z) (m : Z) (fuel : nat) (b0 b1 : nat) :
  bucket Hash 2 [0; 0] = b0 -> bucket Hash 2 [0; 1] = b1 ->
  (b0 < 2)%nat -> (b1 < 2)%nat ->
  exists g tree,
    Generate Hash m (4 + fuel) ctor S1 = Ok (g, Some tree)
    /\ PatternTree.nPatterns tree = 2
    /\ PatternTree.nLinks tree = 4
    /\ map fBits (heap g) = [[0; 0]; [0; 1]]
    /\ map fChild (heap g)
       = [[mkLink 0 0; mkLink 1 2; mkLink 1 0; mkLink 0 1]; []].
Proof.
  intros H0 H1 L0 L1.
  destruct b0 as [|[|?]]; [| |lia]; (destruct b1 as [|[|?]]; [| |lia]);
    destruct m as [|[q|q|]|q];
    (eexists _, _; split;
     [ unfold Generate; glue; repeat run_step Hash H0 H1; reflexivity
     | vm_compute; repeat split; reflexivity ]).
Qed.

(** Two builds of S1 on the same generator, for given bucket numbers of
    [0,0] and [0,1]. *)
Lemma S1_twice (Hash : list Z -> Z) (m : Z) (fuel : nat) (b0 b1 : nat) :
  bucket Hash 2 [0; 0] = b0 -> bucket Hash 2 [0; 1] = b1 ->
  (b0 < 2)%nat -> (b1 < 2)%nat ->
  exists g1 tree1 g2 tree2,
    Generate Hash m (4 + fuel) ctor S1 = Ok (g1, Some tree1)
    /\ Generate Hash m (4 + fuel) g1 S1 = Ok (g2, Some tree2)
    /\ map fBits (heap g2) = [[0; 0]; [0; 1]; [0; 0]]
    /\ PatternTree.nPatterns tree2 = 3
    /\ exists chain,
         fHashTable g2 !! b0 = Some chain
         /\ In (mkLink 0 0) chain /\ In (mkLink 2 0) chain.
Proof.
  intros H0 H1 L0 L1.
  destruct b0 as [|[|?]]; [| |lia]; (destruct b1 as [|[|?]]; [| |lia]);
    destruct m as [|[q|q|]|q];
    (eexists _, _, _, _; split;
     [ unfold Generate; glue; repeat run_step Hash H0 H1; reflexivity
     | split;
       [ unfold Generate; glue; repeat run_step Hash H0 H1; reflexivity
       | vm_compute; repeat split; try reflexivity;
         eexists; split; [reflexivity|]; cbn; auto ] ]).
Qed.

(** C7.  [Generate] does not keep the stored patterns unique.  It takes
    the hash table and the patterns of the generator as they are (only
    the destructor clears them) and puts the new all-zero root into the
    table with [AddHash] without asking [Find].  So a second call on the
    same generator, here with the parameters of S1 both times, leaves two
    all-zero patterns, the first and the third one created, linked in
    the same chain of the hash table, and counts three patterns,
    whatever the hash function. *)
Theorem second_Generate_duplicates_root (Hash : list Z -> Z)
        (mindepth0 : Z) (fuel : nat) :
  exists g1 tree1 g2 tree2,
    Generate Hash mindepth0 (4 + fuel) ctor S1 = Ok (g1, Some tree1)
    /\ Generate Hash mindepth0 (4 + fuel) g1 S1 = Ok (g2, Some tree2)
    /\ map fBits (heap g2) = [[0; 0]; [0; 1]; [0; 0]]
    /\ PatternTree.nPatterns tree2 = 3
    /\ (exists chain,
           fHashTable g2 !! bucket Hash 2 [0; 0] = Some chain
           /\ In (mkLink 0 0) chain /\ In (mkLink 2 0) chain)
    /\ ~ (forall k1 k2 chain1 chain2 l1 l2,
            fHashTable g2 !! k1 = Some chain1 -> In l1 chain1 ->
            fHashTable g2 !! k2 = Some chain2 -> In l2 chain2 ->
            GetPattern l1 <> GetPattern l2 ->
            exists p1 p2,
              heap g2 !! GetPattern l1 = Some p1
              /\ heap g2 !! GetPattern l2 = Some p2
              /\ fBits p1 <> fBits p2).
Proof.
  destruct (S1_twice Hash mindepth0 fuel (bucket Hash 2 [0; 0])
              (bucket Hash 2 [0; 1]) eq_refl eq_refl)
    as (g1 & t1 & g2 & t2 & E1 & E2 & Hb & Hn & chain & Hc & I0 & I2).
  { apply (bucket_lt Hash 2 [0; 0]). lia. }
  { apply (bucket_lt Hash 2 [0; 1]). lia. }
  exists g1, t1, g2, t2.
  split; [exact E1|]. split; [exact E2|]. split; [exact Hb|].
  split; [exact Hn|]. split; [exists chain; auto|].
  intros H.
  destruct (H _ _ _ _ _ _ Hc I0 Hc I2) as (p1 & p2 & P1 & P2 & Hne);
    [discriminate|].
  cbn [GetPattern] in P1, P2.
  assert (B1 : map fBits (heap g2) !! 0%nat = Some (fBits p1))
    by (rewrite map_lookup, P1; reflexivity).
  assert (B2 : map fBits (heap g2) !! 2%nat = Some (fBits p2))
    by (rewrite map_lookup, P2; reflexivity).
  rewrite Hb in B1, B2. cbn in B1, B2.
  apply Hne. congruence.
Qed.

(** C4 (amended).  Scenario S1: with N = 2, z = [0,1], max_depth = 1 and
    max_slope = 1.0, whatever the hash function, [Generate] stores exactly
    two patterns, the root [0,0] and [0,1], and counts four links: the
    child list of the root holds a link to the root itself with tag 0, a
    link to [0,1] with tag 2 (the mirror image), a link to [0,1] with tag
    0 and a link to the root itself with tag 1; [0,1] has no children. *)
Theorem trivial_tree_S1 (Hash : list Z -> Z) (mindepth0 : Z) (fuel : nat) :
  exists g tree,
    Generate Hash mindepth0 (4 + fuel) ctor S1 = Ok (g, Some tree)
    /\ PatternTree.nPatterns tree = 2
    /\ PatternTree.nLinks tree = 4
    /\ map fBits (heap g) = [[0; 0]; [0; 1]]
    /\ map fChild (heap g)
       = [[mkLink 0 0; mkLink 1 2; mkLink 1 0; mkLink 0 1]; []].
Proof.
  apply (S1_run Hash mindepth0 fuel (bucket Hash 2 [0; 0])
           (bucket Hash 2 [0; 1])); try reflexivity.
  - apply (bucket_lt Hash 2 [0; 0]). lia.
  - apply (bucket_lt Hash 2 [0; 1]). lia.
Qed.

(** C4 as stated fails: the child list of the root is not a single link
    with tag 0. *)
Lemma trivial_tree_S1_counterexample :
  ~ (exists g tree,
       Generate Scenario.Hash kMaxUInt 6 ctor S1 = Ok (g, Some tree)
       /\ PatternTree.nPatterns tree = 2
       /\ exists root ln,
            heap g !! 0%nat = Some root
            /\ fChild root = [ln] /\ Type_ ln = 0).
Proof.
  intros (g & tree & E & _ & root & ln & Hr & Hc & _).
  vm_compute in E. injection E as <- _.
  vm_compute in Hr. injection Hr as <-.
  discriminate Hc.
Qed.

(** C9.  Scenario S3: with three planes at z = [0, 0.5, 1], the left-edge
    test of the middle plane computes dL = 0*0.5 - 2*1 = -2 for the
    pattern [0, 2, 0], |dL| >= zL = 1, and [LineCheck] returns false; a
    candidate with these bins never adds a pattern, and when [Find] does
    not find it the generator is left as it is. *)
Theorem LineCheck_rejects_S3 (Hash : list Z -> Z) (mindepth0 : Z)
        (L : Z) (slope : Q) (tbl : list (list Link)) (h : list Pattern.t)
        (parent : nat) (depth type : Z) :
  let g := {| fNlevels := L; fNplanes := 3; fMaxSlope := slope; fZ := z3;
              fHashTable := tbl; heap := h |} in
  let dL := (inject_Z (nth 2 pat3 0%Z) * nth 1 z3 0
             - inject_Z (nth 1 pat3 0%Z) * nth 2 z3 0)%Q in
  (dL == -2)%Q
  /\ Qle_bool (nth 2 z3 0%Q) (Qabs dL) = true
  /\ LineCheck g pat3 = Ok false
  /\ forall g',
       consider Hash mindepth0 g parent depth pat3 type = Ok g' ->
       map fBits (heap g') = map fBits (heap g)
       /\ (Find Hash pat3 g = Ok None -> g' = g).
Proof.
  intros g dL. split; [reflexivity|]. split; [reflexivity|].
  split; [reflexivity|].
  intros g'. unfold consider.
  destruct (Find Hash pat3 g) as [[a|]| |]; cbn [bind]; try discriminate.
  - destruct (deref g a) as [pn| |]; cbn [bind]; try discriminate.
    destruct (_ || _).
    + unfold update. destruct (heap g !! parent) as [pat|] eqn:E;
        [|discriminate].
      intros [= <-]. split; [|discriminate].
      cbn. eapply map_insert_same; eauto.
    + intros [= <-]. split; [reflexivity|discriminate].
  - assert (LineCheck g pat3 = Ok false) as -> by reflexivity.
    destruct (TestSlope g pat3 depth); cbn [bind]; intros [= <-]; auto.
Qed.

Lemma LineCheck_rejects_S3_witness :
  consider Hash kMaxUInt g3 0%nat 2 pat3 0 = Ok g3
  /\ map fBits (heap g3) = map fBits (heap g3)
  /\ (Find Hash pat3 g3 = Ok None -> g3 = g3).
Proof.
  split; [reflexivity|].
  apply (LineCheck_rejects_S3 Hash kMaxUInt 3 1%Q [[]; []; []; []] []
           0%nat 2 0).
  reflexivity.
Defined.

End ScenarioTree.
(* ===================================================================== *)
(** * HitPairIter: Reset, assignment, the end of the iteration, the
      order and the origin of the published hits *)

Module HitPairIterMore.

Import HitPairIter HitPairIterInv HitPairIterOps.

Section Facts.

Variable Hit : Type.
Variable Hit_eq_dec : forall x y : Hit, {x = y} + {x <> y}.
Variable Dist : Type.
Variable Compare : Hit -> Hit -> Dist -> Z.

Local Abbreviation iter := (HitPairIter.t Hit Dist).
Local Abbreviation advance := (HitPairIter.advance Hit_eq_dec Compare).
Local Abbreviation Next := (HitPairIter.Next Hit_eq_dec Compare).
Local Abbreviation emit := (HitPairIter.emit Hit_eq_dec Compare).
Local Abbreviation skipB := (HitPairIter.skipB Hit_eq_dec Compare).
Local Abbreviation published :=
  (HitPairIterOps.published Hit_eq_dec Compare).
Local Abbreviation Reset := (HitPairIterOps.Reset Hit_eq_dec Compare).
Local Abbreviation ctor := (HitPairIter.ctor Hit_eq_dec Compare).
Local Abbreviation inv := (@HitPairIterInv.inv Hit Dist).

(** ** Iterators in the same position *)

Lemma same_position_start (it1 it2 : iter) :
  same_position it1 it2 -> same_position (start it1) (start it2).
Proof.
  intros (HA & HB & HD & HS & HSc & HN & Hsave).
  unfold start. rewrite HS, HA, HB.
  destruct (fStarted it2) eqn:E.
  - unfold same_position. intuition congruence.
  - destruct (TIterator.Next (fIterA it2)), (TIterator.Next (fIterB it2)).
    unfold same_position; cbn. intuition congruence.
Qed.

Lemma same_position_advance (it1 it2 : iter) :
  same_position it1 it2 ->
  match advance it1, advance it2 with
  | Some j1, Some j2 => same_position j1 j2 /\ fCurrent j1 = fCurrent j2
  | None, None => True
  | _, _ => False
  end.
Proof.
  intros (HA & HB & HD & HS & HSc & HN & Hsave).
  rewrite HSc in Hsave.
  unfold HitPairIter.advance, same_position.
  rewrite HA, HB, HD, HSc, HN.
  destruct (fNext it2) as [[a|] [b|]].
  - destruct (Compare a b (fMaxDist it2) =? -1).
    { destruct (TIterator.Next (fIterA it2)); cbn; auto 10. }
    destruct (Compare a b (fMaxDist it2) =? 1).
    { destruct (TIterator.Next (fIterB it2)); cbn; auto 10. }
    destruct (TIterator.Next (fIterB it2)) as [nextB itB].
    destruct (match nextB with
              | Some nb => Compare a nb (fMaxDist it2) <? 0
              | None => true end).
    + destruct (fScanning it2).
      * destruct (Hsave eq_refl) as [-> ->].
        destruct (TIterator.Next (fIterA it2)) as [[a'|] rA].
        -- destruct (skipB _ _ _ _ _) as [[hB l']|]; cbn; auto.
           repeat split; auto; discriminate.
        -- cbn. repeat split; auto; discriminate.
      * destruct (TIterator.Next (fIterA it2)).
        cbn. repeat split; auto; discriminate.
    + destruct (fScanning it2).
      * destruct (Hsave eq_refl) as [-> ->]. cbn. auto 10.
      * cbn. auto 10.
  - destruct (TIterator.Next (fIterA it2)); cbn; auto 10.
  - destruct (TIterator.Next (fIterB it2)); cbn; auto 10.
  - cbn; auto 10.
Qed.

Lemma same_position_published (n : nat) :
  forall it1 it2 : iter,
    same_position it1 it2 -> published n it1 = published n it2.
Proof.
  unfold HitPairIterOps.published.
  induction n as [|n IH]; intros it1 it2 H; [reflexivity|].
  cbn [HitPairIter.emit]. unfold HitPairIter.Next.
  pose proof (same_position_advance _ _ (same_position_start _ _ H)) as Hadv.
  destruct (advance (start it1)) as [j1|], (advance (start it2)) as [j2|];
    try contradiction; [|reflexivity].
  destruct Hadv as [Hj Hc]. specialize (IH _ _ Hj).
  destruct (emit n j1) as [[l1 k1]|], (emit n j2) as [[l2 k2]|];
    cbn in *; congruence.
Qed.

(** Outside a scan [Next()] dereferences no null pointer. *)
Lemma advance_not_scanning (it : iter) :
  fScanning it = false -> exists it', advance it = Some it'.
Proof.
  intros Sc. unfold HitPairIter.advance. rewrite Sc.
  destruct (fNext it) as [[a|] [b|]]; eauto.
  - destruct (Compare a b (fMaxDist it) =? -1).
    { destruct (TIterator.Next (fIterA it)); eauto. }
    destruct (Compare a b (fMaxDist it) =? 1).
    { destruct (TIterator.Next (fIterB it)); eauto. }
    destruct (TIterator.Next (fIterB it)) as [nextB itB].
    destruct (match nextB with
              | Some nb => Compare a nb (fMaxDist it) <? 0
              | None => true end); eauto.
    destruct (TIterator.Next (fIterA it)); eauto.
  - destruct (TIterator.Next (fIterA it)); eauto.
  - destruct (TIterator.Next (fIterB it)); eauto.
Qed.

(** X1.  [Reset()] starts the iteration again: whatever the state of the
    iterator, [Reset()] succeeds and leaves it showing the pair that a
    new iterator over the same collections and with the same tolerance
    shows, and publishing the same pairs from there on. *)
Theorem Reset_restarts (it : iter) :
  exists r c,
    Reset it = Some r
    /\ ctor (fCollA it) (fCollB it) (fMaxDist it) = Some c
    /\ fCurrent r = fCurrent c
    /\ forall n, published n r = published n c.
Proof.
  unfold HitPairIterOps.Reset, HitPairIter.ctor, HitPairIter.Next.
  set (s1 := start _). set (s2 := start _).
  assert (Hs : same_position s1 s2).
  { subst s1 s2. unfold start, init; cbn.
    destruct (TIterator.Next (fCollA it)), (TIterator.Next (fCollB it)).
    repeat split; cbn; auto; discriminate. }
  assert (Sc : fScanning s1 = false).
  { subst s1. unfold start; cbn.
    destruct (TIterator.Next (fCollA it)), (TIterator.Next (fCollB it)).
    reflexivity. }
  destruct (advance_not_scanning _ Sc) as (r & Hr).
  pose proof (same_position_advance _ _ Hs) as Hadv.
  rewrite Hr in Hadv.
  destruct (advance s2) as [c|]; [|contradiction].
  destruct Hadv as [Hp Hc].
  exists r, c. repeat split; auto.
  intros n. now apply same_position_published.
Qed.

(** X2.  Assignment from an iterator that is not in a scan gives an
    iterator that publishes what the right-hand side publishes, although
    [operator=] leaves [fSaveHit] as it was. *)
Theorem assign_same_run (self rhs : iter) :
  fScanning rhs = false ->
  forall n, published n (assign self rhs) = published n rhs.
Proof.
  intros Sc n. apply same_position_published.
  unfold same_position, assign; cbn. rewrite Sc.
  repeat split; auto; discriminate.
Qed.

(** ** After the end *)

Lemma done_stays (n : nat) :
  forall it : iter,
    fStarted it = true -> fNext it = (None, None) ->
    exists it', emit n it = Some (repeat (None, None) n, it')
                /\ fStarted it' = true /\ fNext it' = (None, None).
Proof.
  induction n as [|n IH]; intros it Hs Hn.
  - exists it. auto.
  - cbn [HitPairIter.emit]. unfold HitPairIter.Next, start. rewrite Hs.
    unfold HitPairIter.advance. rewrite Hn.
    match goal with |- context [emit n ?j] =>
      destruct (IH j) as (it' & E & H1 & H2); [exact Hs|reflexivity|] end.
    rewrite E. exists it'. auto.
Qed.

Lemma advance_started (it it' : iter) :
  advance it = Some it' -> fStarted it' = fStarted it.
Proof.
  unfold HitPairIter.advance.
  destruct (fNext it) as [[x|] [y|]].
  - destruct (Compare x y (fMaxDist it) =? -1).
    { destruct (TIterator.Next (fIterA it)); now intros [= <-]. }
    destruct (Compare x y (fMaxDist it) =? 1).
    { destruct (TIterator.Next (fIterB it)); now intros [= <-]. }
    destruct (TIterator.Next (fIterB it)) as [nextB itB].
    destruct (match nextB with
              | Some nb => Compare x nb (fMaxDist it) <? 0
              | None => true end).
    + destruct (fScanning it).
      * destruct (TIterator.Next (fIterA it)) as [[a'|] rA].
        -- destruct (skipB _ _ _ _ _) as [[hB l']|]; [|discriminate].
           now intros [= <-].
        -- now intros [= <-].
      * destruct (TIterator.Next (fIterA it)). now intros [= <-].
    + now intros [= <-].
  - destruct (TIterator.Next (fIterA it)); now intros [= <-].
  - destruct (TIterator.Next (fIterB it)); now intros [= <-].
  - now intros [= <-].
Qed.

Lemma start_started (it : iter) : fStarted (start it) = true.
Proof.
  unfold start. destruct (fStarted it) eqn:E; [exact E|].
  destruct (TIterator.Next (fIterA it)), (TIterator.Next (fIterB it)).
  reflexivity.
Qed.

(** The all-absent pair is shown only when the lookahead was all-absent,
    and then the lookahead stays so. *)
Lemma advance_done (it it' : iter) :
  advance it = Some it' -> fCurrent it' = (None, None) ->
  fNext it = (None, None) /\ fNext it' = (None, None).
Proof.
  intros Ha Hc.
  destruct (fNext it) as [[x|] [y|]] eqn:Hn.
  1-3: exfalso; revert Hc;
    apply (HitPairIterFacts.advance_current Hit Hit_eq_dec Dist Compare
             it it' Ha); rewrite Hn; discriminate.
  split; [reflexivity|].
  revert Ha. unfold HitPairIter.advance. rewrite Hn. now intros [= <-].
Qed.

(** X3.  The end of the iteration is final: once a call of [Next()] has
    published the all-absent pair, every further call succeeds and
    publishes the all-absent pair again. *)
Theorem done_is_final (it it1 : iter) :
  Next it = Some it1 -> fCurrent it1 = (None, None) ->
  forall n, exists it2, emit n it1 = Some (repeat (None, None) n, it2).
Proof.
  unfold HitPairIter.Next. intros Ha Hc n.
  destruct (advance_done _ _ Ha Hc) as [_ Hn].
  pose proof (advance_started _ _ Ha) as Hs.
  rewrite start_started in Hs.
  destruct (done_stays n it1 Hs Hn) as (it2 & E & _).
  eauto.
Qed.

(** ** Where the published hits come from *)

Lemma skipB_from (B : list Hit) (d : Dist) (hA : Hit) (nextB : option Hit) :
  forall (l : list Hit) (hB : option Hit) (r : option Hit * list Hit),
    skipB d hA nextB hB l = Some r ->
    (forall x, hB = Some x -> In x B) ->
    (forall x, In x l -> In x B) ->
    (forall x, fst r = Some x -> In x B)
    /\ (forall x, In x (snd r) -> In x B).
Proof.
  induction l as [|y l IH]; intros hB r;
    rewrite (HitPairIterFacts.skipB_unfold Hit Hit_eq_dec Dist Compare);
    destruct (HitPairIter.ptr_eqb Hit_eq_dec hB nextB).
  - intros [= <-]; cbn; auto.
  - destruct hB as [b|]; [|discriminate].
    destruct (Compare b hA d <? 0).
    + destruct nextB; [discriminate|]. intros [= <-]; cbn.
      split; [discriminate|tauto].
    + intros [= <-]; cbn; auto.
  - intros [= <-]; cbn; auto.
  - destruct hB as [b|]; [|discriminate].
    destruct (Compare b hA d <? 0).
    + intros H _ Hl. apply (IH _ _ H).
      * intros x [= <-]. apply Hl. now left.
      * intros x Hx. apply Hl. now right.
    + intros [= <-]; cbn; auto.
Qed.

Ltac mem :=
  cbn in *; repeat split; intros; subst;
  repeat match goal with
         | H : Some _ = Some _ |- _ => injection H as H; subst
         | H : None = Some _ |- _ => discriminate H
         | H : Some _ = None |- _ => discriminate H
         | H : false = true |- _ => discriminate H
         | H : False |- _ => destruct H
         end;
  eauto 6.

Lemma advance_from (A B : list Hit) (it it' : iter) :
  from_collections A B it -> advance it = Some it' ->
  from_collections A B it'
  /\ (forall x, fst (fCurrent it') = Some x -> In x A)
  /\ (forall x, snd (fCurrent it') = Some x -> In x B).
Proof.
  intros (HA & HB & HS & HnA & HnB & HSh).
  unfold HitPairIter.advance, from_collections.
  destruct (fNext it) as [[a|] [b|]] eqn:Hn; cbn [fst snd] in *.
  - destruct (Compare a b (fMaxDist it) =? -1).
    { destruct (fIterA it) as [|a' rA]; cbn [TIterator.Next];
        intros [= <-]; mem. }
    destruct (Compare a b (fMaxDist it) =? 1).
    { destruct (fIterB it) as [|b' rB]; cbn [TIterator.Next];
        intros [= <-]; mem. }
    destruct (fIterB it) as [|b' rB] eqn:EB; cbn [TIterator.Next].
    + (* nextB is null *)
      destruct (fScanning it).
      * destruct (fIterA it) as [|a' rA]; cbn [TIterator.Next].
        -- intros [= <-]; mem.
        -- destruct (skipB _ _ _ _ _) as [[hB l']|] eqn:Esk; [|discriminate].
           destruct (skipB_from B _ _ _ _ _ _ Esk) as [S1 S2]; auto.
           intros [= <-]; mem.
      * destruct (fIterA it) as [|a' rA]; cbn [TIterator.Next];
          intros [= <-]; mem.
    + destruct (Compare a b' (fMaxDist it) <? 0).
      * destruct (fScanning it).
        -- destruct (fIterA it) as [|a' rA]; cbn [TIterator.Next].
           ++ intros [= <-]; mem.
           ++ destruct (skipB _ _ _ _ _) as [[hB l']|] eqn:Esk;
                [|discriminate].
              destruct (skipB_from B _ _ _ _ _ _ Esk) as [S1 S2]; auto.
              intros [= <-]; mem.
        -- destruct (fIterA it) as [|a' rA]; cbn [TIterator.Next];
             intros [= <-]; mem.
      * destruct (fScanning it); intros [= <-]; mem.
  - destruct (fIterA it) as [|a' rA]; cbn [TIterator.Next];
      intros [= <-]; mem.
  - destruct (fIterB it) as [|b' rB]; cbn [TIterator.Next];
      intros [= <-]; mem.
  - intros [= <-]; mem.
Qed.

Lemma start_from (A B : list Hit) (it : iter) :
  from_collections A B it -> from_collections A B (start it).
Proof.
  intros (HA & HB & HS & HnA & HnB & HSh).
  unfold start, from_collections.
  destruct (fStarted it); [auto 10|].
  destruct (fIterA it) as [|a' rA], (fIterB it) as [|b' rB];
    cbn [TIterator.Next]; mem.
Qed.

Lemma first_hits_cons (e : ObjectPair Hit) (l : list (ObjectPair Hit)) :
  first_hits (e :: l)
  = match fst e with Some x => x :: first_hits l | None => first_hits l end.
Proof. destruct e as [[a|] b]; reflexivity. Qed.

Lemma second_hits_cons (e : ObjectPair Hit) (l : list (ObjectPair Hit)) :
  second_hits (e :: l)
  = match snd e with Some x => x :: second_hits l | None => second_hits l end.
Proof. destruct e as [a [b|]]; reflexivity. Qed.

Lemma emit_from (A B : list Hit) (n : nat) :
  forall (it it' : iter) (l : list (ObjectPair Hit)),
    from_collections A B it -> emit n it = Some (l, it') ->
    from_collections A B it'
    /\ (forall x, In x (first_hits l) -> In x A)
    /\ (forall x, In x (second_hits l) -> In x B).
Proof.
  induction n as [|n IH]; intros it it' l Hf.
  - intros [= <- <-]. split; [exact Hf|]. split; intros x [].
  - cbn [HitPairIter.emit]. unfold HitPairIter.Next.
    destruct (advance (start it)) as [j|] eqn:Ea; [|discriminate].
    destruct (emit n j) as [[l1 k]|] eqn:Ee; [|discriminate].
    intros [= <- <-].
    destruct (advance_from A B _ _ (start_from _ _ _ Hf) Ea)
      as (Hj & Ca & Cb).
    destruct (IH _ _ _ Hj Ee) as (Hk & La & Lb).
    split; [exact Hk|].
    rewrite first_hits_cons, second_hits_cons.
    split; intros x.
    + destruct (fst (fCurrent j)) as [y|] eqn:Ey; [|auto].
      intros [<-|Hx]; auto.
    + destruct (snd (fCurrent j)) as [y|] eqn:Ey; [|auto].
      intros [<-|Hx]; auto.
Qed.

(** X4.  Only hits of the collections are published, each on its own
    side: a first component is a hit of collection A, a second component
    a hit of collection B. *)
Theorem published_from_collections (A B : list Hit) (d : Dist) (n : nat)
        (l : list (ObjectPair Hit)) (it : iter) :
  emit n (init A B d) = Some (l, it) ->
  (forall a, In a (first_hits l) -> In a A)
  /\ (forall b, In b (second_hits l) -> In b B).
Proof.
  intros H. eapply emit_from; [|exact H].
  unfold from_collections, init; cbn. repeat split; auto; discriminate.
Qed.

(** ** The order of the first components *)

Lemma runs_snoc_new (s o : list Hit) (a : Hit) :
  runs s o -> runs (s ++ [a]) (o ++ [a]).
Proof.
  induction 1; cbn.
  - apply runs_first. apply runs_nil.
  - now apply runs_first.
  - now apply runs_again.
Qed.

Lemma runs_nil_inv (o : list Hit) : runs [] o -> o = [].
Proof. now inversion 1. Qed.

Lemma runs_snoc_again (s o : list Hit) (a : Hit) :
  runs (s ++ [a]) o -> runs (s ++ [a]) (o ++ [a]).
Proof.
  remember (s ++ [a]) as s' eqn:Es. intros H. revert s Es.
  induction H as [|x s0 o0 H IH|x s0 o0 H IH]; intros s Es.
  - destruct s; discriminate.
  - destruct s as [|y s1]; cbn in Es; injection Es as -> ->.
    + apply runs_nil_inv in H. subst o0. cbn.
      apply runs_again. apply runs_first. apply runs_nil.
    + cbn. apply runs_first. exact (IH s1 eq_refl).
  - cbn. apply runs_again. exact (IH s Es).
Qed.

Lemma runs_extend (pre0 out : list Hit) (a : Hit) :
  runs pre0 out \/ runs (pre0 ++ [a]) out ->
  runs (pre0 ++ [a]) (out ++ [a]).
Proof.
  intros [H|H]; [now apply runs_snoc_new|now apply runs_snoc_again].
Qed.

(** What a call of [Next()] does on the side of A: either the cursor
    and the lookahead stay and the lookahead or nothing is shown, or the
    lookahead is shown and replaced by the next hit of A. *)
Lemma advance_A_side (it it' : iter) :
  advance it = Some it' ->
  (fIterA it' = fIterA it /\ fst (fNext it') = fst (fNext it)
   /\ (fst (fCurrent it') = fst (fNext it) \/ fst (fCurrent it') = None))
  \/ (TIterator.Next (fIterA it) = (fst (fNext it'), fIterA it')
      /\ fst (fCurrent it') = fst (fNext it)
      /\ fst (fNext it) <> None).
Proof.
  unfold HitPairIter.advance.
  destruct (fNext it) as [[x|] [y|]].
  - destruct (Compare x y (fMaxDist it) =? -1).
    { destruct (TIterator.Next (fIterA it)); intros [= <-]; cbn.
      right; repeat split; auto; discriminate. }
    destruct (Compare x y (fMaxDist it) =? 1).
    { destruct (TIterator.Next (fIterB it)); intros [= <-]; cbn; auto. }
    destruct (TIterator.Next (fIterB it)) as [nextB itB].
    destruct (match nextB with
              | Some nb => Compare x nb (fMaxDist it) <? 0
              | None => true end).
    + destruct (fScanning it).
      * destruct (TIterator.Next (fIterA it)) as [[a'|] rA].
        -- destruct (skipB _ _ _ _ _) as [[hB l']|]; [|discriminate].
           intros [= <-]; cbn. right; repeat split; auto; discriminate.
        -- intros [= <-]; cbn. right; repeat split; auto; discriminate.
      * destruct (TIterator.Next (fIterA it)).
        intros [= <-]; cbn. right; repeat split; auto; discriminate.
    + intros [= <-]; cbn; auto.
  - destruct (TIterator.Next (fIterA it)); intros [= <-]; cbn.
    right; repeat split; auto; discriminate.
  - destruct (TIterator.Next (fIterB it)); intros [= <-]; cbn; auto.
  - intros [= <-]; cbn; auto.
Qed.

Lemma advance_order (A : list Hit) (it it' : iter) (out : list Hit) :
  order_inv A it out -> advance it = Some it' ->
  order_inv A it' (out ++ first_hits [fCurrent it']).
Proof.
  intros (pre & HA & Hn) Ha.
  unfold order_inv. rewrite first_hits_cons. change (first_hits []) with (@nil Hit).
  destruct (advance_A_side _ _ Ha) as [(E1 & E2 & E3)|(E1 & E2 & E3)].
  - rewrite E1, E2. exists pre. split; [exact HA|].
    destruct E3 as [E3|E3]; rewrite E3.
    + destruct (fst (fNext it)) as [a|]; cbn.
      * destruct Hn as (pre0 & -> & Hr). exists pre0. split; [reflexivity|].
        right. now apply runs_extend.
      * now rewrite app_nil_r.
    + cbn. now rewrite app_nil_r.
  - rewrite E2.
    destruct (fst (fNext it)) as [a|]; [|congruence]. cbn.
    destruct Hn as (pre0 & -> & Hr).
    apply runs_extend in Hr.
    destruct (fIterA it) as [|a' rA]; cbn [TIterator.Next] in E1;
      injection E1 as <- <-.
    + exists (pre0 ++ [a]). auto.
    + exists ((pre0 ++ [a]) ++ [a']). split.
      * now rewrite <- (app_assoc _ [a'] rA).
      * eauto.
Qed.

Lemma emit_order (A : list Hit) (n : nat) :
  forall (it it' : iter) (out : list Hit) (l : list (ObjectPair Hit)),
    fStarted it = true -> order_inv A it out ->
    emit n it = Some (l, it') ->
    order_inv A it' (out ++ first_hits l)
    /\ (fNext it = (None, None) \/ In (None, None) l ->
        fNext it' = (None, None)).
Proof.
  induction n as [|n IH]; intros it it' out l Hs Ho.
  - intros [= <- <-]. unfold first_hits; cbn. rewrite app_nil_r.
    split; [exact Ho|]. intros [H|[]]; exact H.
  - cbn [HitPairIter.emit].
    rewrite (HitPairIterFacts.Next_started Hit Hit_eq_dec Dist Compare it Hs).
    destruct (advance it) as [j|] eqn:Ea; [|discriminate].
    destruct (emit n j) as [[l1 k]|] eqn:Ee; [|discriminate].
    intros [= <- <-].
    pose proof (advance_order A _ _ out Ho Ea) as Hj.
    assert (Hsj : fStarted j = true)
      by (rewrite (advance_started _ _ Ea); exact Hs).
    destruct (IH _ _ _ _ Hsj Hj Ee) as (Hk & Hend).
    split.
    + rewrite first_hits_cons in *. change (first_hits []) with (@nil Hit) in Hk.
      destruct (fst (fCurrent j));
        rewrite <- ?app_assoc, ?app_nil_r in Hk; exact Hk.
    + intros H. apply Hend.
      assert (Hj0 : fNext it = (None, None) -> fNext j = (None, None)).
      { intros Hn. revert Ea. unfold HitPairIter.advance. rewrite Hn.
        now intros [= <-]. }
      destruct H as [H|[H|H]]; auto.
      left. apply Hj0.
      now destruct (advance_done _ _ Ea H).
Qed.

(** X5.  The hits of A are published in the order of the collection and
    none is taken up again later: at any time the first components
    published so far go through a front part of A, each hit shown once
    or several times in a row (once for every hit of B it is paired
    with); when the all-absent pair has been published they have gone
    through all of A. *)
Theorem first_hits_in_order (A B : list Hit) (d : Dist) (n : nat)
        (l : list (ObjectPair Hit)) (it : iter) :
  emit n (init A B d) = Some (l, it) ->
  exists pre post,
    A = pre ++ post
    /\ runs pre (first_hits l)
    /\ (In (None, None) l -> post = []).
Proof.
  destruct n as [|n].
  - intros [= <- <-]. exists [], A. repeat split; [constructor|intros []].
  - rewrite <- (HitPairIterFacts.emit_start Hit Hit_eq_dec Dist Compare).
    intros H.
    destruct (emit_order A (S n) (start (init A B d)) it [] l) as (Ho & He);
      [apply start_started| |exact H|].
    { unfold order_inv, start, init; cbn.
      destruct A as [|a A]; destruct (TIterator.Next B); cbn.
      - exists []. repeat split. constructor.
      - exists [a]. split; [reflexivity|]. exists []. split; [reflexivity|].
        left. constructor. }
    cbn [app] in Ho. destruct Ho as (pre & HA & Hn).
    destruct (fst (fNext it)) as [a|] eqn:Ef.
    + destruct Hn as (pre0 & -> & [Hr|Hr]).
      * exists pre0, ([a] ++ fIterA it). rewrite app_assoc.
        repeat split; auto. intros Hin.
        rewrite He in Ef by auto. discriminate.
      * exists (pre0 ++ [a]), (fIterA it). repeat split; auto.
        intros Hin. rewrite He in Ef by auto. discriminate.
    + destruct Hn as (Hnil & Hr). exists pre, (fIterA it). auto.
Qed.

(** ** How long the iteration lasts *)

Lemma ends_within (A B : list Hit) (d : Dist) (w : nat) :
  forall (EA EB : Hit -> Prop) (it : iter),
    inv A B d EA EB it -> (weight B it <= w)%nat ->
    exists n l it',
      (n <= w)%nat
      /\ emit n it = Some (l, it')
      /\ fNext it' = (None, None) /\ fStarted it' = true
      /\ forall e, In e l -> e <> (None, None).
Proof.
  induction w as [|w IH]; intros EA EB it Hi Hw.
  - exists 0%nat, [], it.
    split; [lia|]. split; [reflexivity|]. split.
    { unfold weight in Hw.
      destruct (fNext it) as [[a|] [b|]]; cbn in Hw; try lia. reflexivity. }
    split; [apply (inv_started _ _ _ _ _ _ _ _ Hi)|intros e []].
  - destruct (fNext it) as [[a|] [b|]] eqn:Hn.
    4: { exists 0%nat, [], it.
         split; [lia|]. split; [reflexivity|]. split; [exact Hn|].
         split; [apply (inv_started _ _ _ _ _ _ _ _ Hi)|intros e []]. }
    all: destruct (HitPairIterFacts.advance_inv Hit Hit_eq_dec Dist Compare
                     A B d EA EB it Hi) as (j & Ea & Hj);
      assert (Hne : fNext it <> (None, None)) by (rewrite Hn; discriminate);
      pose proof (HitPairIterFacts.advance_weight Hit Hit_eq_dec Dist Compare
                    A B d _ _ _ _ it j Hi Hj Ea Hne) as Hlt;
      pose proof (HitPairIterFacts.advance_current Hit Hit_eq_dec Dist Compare
                    it j Ea Hne) as Hc;
      destruct (IH _ _ j Hj) as (n & l & it' & Hle & Ee & H1 & H2 & H3);
      [lia|];
      exists (S n), (fCurrent j :: l), it';
      (split; [lia|]); split;
      [ cbn [HitPairIter.emit];
        rewrite (HitPairIterFacts.Next_started Hit Hit_eq_dec Dist Compare it
                   (inv_started _ _ _ _ _ _ _ _ Hi));
        rewrite Ea, Ee; reflexivity
      | split; [exact H1|]; split; [exact H2|];
        intros e [<-|He]; auto ].
Qed.

(** X6.  The iteration over collections of [a] and [b] hits ends after at
    most [a * (b + 2) + b] pairs: within that many calls of [Next()],
    counted from the one the constructor makes, every call succeeds and
    publishes a pair that is not all-absent, and the call after them
    publishes the all-absent pair. *)
Theorem iteration_bound (A B : list Hit) (d : Dist) :
  exists n l it,
    (n <= length A * (length B + 2) + length B)%nat
    /\ emit (S n) (init A B d) = Some (l ++ [(None, None)], it)
    /\ forall e, In e l -> e <> (None, None).
Proof.
  destruct (ends_within A B d (length A * (length B + 2) + length B)
              _ _ _ (HitPairIterFacts.inv_start Hit Dist A B d))
    as (n & l & it' & Hle & Ee & H1 & H2 & H3).
  { unfold weight, start, init; cbn.
    destruct A as [|a A], B as [|b B]; cbn; lia. }
  destruct (done_stays 1 it' H2 H1) as (it2 & E2 & _).
  cbn [HitPairIter.emit] in E2.
  destruct (Next it') as [j|] eqn:En; [|discriminate].
  injection E2 as Ec <-.
  exists n, l, j. repeat split; auto.
  rewrite <- (HitPairIterFacts.emit_start Hit Hit_eq_dec Dist Compare).
  rewrite (HitPairIterFacts.emit_snoc Hit Hit_eq_dec Dist Compare
             n _ it' j l Ee En).
  now rewrite Ec.
Qed.

(** ** One side empty *)

Lemma only_A (r : list Hit) :
  forall (it : iter) (a : Hit),
    fStarted it = true -> fNext it = (Some a, None) -> fIterA it = r ->
    published (S (S (length r))) it
    = Some (map (fun x => (Some x, None)) (a :: r) ++ [(None, None)]).
Proof.
  unfold HitPairIterOps.published.
  induction r as [|a' r IH]; intros it a Hs Hn Hr.
  - cbn [HitPairIter.emit length].
    rewrite (HitPairIterFacts.Next_started Hit Hit_eq_dec Dist Compare it Hs).
    unfold HitPairIter.advance at 1. rewrite Hn, Hr. cbn [TIterator.Next].
    unfold HitPairIter.Next, start; cbn. rewrite Hs. reflexivity.
  - change (emit (S (S (length (a' :: r)))) it) with
      (match Next it with
       | None => None
       | Some j => match emit (S (S (length r))) j with
                   | None => None
                   | Some (l, j2) => Some (fCurrent j :: l, j2)
                   end
       end).
    rewrite (HitPairIterFacts.Next_started Hit Hit_eq_dec Dist Compare it Hs).
    unfold HitPairIter.advance at 1. rewrite Hn, Hr. cbn [TIterator.Next].
    match goal with |- context [emit _ ?j] =>
      specialize (IH j a' Hs eq_refl eq_refl) end.
    destruct (emit (S (S (length r))) _) as [[l j2]|]; [|discriminate].
    cbn in IH |- *. injection IH as ->. reflexivity.
Qed.

Lemma only_B (r : list Hit) :
  forall (it : iter) (b : Hit),
    fStarted it = true -> fNext it = (None, Some b) -> fIterB it = r ->
    published (S (S (length r))) it
    = Some (map (fun x => (None, Some x)) (b :: r) ++ [(None, None)]).
Proof.
  unfold HitPairIterOps.published.
  induction r as [|b' r IH]; intros it b Hs Hn Hr.
  - cbn [HitPairIter.emit length].
    rewrite (HitPairIterFacts.Next_started Hit Hit_eq_dec Dist Compare it Hs).
    unfold HitPairIter.advance at 1. rewrite Hn, Hr. cbn [TIterator.Next].
    unfold HitPairIter.Next, start; cbn. rewrite Hs. reflexivity.
  - change (emit (S (S (length (b' :: r)))) it) with
      (match Next it with
       | None => None
       | Some j => match emit (S (S (length r))) j with
                   | None => None
                   | Some (l, j2) => Some (fCurrent j :: l, j2)
                   end
       end).
    rewrite (HitPairIterFacts.Next_started Hit Hit_eq_dec Dist Compare it Hs).
    unfold HitPairIter.advance at 1. rewrite Hn, Hr. cbn [TIterator.Next].
    match goal with |- context [emit _ ?j] =>
      specialize (IH j b' Hs eq_refl eq_refl) end.
    destruct (emit (S (S (length r))) _) as [[l j2]|]; [|discriminate].
    cbn in IH |- *. injection IH as ->. reflexivity.
Qed.

(** X7.  With one collection empty (or null) the hits of the other one
    are published one by one, in the order of the collection, each with
    the other side absent, and then the all-absent pair; [Hit::Compare]
    is not called. *)
Theorem one_side_empty (A B : list Hit) (d : Dist) :
  published (S (length A)) (init A [] d)
  = Some (map (fun x => (Some x, None)) A ++ [(None, None)])
  /\ published (S (length B)) (init [] B d)
     = Some (map (fun x => (None, Some x)) B ++ [(None, None)]).
Proof.
  split.
  - destruct A as [|a r]; [reflexivity|].
    unfold HitPairIterOps.published.
    rewrite <- (HitPairIterFacts.emit_start Hit Hit_eq_dec Dist Compare).
    now apply only_A.
  - destruct B as [|b r]; [reflexivity|].
    unfold HitPairIterOps.published.
    rewrite <- (HitPairIterFacts.emit_start Hit Hit_eq_dec Dist Compare).
    now apply only_B.
Qed.

End Facts.

End HitPairIterMore.

(* ===================================================================== *)
(** * HitSet: the plane pattern, and the loop of IsSimilarTo as a set
      intersection *)

Module HitSetMore.

Import HitSet HitSetOps.

Section Facts.

Variable Hit : Type.
Variable comp : Hit -> Hit -> bool.
Variable GetPlaneNum : Hit -> Z.

Local Abbreviation inter := (HitSet.merge_intersection comp).
Local Abbreviation mask := (HitSet.GetMatchValue GetPlaneNum).
Local Abbreviation same_key := (HitSetOps.same_key comp).
Local Abbreviation common := (HitSetOps.common comp).
Local Abbreviation sorted := (HitSetOps.sorted comp).

(** ** The plane pattern *)

Lemma plane_bit_range (k : Z) : 0 <= plane_bit k < 2 ^ 32.
Proof. unfold plane_bit, wrap32. apply Z.mod_pos_bound. lia. Qed.

Lemma lor_range (a b : Z) :
  0 <= a < 2 ^ 32 -> 0 <= b < 2 ^ 32 -> 0 <= Z.lor a b < 2 ^ 32.
Proof.
  intros Ha Hb. split; [apply Z.lor_nonneg; lia|].
  destruct (Z.eq_dec (Z.lor a b) 0) as [->|Hne]; [lia|].
  apply Z.log2_lt_pow2; [pose proof (Z.lor_nonneg a b); lia|].
  rewrite Z.log2_lor by lia.
  apply Z.max_lub_lt.
  - destruct (Z.eq_dec a 0) as [->|]; [cbn; lia|].
    apply Z.log2_lt_pow2; lia.
  - destruct (Z.eq_dec b 0) as [->|]; [cbn; lia|].
    apply Z.log2_lt_pow2; lia.
Qed.

Lemma fold_range (l : list Hit) :
  forall pat, 0 <= pat < 2 ^ 32 ->
    0 <= fold_left (fun curpat h => Z.lor curpat (plane_bit (GetPlaneNum h)))
           l pat < 2 ^ 32.
Proof.
  induction l as [|h l IH]; intros pat Hp; cbn [fold_left]; [exact Hp|].
  apply IH. apply lor_range; [exact Hp|apply plane_bit_range].
Qed.

(** X8.  [GetMatchValue] is the plane occupancy pattern: for hits in
    planes 0 to 31 (the planes for which [1U << plane] is defined), bit
    [p] of the result is set exactly when a hit of the set lies in plane
    [p], and the result fits 32 bits. *)
Theorem GetMatchValue_bits (hs : list Hit) :
  (forall h, In h hs -> 0 <= GetPlaneNum h < 32) ->
  0 <= GetMatchValue GetPlaneNum hs < 2 ^ 32
  /\ forall p, Z.testbit (GetMatchValue GetPlaneNum hs) p = true
               <-> exists h, In h hs /\ GetPlaneNum h = p.
Proof.
  intros Hr. unfold GetMatchValue. split; [apply fold_range; lia|].
  intros p. split.
  - intros H.
    destruct (HitSetFacts.fold_testbit Hit GetPlaneNum hs 0 p H) as [H0|H0];
      [|exact H0].
    rewrite Z.bits_0 in H0. discriminate.
  - intros (h & Hh & <-).
    apply (HitSetFacts.fold_sets Hit GetPlaneNum); auto.
Qed.

(** ** The merge loop on sorted sets *)

Lemma inter_nil_r (l : list Hit) : inter l [] = [].
Proof. destruct l; reflexivity. Qed.

Lemma inter_cons (h y : Hit) (ih it : list Hit) :
  inter (h :: ih) (y :: it)
  = if comp y h then inter (h :: ih) it
    else if comp h y then inter ih (y :: it)
         else y :: inter ih it.
Proof. reflexivity. Qed.

Lemma same_key_sym (x y : Hit) : same_key x y = same_key y x.
Proof. unfold HitSetOps.same_key. apply andb_comm. Qed.

Lemma before_not_same (x y : Hit) : comp x y = true -> same_key x y = false.
Proof. intros H. unfold HitSetOps.same_key. now rewrite H. Qed.

Lemma common_skip (h : Hit) (ih it : list Hit) :
  (forall y, In y it -> same_key h y = false) ->
  common (h :: ih) it = common ih it.
Proof.
  intros H. unfold HitSetOps.common. apply filter_ext_in.
  intros y Hy. cbn [existsb]. now rewrite (H y Hy).
Qed.

Section Sorted.

Hypothesis Hsw : strict_weak comp.

Lemma inter_common_eq (ih : list Hit) :
  forall it, sorted ih -> sorted it -> inter ih it = common ih it.
Proof.
  destruct Hsw as [Hirr Htr Heq].
  induction ih as [|h ih IHo]; intros it Hsi Hst.
  - unfold HitSetOps.common. destruct it; cbn; [reflexivity|].
    clear. induction it; cbn; auto.
  - destruct Hsi as [Hh Hsi].
    induction it as [|y it IHi]; [now rewrite inter_nil_r|].
    destruct Hst as [Hy Hst].
    rewrite inter_cons.
    destruct (comp y h) eqn:Cyh.
    + (* y sorts before every hit of this *)
      rewrite (IHi Hst). unfold HitSetOps.common at 2. cbn [List.filter].
      replace (existsb (fun h0 => same_key h0 y) (h :: ih)) with false;
        [reflexivity|].
      symmetry. apply not_true_is_false. intros Hex.
      apply existsb_exists in Hex. destruct Hex as (h' & Hin & Hk).
      rewrite same_key_sym in Hk.
      assert (comp y h' = true) as C.
      { destruct Hin as [<-|Hin]; [exact Cyh|].
        apply (Htr _ h); auto. }
      rewrite (before_not_same _ _ C) in Hk. discriminate.
    + destruct (comp h y) eqn:Chy.
      * (* h sorts before every hit of try that is left *)
        rewrite (IHo (y :: it) Hsi (conj Hy Hst)).
        symmetry. apply common_skip.
        intros y' [<-|Hin]; apply before_not_same; auto.
        apply (Htr _ y); auto.
      * (* the same key *)
        rewrite (IHo it Hsi Hst).
        unfold HitSetOps.common at 2. cbn [List.filter existsb].
        unfold HitSetOps.same_key at 1. rewrite Cyh, Chy. cbn.
        f_equal. symmetry. apply common_skip.
        intros y' Hin.
        destruct (same_key h y') eqn:K; [|reflexivity].
        assert (same_key y y' = true) as K2.
        { apply (Heq _ h); [|exact K].
          unfold HitSetOps.same_key. now rewrite Cyh, Chy. }
        rewrite (before_not_same _ _ (Hy y' Hin)) in K2. discriminate.
Qed.

(** X9.  On sets in the iteration order of a [std::set], the loop of
    [IsSimilarTo] computes the plane pattern of the set intersection:
    the pattern it compares with [tryset.plane_pattern] is that of the
    hits of [tryset] whose key occurs in [this]. *)
Theorem IsSimilarTo_intersection (this tryset : HitSet.t Hit) :
  sorted (hits this) -> sorted (hits tryset) ->
  IsSimilarTo comp GetPlaneNum this tryset
  = if plane_pattern tryset =? 0 then None
    else Some (plane_pattern tryset
               =? mask (common (hits this) (hits tryset))).
Proof.
  intros H1 H2. unfold IsSimilarTo.
  rewrite (HitSetFacts.walk_fold Hit comp GetPlaneNum).
  rewrite (inter_common_eq _ _ H1 H2). reflexivity.
Qed.

(** X10.  [IsSimilarTo] accepts what [std::includes] accepts: when every
    hit of [tryset] has its key in [this] and the cached pattern of
    [tryset] is the one [GetMatchValue] computes, the answer is true.  In
    particular a set is similar to itself. *)
Theorem includes_is_similar (this tryset : HitSet.t Hit) :
  sorted (hits this) -> sorted (hits tryset) ->
  plane_pattern tryset = mask (hits tryset) ->
  plane_pattern tryset <> 0 ->
  (forall y, In y (hits tryset) ->
             exists h, In h (hits this) /\ same_key h y = true) ->
  IsSimilarTo comp GetPlaneNum this tryset = Some true.
Proof.
  intros H1 H2 Hp Hnz Hinc. unfold IsSimilarTo.
  rewrite (HitSetFacts.walk_fold Hit comp GetPlaneNum).
  rewrite (inter_common_eq _ _ H1 H2).
  apply Z.eqb_neq in Hnz. rewrite Hnz. f_equal.
  change (fold_left _ ?l 0) with (mask l).
  replace (common (hits this) (hits tryset)) with (hits tryset).
  - rewrite Hp. apply Z.eqb_refl.
  - unfold HitSetOps.common. symmetry.
    apply forallb_filter_id. apply forallb_forall.
    intros y Hy. apply existsb_exists.
    destruct (Hinc y Hy) as (h & Hh & K). eauto.
Qed.

End Sorted.

End Facts.

End HitSetMore.

(* ===================================================================== *)
(** * ChildIter: what the iteration shows *)

Module ChildIterMore.

Import GeneratorInv ChildIterOps.

Lemma scan_S (k : nat) (it : ChildIter.t) :
  ChildIter.scan (S k) it
  = match candidate (ChildIter.fParent it) (Z.of_nat k) with
    | None =>
        ChildIter.scan k
          {| ChildIter.fParent := ChildIter.fParent it;
             ChildIter.fChild :=
               ChildIter.raw (ChildIter.fParent it) (Z.of_nat k);
             ChildIter.fCount := Z.of_nat k;
             ChildIter.fType := ChildIter.fType it |}
    | Some (c, ty) =>
        {| ChildIter.fParent := ChildIter.fParent it;
           ChildIter.fChild := c;
           ChildIter.fCount := Z.of_nat k;
           ChildIter.fType := ty |}
    end.
Proof.
  cbn [ChildIter.scan]. unfold candidate.
  destruct (_ >? _); [reflexivity|].
  destruct (ChildIter.minbit _ =? 0);
    destruct (Pattern.GetWidth _ <? 0); reflexivity.
Qed.

Lemma scan_parent (k : nat) :
  forall it, ChildIter.fParent (ChildIter.scan k it) = ChildIter.fParent it.
Proof.
  induction k as [|k IH]; intros it; [reflexivity|].
  rewrite scan_S. destruct (candidate _ _) as [[c ty]|]; [reflexivity|].
  now rewrite IH.
Qed.

Lemma incr_scan (k : nat) (it : ChildIter.t) :
  ChildIter.fCount it = Z.of_nat k ->
  ChildIter.incr it = ChildIter.scan k it.
Proof.
  intros H. unfold ChildIter.incr. rewrite H.
  destruct k as [|k].
  - reflexivity.
  - replace (Z.of_nat (S k) >? 0) with true by (symmetry; apply Z.gtb_lt; lia).
    now rewrite Nat2Z.id.
Qed.

Lemma selectors_S (k : nat) : selectors (S k) = Z.of_nat k :: selectors k.
Proof.
  unfold selectors. rewrite seq_S, rev_app_distr. reflexivity.
Qed.

Lemma omap_cons {A B : Type} (f : A -> option B) (x : A) (l : list A) :
  omap f (x :: l)
  = match f x with Some y => y :: omap f l | None => omap f l end.
Proof. reflexivity. Qed.

Lemma make_scan (parent : list Z) :
  ChildIter.make parent
  = ChildIter.scan (Z.to_nat (2 ^ Z.of_nat (length parent)))
      {| ChildIter.fParent := parent; ChildIter.fChild := parent;
         ChildIter.fCount := Z.shiftl 1 (Pattern.GetNbits parent);
         ChildIter.fType := 0 |}.
Proof.
  unfold ChildIter.make. apply incr_scan. cbn [ChildIter.fCount].
  unfold Pattern.GetNbits. rewrite Z.shiftl_1_l, Z2Nat.id; [reflexivity|].
  apply Z.pow_nonneg. lia.
Qed.

Lemma length_omap_le {A B : Type} (f : A -> option B) (l : list A) :
  (length (omap f l) <= length l)%nat.
Proof.
  induction l as [|x l IH]; [cbn; lia|].
  rewrite omap_cons. destruct (f x); cbn [length]; lia.
Qed.

Lemma scan16_S (k : nat) (it : ChildIter.t) :
  ChildIter16.scan (S k) it
  = match ChildIter16.candidate (ChildIter.fParent it) (Z.of_nat k) with
    | None =>
        ChildIter16.scan k
          {| ChildIter.fParent := ChildIter.fParent it;
             ChildIter.fChild :=
               map ChildIter16.wrap16
                 (ChildIter.raw (ChildIter.fParent it) (Z.of_nat k));
             ChildIter.fCount := Z.of_nat k;
             ChildIter.fType := ChildIter.fType it |}
    | Some (c, ty) =>
        {| ChildIter.fParent := ChildIter.fParent it;
           ChildIter.fChild := c;
           ChildIter.fCount := Z.of_nat k;
           ChildIter.fType := ty |}
    end.
Proof.
  cbn [ChildIter16.scan]. unfold ChildIter16.candidate, ChildIter16.pass.
  destruct (_ >? _); [reflexivity|].
  destruct (ChildIter.minbit _ =? 0);
    destruct (Pattern.GetWidth _ <? 0); reflexivity.
Qed.

Lemma incr16_scan (k : nat) (it : ChildIter.t) :
  ChildIter.fCount it = Z.of_nat k ->
  ChildIter16.incr it = ChildIter16.scan k it.
Proof.
  intros H. unfold ChildIter16.incr. rewrite H.
  destruct k as [|k].
  - reflexivity.
  - replace (Z.of_nat (S k) >? 0) with true by (symmetry; apply Z.gtb_lt; lia).
    now rewrite Nat2Z.id.
Qed.

Lemma drain16_scan (k : nat) :
  forall (it : ChildIter.t) (fuel : nat),
    (k < fuel)%nat ->
    ChildIter16.drain fuel (ChildIter16.scan k it)
    = omap (ChildIter16.candidate (ChildIter.fParent it)) (selectors k).
Proof.
  induction k as [|k IH]; intros it fuel Hf.
  - destruct fuel; [lia|]. reflexivity.
  - rewrite scan16_S, selectors_S, omap_cons.
    destruct (ChildIter16.candidate (ChildIter.fParent it) (Z.of_nat k))
      as [[c ty]|].
    + destruct fuel as [|fuel]; [lia|].
      cbn [ChildIter16.drain]. unfold ChildIter.valid at 1.
      cbn [ChildIter.fCount].
      replace (Z.of_nat k >=? 0) with true by (symmetry; apply Z.geb_le; lia).
      cbn [ChildIter.fChild ChildIter.fType]. f_equal.
      rewrite (incr16_scan k) by reflexivity.
      rewrite IH by lia. reflexivity.
    + rewrite IH by lia. reflexivity.
Qed.

Lemma make16_scan (parent : list Z) :
  ChildIter16.make parent
  = ChildIter16.scan (Z.to_nat (2 ^ Z.of_nat (length parent)))
      {| ChildIter.fParent := parent; ChildIter.fChild := parent;
         ChildIter.fCount := Z.shiftl 1 (Pattern.GetNbits parent);
         ChildIter.fType := 0 |}.
Proof.
  unfold ChildIter16.make. apply incr16_scan. cbn [ChildIter.fCount].
  unfold Pattern.GetNbits. rewrite Z.shiftl_1_l, Z2Nat.id; [reflexivity|].
  apply Z.pow_nonneg. lia.
Qed.

(** X11.  The loop [while( it ) { ...; ++it; }] over the children of a
    parent with [N] bins, run on 16-bit bins as the code has them, goes
    through the selectors [2^N - 1] down to 0 and shows, in this order,
    the result of the loop body for every selector that is not dropped;
    these are at most [2^N] children, and [reset()] starts the same
    iteration again. *)
Theorem ChildIter_enumerates (parent : list Z) (more : nat) :
  let n := Z.to_nat (2 ^ Z.of_nat (length parent)) in
  ChildIter16.drain (S n + more) (ChildIter16.make parent)
  = omap (ChildIter16.candidate parent) (selectors n)
  /\ (length (ChildIter16.drain (S n + more) (ChildIter16.make parent))
      <= n)%nat
  /\ forall it, ChildIter.fParent it = parent ->
       ChildIter16.drain (S n + more) (ChildIter16.reset it)
       = ChildIter16.drain (S n + more) (ChildIter16.make parent).
Proof.
  intros n.
  assert (E : ChildIter16.drain (S n + more) (ChildIter16.make parent)
              = omap (ChildIter16.candidate parent) (selectors n)).
  { rewrite make16_scan. fold n. rewrite drain16_scan by lia. reflexivity. }
  split; [exact E|]. split.
  - rewrite E. etransitivity; [apply length_omap_le|].
    unfold selectors. rewrite length_map, length_rev, length_seq. lia.
  - intros it Hp. rewrite E. unfold ChildIter16.reset.
    rewrite (incr16_scan n).
    + rewrite drain16_scan by lia. cbn [ChildIter.fParent]. now rewrite Hp.
    + cbn [ChildIter.fCount]. rewrite Hp. unfold Pattern.GetNbits, n.
      rewrite Z.shiftl_1_l, Z2Nat.id; [reflexivity|].
      apply Z.pow_nonneg. lia.
Qed.

(** ** From a child back to its bins *)

Lemma hd_map (f : Z -> Z) (l : list Z) (d d' : Z) :
  l <> [] -> List.hd d' (map f l) = f (List.hd d l).
Proof. destruct l; [congruence|reflexivity]. Qed.






(** ** The first and the last child *)

Lemma imap_eq_map (g : Z -> Z) (l : list Z) :
  forall f : nat -> Z -> Z,
    (forall i x, (i < length l)%nat -> f i x = g x) ->
    imap f l = map g l.
Proof.
  induction l as [|x l IH]; intros f H; [reflexivity|].
  cbn. rewrite (H 0%nat) by (cbn; lia). f_equal.
  apply IH. intros i y Hi. apply H. cbn. lia.
Qed.

Lemma raw_zero (parent : list Z) :
  ChildIter.raw parent 0 = map (fun b => 2 * b) parent.
Proof.
  unfold ChildIter.raw. apply imap_eq_map. intros i x _.
  rewrite Z.land_0_l. cbn. rewrite Z.shiftl_mul_pow2 by lia. lia.
Qed.

Lemma raw_ones (parent : list Z) :
  ChildIter.raw parent (2 ^ Z.of_nat (length parent) - 1)
  = map (fun b => 2 * b + 1) parent.
Proof.
  unfold ChildIter.raw. apply imap_eq_map. intros i x Hi.
  rewrite Z.shiftl_1_l.
  replace (2 ^ Z.of_nat (length parent) - 1)
    with (Z.ones (Z.of_nat (length parent)))
    by (rewrite Z.ones_equiv; lia).
  rewrite Z.land_comm, Z.land_ones by lia.
  rewrite Z.mod_small.
  - replace (2 ^ Z.of_nat i =? 0) with false.
    + rewrite Z.shiftl_mul_pow2 by lia. lia.
    + symmetry. apply Z.eqb_neq.
      pose proof (Z.pow_pos_nonneg 2 (Z.of_nat i)). lia.
  - split; [apply Z.pow_nonneg; lia|].
    apply Z.pow_lt_mono_r; lia.
Qed.

Lemma minbit_lb (c : Z) (l : list Z) :
  c <= 1 -> (forall x, In x l -> c <= x) -> c <= ChildIter.minbit l.
Proof.
  intros Hc. unfold ChildIter.minbit.
  induction l as [|x l IH]; intros H; cbn; [exact Hc|].
  apply Z.min_glb; [apply H; now left|]. apply IH. intros y Hy. apply H.
  now right.
Qed.

Lemma maxbit_ub (c : Z) (l : list Z) :
  0 <= c -> (forall x, In x l -> x <= c) -> ChildIter.maxbit l <= c.
Proof.
  intros Hc. unfold ChildIter.maxbit.
  induction l as [|x l IH]; intros H; cbn; [exact Hc|].
  apply Z.max_lub; [apply H; now left|]. apply IH. intros y Hy. apply H.
  now right.
Qed.

Lemma canonical_nonempty (p : list Z) : canonical p -> p <> [].
Proof. intros [H _] ->. discriminate H. Qed.

Lemma canonical_last (p : list Z) : canonical p -> 0 <= List.last p 0.
Proof.
  intros Hc. pose proof (canonical_nonempty p Hc) as Hne.
  destruct Hc as [_ Hb].
  apply (Hb (List.last p 0)). now apply ChildIterFacts.last_In.
Qed.

Lemma canonical_hd (p : list Z) : canonical p -> List.hd 0 p = 0.
Proof. intros [H _]. destruct p; [discriminate H|exact H]. Qed.

Lemma In_map_inv (f : Z -> Z) (l : list Z) (y : Z) :
  In y (map f l) -> exists x, In x l /\ y = f x.
Proof.
  intros H. apply in_map_iff in H. destruct H as (x & <- & Hx). eauto.
Qed.

(** ** 16-bit bins and unbounded bins *)

Lemma wrap16_small (x : Z) : 0 <= x < 2 ^ 16 -> ChildIter16.wrap16 x = x.
Proof. intros H. unfold ChildIter16.wrap16. now apply Z.mod_small. Qed.

Lemma map_wrap16_small (f : Z -> Z) (l : list Z) :
  (forall x, In x l -> 0 <= f x < 2 ^ 16) ->
  map (fun b => ChildIter16.wrap16 (f b)) l = map f l.
Proof.
  intros H. apply map_ext_in. intros x Hx. apply wrap16_small. auto.
Qed.

Lemma Forall2_doubled_range (p c : list Z) :
  Forall2 doubled p c -> ChildIter16.fits15 p ->
  forall x, In x c -> 0 <= x < 2 ^ 16.
Proof.
  induction 1 as [|a b p c Hab HF IH]; intros Hp x; [intros []|].
  intros [<-|Hx].
  - assert (0 <= a < 2 ^ 15) by (apply Hp; now left).
    destruct Hab; lia.
  - apply IH; [|exact Hx]. intros y Hy. apply Hp. now right.
Qed.

Lemma raw_fits16 (parent : list Z) (count : Z) :
  ChildIter16.fits15 parent ->
  map ChildIter16.wrap16 (ChildIter.raw parent count)
  = ChildIter.raw parent count.
Proof.
  intros Hp. rewrite <- (map_id (ChildIter.raw parent count)) at 2.
  apply map_ext_in. intros x Hx. apply wrap16_small.
  apply (Forall2_doubled_range parent (ChildIter.raw parent count));
    [apply ChildIterFacts.raw_doubled|exact Hp|exact Hx].
Qed.

(** With parent bins below [2^15] no store to [fChild] cuts anything
    off: a pass of the loop body gives what it gives on unbounded bins. *)
Lemma candidate_agree (parent : list Z) (count : Z) :
  ChildIter16.fits15 parent ->
  ChildIter16.candidate parent count = candidate parent count.
Proof.
  intros Hp. unfold ChildIter16.candidate, ChildIter16.pass, candidate.
  rewrite (raw_fits16 parent count Hp).
  set (bits := ChildIter.raw parent count).
  assert (Hr : forall x, In x bits -> 0 <= x < 2 ^ 16).
  { apply (Forall2_doubled_range parent); [|exact Hp].
    apply ChildIterFacts.raw_doubled. }
  destruct (_ >? _) eqn:A; [reflexivity|].
  rewrite Z.gtb_ltb in A. apply Z.ltb_ge in A.
  pose proof (ChildIterFacts.minbit_le bits) as [Hm1 Hm2].
  pose proof (ChildIterFacts.maxbit_ge bits) as [HM1 HM2].
  assert (Hm0 : 0 <= ChildIter.minbit bits).
  { apply ChildIterFacts.minbit_ge. intros x Hx. apply Hr in Hx. lia. }
  assert (E1 : (if ChildIter.minbit bits =? 0 then (0, bits)
                else (1, map (fun b => ChildIter16.wrap16 (b - 1)) bits))
               = (if ChildIter.minbit bits =? 0 then (0, bits)
                  else (1, map (fun b => b - 1) bits))).
  { destruct (Z.eqb_spec (ChildIter.minbit bits) 0) as [|Hne]; [reflexivity|].
    f_equal. apply map_wrap16_small. intros x Hx.
    specialize (Hm2 x Hx). specialize (Hr x Hx). lia. }
  rewrite E1.
  destruct (if ChildIter.minbit bits =? 0 then (0, bits)
            else (1, map (fun b => b - 1) bits)) as [ty child1] eqn:S1.
  assert (Hc1 : forall x, In x child1 ->
                  0 <= x <= ChildIter.maxbit bits - ChildIter.minbit bits).
  { destruct (Z.eqb_spec (ChildIter.minbit bits) 0) as [E0|Hne];
      injection S1 as <- <-; intros x Hx.
    - specialize (HM2 x Hx). specialize (Hr x Hx). lia.
    - apply in_map_iff in Hx. destruct Hx as (y & <- & Hy).
      specialize (HM2 y Hy). specialize (Hm2 y Hy). lia. }
  assert (Hw : Z.abs (Pattern.GetWidth bits) < 2 ^ 16).
  { unfold Pattern.GetWidth. destruct bits as [|b0 bs] eqn:Eb; [cbn; lia|].
    assert (0 <= List.last (b0 :: bs) 0 < 2 ^ 16)
      by (apply Hr, ChildIterFacts.last_In; discriminate).
    assert (0 <= b0 < 2 ^ 16) by (apply Hr; now left).
    cbn [List.hd]. lia. }
  destruct (Pattern.GetWidth bits <? 0) eqn:W; [|reflexivity].
  apply Z.ltb_lt in W.
  rewrite map_wrap16_small; [reflexivity|].
  intros x Hx. specialize (Hc1 x Hx). lia.
Qed.

Lemma scan_agree (n : nat) :
  forall it : ChildIter.t,
    ChildIter16.fits15 (ChildIter.fParent it) ->
    ChildIter16.scan n it = ChildIter.scan n it.
Proof.
  induction n as [|k IH]; intros it Hp; [reflexivity|].
  rewrite scan16_S, scan_S, (candidate_agree _ _ Hp), (raw_fits16 _ _ Hp).
  destruct (candidate _ _) as [[c ty]|]; [reflexivity|].
  now apply IH.
Qed.

(** X31.  The bins of a pattern are 16-bit numbers.  As long as the
    bins of the parent are below [2^15], the child bins [2 * bin] and
    [2 * bin + 1] fit, the shift and the mirroring stay in range, and
    [ChildIter] on 16-bit bins makes the steps it makes on unbounded
    integers: the same result of every pass of the loop body, the same
    state after the constructor and after every [operator++]. *)
Theorem UShort_bins_agree (parent : list Z) :
  ChildIter16.fits15 parent ->
  (forall count,
      ChildIter16.candidate parent count = candidate parent count)
  /\ ChildIter16.make parent = ChildIter.make parent
  /\ forall it, ChildIter.fParent it = parent ->
       ChildIter16.incr it = ChildIter.incr it
       /\ ChildIter16.reset it = reset it.
Proof.
  intros Hp.
  assert (Hincr : forall it, ChildIter.fParent it = parent ->
                             ChildIter16.incr it = ChildIter.incr it).
  { intros it E. unfold ChildIter16.incr, ChildIter.incr.
    destruct (_ >? 0); [|reflexivity].
    apply scan_agree. now rewrite E. }
  split; [intros count; now apply candidate_agree|].
  split; [now apply Hincr|].
  intros it E. split; [now apply Hincr|].
  unfold ChildIter16.reset, reset. now apply Hincr.
Qed.

(** X13.  For a parent in canonical form with bins below [2^15], the
    loop body turns the selector with all bits set into the parent with
    every bin doubled, marked as shifted (type 1), and the selector 0
    into the same pattern with type 0.  So the first child that
    [ChildIter] shows and the last one are the parent itself at double
    resolution; for the all-zero root this child is the root. *)
Theorem doubled_parent_first_and_last (parent : list Z) :
  canonical parent -> ChildIter16.fits15 parent ->
  ChildIter16.candidate parent (2 ^ Z.of_nat (length parent) - 1)
  = Some (map (fun b => 2 * b) parent, 1)
  /\ ChildIter16.candidate parent 0 = Some (map (fun b => 2 * b) parent, 0)
  /\ ChildIter.fChild (ChildIter16.make parent)
     = map (fun b => 2 * b) parent
  /\ ChildIter.fType (ChildIter16.make parent) = 1
  /\ ChildIter.fCount (ChildIter16.make parent)
     = 2 ^ Z.of_nat (length parent) - 1.
Proof.
  intros Hc Hfit.
  pose proof (canonical_nonempty _ Hc) as Hne.
  pose proof (canonical_last _ Hc) as Hlast.
  pose proof (canonical_hd _ Hc) as Hhd.
  destruct Hc as [_ Hb].
  assert (C1 : candidate parent (2 ^ Z.of_nat (length parent) - 1)
               = Some (map (fun b => 2 * b) parent, 1)).
  { unfold candidate. rewrite raw_ones.
    set (c := map (fun b => 2 * b + 1) parent).
    assert (Hw : Pattern.GetWidth c = 2 * List.last parent 0).
    { unfold Pattern.GetWidth, c.
      rewrite (ChildIterFacts.last_map_nonempty _ _ 0 0) by exact Hne.
      rewrite (hd_map _ _ 0 0) by exact Hne. lia. }
    assert (Hmin : 1 <= ChildIter.minbit c).
    { apply minbit_lb; [lia|]. intros y Hy.
      destruct (In_map_inv _ _ _ Hy) as (x & Hx & ->).
      specialize (Hb x Hx). lia. }
    assert (Hmax : ChildIter.maxbit c <= 2 * List.last parent 0 + 1).
    { apply maxbit_ub; [lia|]. intros y Hy.
      destruct (In_map_inv _ _ _ Hy) as (x & Hx & ->).
      specialize (Hb x Hx). lia. }
    rewrite Hw.
    replace (_ >? _) with false
      by (symmetry; rewrite Z.gtb_ltb; apply Z.ltb_ge; lia).
    replace (ChildIter.minbit c =? 0) with false
      by (symmetry; apply Z.eqb_neq; lia).
    replace (2 * List.last parent 0 <? 0) with false
      by (symmetry; apply Z.ltb_ge; lia).
    unfold c. rewrite map_map. do 2 f_equal.
    apply map_ext. intros x. lia. }
  assert (C0 : candidate parent 0 = Some (map (fun b => 2 * b) parent, 0)).
  { unfold candidate. rewrite raw_zero.
    set (c := map (fun b => 2 * b) parent).
    assert (Hw : Pattern.GetWidth c = 2 * List.last parent 0).
    { unfold Pattern.GetWidth, c.
      rewrite (ChildIterFacts.last_map_nonempty _ _ 0 0) by exact Hne.
      rewrite (hd_map _ _ 0 0) by exact Hne. lia. }
    assert (Hmin : ChildIter.minbit c = 0).
    { assert (0 <= ChildIter.minbit c).
      { apply minbit_lb; [lia|]. intros y Hy.
        destruct (In_map_inv _ _ _ Hy) as (x & Hx & ->).
        specialize (Hb x Hx). lia. }
      assert (ChildIter.minbit c <= 0); [|lia].
      apply (proj2 (ChildIterFacts.minbit_le c)).
      unfold c. destruct parent as [|x r]; [congruence|].
      cbn in Hhd. subst x. now left. }
    assert (Hmax : ChildIter.maxbit c <= 2 * List.last parent 0).
    { apply maxbit_ub; [lia|]. intros y Hy.
      destruct (In_map_inv _ _ _ Hy) as (x & Hx & ->).
      specialize (Hb x Hx). lia. }
    rewrite Hw, Hmin.
    replace (_ >? _) with false
      by (symmetry; rewrite Z.gtb_ltb; apply Z.ltb_ge; lia).
    replace (2 * List.last parent 0 <? 0) with false
      by (symmetry; apply Z.ltb_ge; lia).
    reflexivity. }
  rewrite <- (candidate_agree parent _ Hfit) in C1.
  rewrite <- (candidate_agree parent _ Hfit) in C0.
  split; [exact C1|]. split; [exact C0|].
  rewrite make16_scan.
  assert (Hn : Z.to_nat (2 ^ Z.of_nat (length parent))
               = S (Z.to_nat (2 ^ Z.of_nat (length parent) - 1))).
  { pose proof (Z.pow_pos_nonneg 2 (Z.of_nat (length parent))). lia. }
  rewrite Hn, scan16_S. cbn [ChildIter.fParent].
  rewrite Z2Nat.id
    by (pose proof (Z.pow_pos_nonneg 2 (Z.of_nat (length parent))); lia).
  rewrite C1. auto.
Qed.

(** The selector [count] is dropped when the last bin of a canonical
    parent is too large to be doubled in 16 bits: [maxbit] is taken
    from the [Int_t], the width from the bins cut to 16 bits. *)
Lemma wrapped_dropped (parent : list Z) (count : Z) :
  canonical parent -> 2 ^ 15 <= List.last parent 0 < 2 ^ 16 ->
  ChildIter16.candidate parent count = None.
Proof.
  intros Hc Hl. unfold ChildIter16.candidate, ChildIter16.pass.
  set (bits := ChildIter.raw parent count).
  destruct (ChildIterFacts.doubled_facts parent bits Hc
              (ChildIterFacts.raw_doubled parent count))
    as (_ & Hne & Hpos & Hhd & Hlast).
  pose proof (ChildIterFacts.minbit_le bits) as [Hm1 _].
  pose proof (ChildIterFacts.maxbit_ge bits) as [_ HM].
  specialize (HM _ (ChildIterFacts.last_In bits 0 Hne)).
  replace (_ >? _) with true; [reflexivity|].
  symmetry. unfold Pattern.GetWidth.
  rewrite (ChildIterFacts.last_map_nonempty _ _ 0 0) by exact Hne.
  rewrite (hd_map _ _ 0 0) by exact Hne.
  assert (E0 : ChildIter16.wrap16 (List.hd 0 bits) = List.hd 0 bits)
    by (apply wrap16_small; lia).
  assert (E1 : ChildIter16.wrap16 (List.last bits 0)
               = List.last bits 0 - 2 ^ 16).
  { unfold ChildIter16.wrap16. symmetry.
    apply (Z.mod_unique _ _ 1); lia. }
  rewrite E0, E1. apply Z.gtb_lt. lia.
Qed.

(** X32.  Where 16 bits are not enough the tree stops growing: for a
    parent in canonical form whose last bin is [2^15] or more, every
    selector is dropped by the test of line 63, since [maxbit] comes
    from the [Int_t] value and the width from the bins as stored.  The
    constructor leaves the iterator invalid and the loop
    [while( it )] shows no child. *)
Theorem wrapped_parent_shows_no_child (parent : list Z) (fuel : nat) :
  canonical parent -> 2 ^ 15 <= List.last parent 0 < 2 ^ 16 ->
  (forall count, ChildIter16.candidate parent count = None)
  /\ ChildIter.valid (ChildIter16.make parent) = false
  /\ ChildIter16.drain fuel (ChildIter16.make parent) = [].
Proof.
  intros Hc Hl.
  assert (Hnone : forall count, ChildIter16.candidate parent count = None)
    by (intros count; now apply wrapped_dropped).
  assert (Hscan : forall k it, ChildIter.fParent it = parent ->
                    ChildIter.fCount (ChildIter16.scan k it) = -1).
  { induction k as [|k IH]; intros it E; [reflexivity|].
    rewrite scan16_S, E, Hnone. now apply IH. }
  assert (Hv : ChildIter.valid (ChildIter16.make parent) = false).
  { unfold ChildIter.valid. rewrite make16_scan, Hscan; reflexivity. }
  split; [exact Hnone|]. split; [exact Hv|].
  destruct fuel; [reflexivity|]. cbn [ChildIter16.drain]. now rewrite Hv.
Qed.


(** ** The states the loop over the candidates goes through *)

Lemma scan_shows (k : nat) :
  forall it : ChildIter.t,
    0 <= ChildIter.fCount (ChildIter.scan k it) ->
    candidate (ChildIter.fParent it) (ChildIter.fCount (ChildIter.scan k it))
    = Some (ChildIter.fChild (ChildIter.scan k it),
            ChildIter.fType (ChildIter.scan k it))
    /\ ChildIter.fCount (ChildIter.scan k it) < Z.of_nat k.
Proof.
  induction k as [|k IH]; intros it.
  - cbn. lia.
  - rewrite scan_S.
    destruct (candidate (ChildIter.fParent it) (Z.of_nat k)) as [[c ty]|] eqn:E.
    + cbn. intros _. split; [exact E|lia].
    + intros H. destruct (IH _ H) as [H1 H2]. cbn [ChildIter.fParent] in H1.
      split; [exact H1|lia].
Qed.

Lemma reach_inv (parent : list Z) (it : ChildIter.t) :
  reach parent it ->
  ChildIter.fParent it = parent
  /\ ChildIter.fCount it < 2 ^ Z.of_nat (length parent)
  /\ (0 <= ChildIter.fCount it ->
      candidate parent (ChildIter.fCount it)
      = Some (ChildIter.fChild it, ChildIter.fType it)).
Proof.
  assert (Hpow : 0 < 2 ^ Z.of_nat (length parent))
    by (apply Z.pow_pos_nonneg; lia).
  induction 1 as [|it Hr (Hp & Hlt & Hc) Hv].
  - rewrite make_scan. rewrite scan_parent. cbn [ChildIter.fParent].
    split; [reflexivity|].
    match goal with |- context [ChildIter.scan ?k ?i] =>
      pose proof (scan_shows k i) as Hs end.
    cbn [ChildIter.fParent] in Hs.
    destruct (Z_lt_ge_dec
                (ChildIter.fCount
                   (ChildIter.scan (Z.to_nat (2 ^ Z.of_nat (length parent)))
                      {| ChildIter.fParent := parent;
                         ChildIter.fChild := parent;
                         ChildIter.fCount :=
                           Z.shiftl 1 (Pattern.GetNbits parent);
                         ChildIter.fType := 0 |})) 0) as [Hneg|Hpos].
    + split; [lia|]. intros; lia.
    + destruct (Hs ltac:(lia)) as [H1 H2]. split; [lia|]. intros _. exact H1.
  - unfold ChildIter.valid in Hv. apply Z.geb_le in Hv.
    rewrite (incr_scan (Z.to_nat (ChildIter.fCount it))) by lia.
    rewrite scan_parent. split; [exact Hp|].
    pose proof (scan_shows (Z.to_nat (ChildIter.fCount it)) it) as Hs.
    rewrite Hp in Hs.
    destruct (Z_lt_ge_dec
                (ChildIter.fCount
                   (ChildIter.scan (Z.to_nat (ChildIter.fCount it)) it)) 0)
      as [Hneg|Hpos].
    + split; [lia|]. intros; lia.
    + destruct (Hs ltac:(lia)) as [H1 H2]. split; [lia|]. intros _. exact H1.
Qed.

(** What a valid iterator shows is the result of the loop body for a
    selector below [2^N]. *)
Lemma reach_candidate (parent : list Z) (it : ChildIter.t) :
  reach parent it -> ChildIter.valid it = true ->
  exists count,
    0 <= count < 2 ^ Z.of_nat (length parent)
    /\ candidate parent count
       = Some (ChildIter.fChild it, ChildIter.fType it).
Proof.
  intros Hr Hv. destruct (reach_inv _ _ Hr) as (_ & Hlt & Hc).
  unfold ChildIter.valid in Hv. apply Z.geb_le in Hv.
  exists (ChildIter.fCount it). split; [lia|]. apply Hc. lia.
Qed.

End ChildIterMore.

(* ===================================================================== *)
(** * PatternGenerator: the steps of the build and what they preserve *)

Module GeneratorMore.

Import Pattern PatternGenerator GeneratorInv GeneratorProps ChildIterOps.

(** ** What a successful call did *)

Lemma update_inv (p : nat) (f : Pattern.t -> Pattern.t) (g g' : t) :
  update p f g = Ok g' ->
  exists pat, heap g !! p = Some pat
              /\ g' = set_heap (<[p := f pat]> (heap g)) g.
Proof.
  unfold update. destruct (heap g !! p) as [pat|]; [|discriminate].
  intros [= <-]. eauto.
Qed.

Lemma deref_inv (g : t) (p : nat) (pat : Pattern.t) :
  deref g p = Ok pat -> heap g !! p = Some pat.
Proof.
  unfold deref. destruct (heap g !! p); [|discriminate]. now intros [= <-].
Qed.

Lemma insert_lookup_same (h : list Pattern.t) (p : nat) (x pat : Pattern.t) :
  h !! p = Some pat -> <[p := x]> h !! p = Some x.
Proof. intros H. apply list_lookup_insert_eq. eapply lookup_lt_Some, H. Qed.

Lemma insert_lookup_cases (h : list Pattern.t) (p a : nat)
      (x pat pa : Pattern.t) :
  h !! p = Some pat -> <[p := x]> h !! a = Some pa ->
  (a = p /\ pa = x) \/ (a <> p /\ h !! a = Some pa).
Proof.
  intros Hp. destruct (Nat.eq_dec a p) as [->|Hne].
  - rewrite (insert_lookup_same _ _ _ _ Hp). intros [= <-]. now left.
  - rewrite list_lookup_insert_ne by congruence. now right.
Qed.

Lemma find_chain_sound (g : t) (bits : list Z) (chain : list Link) (a : nat) :
  find_chain g bits chain = Ok (Some a) ->
  exists pa, heap g !! a = Some pa /\ fBits pa = bits.
Proof.
  induction chain as [|ln chain IH]; cbn [find_chain]; [discriminate|].
  unfold deref. destruct (heap g !! GetPattern ln) as [rhs|] eqn:E;
    cbn [bind]; [|discriminate].
  destruct (bool_decide (bits = fBits rhs)) eqn:B; [|exact IH].
  intros [= <-]. apply bool_decide_eq_true in B. eauto.
Qed.

Section Steps.

Variable Hash : list Z -> Z.
Variable mindepth0 : Z.

Local Abbreviation Find := (PatternGenerator.Find Hash).
Local Abbreviation AddHash := (PatternGenerator.AddHash Hash).
Local Abbreviation consider := (PatternGenerator.consider Hash mindepth0).
Local Abbreviation candidates :=
  (PatternGenerator.candidates Hash mindepth0).
Local Abbreviation MakeChildNodes :=
  (PatternGenerator.MakeChildNodes Hash mindepth0).
Local Abbreviation Generate := (PatternGenerator.Generate Hash mindepth0).

Lemma Find_sound (g : t) (bits : list Z) (a : nat) :
  Find bits g = Ok (Some a) ->
  exists pa, heap g !! a = Some pa /\ fBits pa = bits.
Proof.
  unfold PatternGenerator.Find. destruct (_ =? 0); [discriminate|].
  destruct (fHashTable g !! _); [|discriminate]. apply find_chain_sound.
Qed.

(** The table that [AddHash] works on: the one at hand, or a new one of
    [1 << (fNlevels-1)] empty chains. *)
Lemma AddHash_inv (a : nat) (g g2 : t) :
  AddHash a g = Ok g2 ->
  exists (pat : Pattern.t) (tbl : list (list Link)),
    heap g !! a = Some pat
    /\ tbl = (if (length (fHashTable g) =? 0)%nat
              then replicate (Z.to_nat (Z.shiftl 1 (fNlevels g - 1))) []
              else fHashTable g)
    /\ (0 < length tbl)%nat
    /\ g2 = set_table
              (alter (fun head => mkLink a 0 :: head)
                     (bucket Hash (Z.of_nat (length tbl)) (fBits pat)) tbl) g.
Proof.
  unfold PatternGenerator.AddHash.
  set (tbl := if (length (fHashTable g) =? 0)%nat then _ else _).
  destruct (Z.of_nat (length tbl) =? 0) eqn:E; [discriminate|].
  unfold deref. destruct (heap g !! a) as [pat|]; cbn [bind]; [|discriminate].
  intros [= <-]. exists pat, tbl. repeat split; auto.
  apply Z.eqb_neq in E. lia.
Qed.

(** The state after a new pattern has been created and hashed. *)
Lemma alloc_inv (bits : list Z) (g g2 : t) :
  AddHash (length (heap g)) (snd (new_Pattern mindepth0 bits g)) = Ok g2 ->
  heap g2 = heap g ++ [{| fBits := bits; fChild := [];
                          fMinDepth := mindepth0 |}]
  /\ fNlevels g2 = fNlevels g /\ fNplanes g2 = fNplanes g
  /\ fMaxSlope g2 = fMaxSlope g /\ fZ g2 = fZ g
  /\ exists tbl,
       tbl = (if (length (fHashTable g) =? 0)%nat
              then replicate (Z.to_nat (Z.shiftl 1 (fNlevels g - 1))) []
              else fHashTable g)
       /\ (0 < length tbl)%nat
       /\ fHashTable g2
          = alter (fun head => mkLink (length (heap g)) 0 :: head)
                  (bucket Hash (Z.of_nat (length tbl)) bits) tbl.
Proof.
  intros H. apply AddHash_inv in H.
  destruct H as (pat & tbl & Hp & Ht & Hl & ->).
  unfold new_Pattern in *. cbn [snd heap set_heap fHashTable fNlevels] in *.
  rewrite list_lookup_middle in Hp by reflexivity. injection Hp as <-.
  cbn. repeat split; auto. exists tbl. auto.
Qed.

(** ** A principle for the invariants of the build

    A property of the generator that the three steps of the build keep
    (lowering [fMinDepth], linking a pattern that exists, creating and
    linking a new pattern) is kept by [MakeChildNodes].  The steps on a
    candidate know the iterator that shows it, and that the child list
    of the parent was empty when the loop over the candidates began. *)

Section Principle.

Variable P : t -> Prop.

(** The least depth of the calls of [MakeChildNodes] considered. *)
Variable dmin : Z.

Hypothesis P_used :
  forall (g : t) (p : nat) (pat : Pattern.t) (d : Z),
    P g -> heap g !! p = Some pat ->
    P (set_heap (<[p := UsedAtDepth d pat]> (heap g)) g).

Hypothesis P_link :
  forall (g : t) (parent : nat) (pp : Pattern.t) (n : nat) (pn : Pattern.t)
         (it : ChildIter.t),
    P g -> heap g !! parent = Some pp -> heap g !! n = Some pn ->
    reach (fBits pp) it -> ChildIter.valid it = true ->
    fBits pn = ChildIter.fChild it ->
    (exists gs ps, P gs /\ heap gs !! parent = Some ps /\ fChild ps = []) ->
    P (set_heap (<[parent := AddChild n (ChildIter.fType it) pp]> (heap g))
                g).

Hypothesis P_new :
  forall (g : t) (parent : nat) (pp : Pattern.t) (it : ChildIter.t)
         (depth : Z) (g2 : t),
    dmin <= depth < fNlevels g ->
    P g -> heap g !! parent = Some pp ->
    reach (fBits pp) it -> ChildIter.valid it = true ->
    Find (ChildIter.fChild it) g = Ok None ->
    TestSlope g (ChildIter.fChild it) depth = true ->
    LineCheck g (ChildIter.fChild it) = Ok true ->
    AddHash (length (heap g))
      (snd (new_Pattern mindepth0 (ChildIter.fChild it) g)) = Ok g2 ->
    (exists gs ps, P gs /\ heap gs !! parent = Some ps /\ fChild ps = []) ->
    P (set_heap (<[parent := AddChild (length (heap g))
                               (ChildIter.fType it) pp]> (heap g2)) g2).

Lemma consider_preserves (g g' : t) (parent : nat) (depth : Z)
      (pp : Pattern.t) (it : ChildIter.t) :
  dmin <= depth < fNlevels g ->
  P g -> heap g !! parent = Some pp ->
  reach (fBits pp) it -> ChildIter.valid it = true ->
  (exists gs ps, P gs /\ heap gs !! parent = Some ps /\ fChild ps = []) ->
  consider g parent depth (ChildIter.fChild it) (ChildIter.fType it)
  = Ok g' ->
  P g' /\ fNlevels g' = fNlevels g
  /\ exists pp', heap g' !! parent = Some pp' /\ fBits pp' = fBits pp.
Proof.
  intros Hdep HP Hpar Hr Hv Hst. unfold PatternGenerator.consider.
  destruct (Find (ChildIter.fChild it) g) as [[n|]| |] eqn:EF;
    cbn [bind]; try discriminate.
  - unfold deref. destruct (heap g !! n) as [pn|] eqn:En; cbn [bind];
      [|discriminate].
    destruct (_ || _).
    + intros Hu. apply update_inv in Hu. destruct Hu as (pat & Hp' & ->).
      rewrite Hpar in Hp'. injection Hp' as <-.
      split; [|split; [reflexivity|]].
      * apply P_link with (pn := pn); auto.
        destruct (Find_sound _ _ _ EF) as (pa & Ha & Hb). congruence.
      * eexists. split; [eapply insert_lookup_same; eauto|reflexivity].
    + intros [= <-]. eauto.
  - destruct (TestSlope g (ChildIter.fChild it) depth) eqn:ET;
      [|intros [= <-]; eauto].
    destruct (LineCheck g (ChildIter.fChild it)) as [[|]| |] eqn:EL;
      cbn [bind]; try discriminate; [|intros [= <-]; eauto].
    change (new_Pattern mindepth0 (ChildIter.fChild it) g)
      with (length (heap g),
            snd (new_Pattern mindepth0 (ChildIter.fChild it) g)).
    cbv iota.
    destruct (AddHash _ _) as [g2| |] eqn:EA; cbn [bind]; try discriminate.
    intros Hu. apply update_inv in Hu. destruct Hu as (pat & Hp' & ->).
    destruct (alloc_inv _ _ _ EA) as (Hh & HL & _).
    assert (pat = pp) as ->.
    { rewrite Hh, lookup_app_l in Hp' by (eapply lookup_lt_Some; eauto).
      congruence. }
    split; [|split; [exact HL|]].
    + eapply P_new; eauto.
    + eexists. split; [eapply insert_lookup_same; eauto|reflexivity].
Qed.

Lemma candidates_preserves (parent : nat) (depth : Z) (fuel : nat) :
  forall (it : ChildIter.t) (g g' : t) (pp : Pattern.t),
    dmin <= depth < fNlevels g ->
    P g -> heap g !! parent = Some pp -> reach (fBits pp) it ->
    (exists gs ps, P gs /\ heap gs !! parent = Some ps /\ fChild ps = []) ->
    candidates fuel g parent depth it = Ok g' ->
    P g'.
Proof.
  induction fuel as [|fuel IH]; intros it g g' pp Hdep HP Hpar Hr Hst;
    cbn [PatternGenerator.candidates];
    destruct (ChildIter.valid it) eqn:Hv; try discriminate;
    try (now intros [= <-]).
  destruct (consider g parent depth _ _) as [g1| |] eqn:Ec; cbn [bind];
    try discriminate.
  destruct (consider_preserves _ _ _ _ _ _ Hdep HP Hpar Hr Hv Hst Ec)
    as (HP1 & HL1 & pp1 & Hpar1 & Hb).
  apply (IH _ _ _ pp1); [rewrite HL1; exact Hdep|exact HP1|exact Hpar1|
                         |exact Hst].
  rewrite Hb. now apply reach_incr.
Qed.

Lemma descend_preserves (recurse : t -> nat -> Z -> res t) (depth : Z) :
  (forall g p g', P g -> recurse g p (depth + 1) = Ok g' -> P g') ->
  forall (ln : list Link) (g g' : t),
    P g -> descend recurse depth ln g = Ok g' -> P g'.
Proof.
  intros Hrec. induction ln as [|l ln IH]; intros g g' HP; cbn [descend].
  - now intros [= <-].
  - destruct (deref g (GetPattern l)) as [node| |]; cbn [bind];
      try discriminate.
    destruct (match fChild node with
              | [] => recurse g (GetPattern l) (depth + 1)
              | _ :: _ => if fMinDepth node >? depth
                          then recurse g (GetPattern l) (depth + 1)
                          else Ok g
              end) as [g1| |] eqn:E; cbn [bind]; try discriminate.
    apply IH.
    destruct (fChild node); [eapply Hrec; eauto|].
    destruct (fMinDepth node >? depth); [eapply Hrec; eauto|].
    now injection E as <-.
Qed.

Lemma MakeChildNodes_preserves (fuel : nat) :
  forall (g g' : t) (parent : nat) (depth : Z),
    dmin <= depth ->
    P g -> MakeChildNodes fuel g parent depth = Ok g' -> P g'.
Proof.
  induction fuel as [|fuel IH]; intros g g' parent depth Hdmin HP;
    [discriminate|].
  cbn [PatternGenerator.MakeChildNodes].
  destruct (if depth >? 0 then update parent (UsedAtDepth (depth - 1)) g
            else Ok g) as [g1| |] eqn:E1; cbn [bind]; try discriminate.
  assert (HP1 : P g1).
  { destruct (depth >? 0); [|now injection E1 as <-].
    apply update_inv in E1. destruct E1 as (pat & Hp & ->).
    now apply P_used. }
  destruct (depth >=? fNlevels g1) eqn:Hlev; [now intros [= <-]|].
  assert (Hdep : dmin <= depth < fNlevels g1).
  { rewrite Z.geb_leb in Hlev. apply Z.leb_gt in Hlev. lia. }
  destruct (deref g1 parent) as [par| |] eqn:Ed; cbn [bind];
    try discriminate.
  apply deref_inv in Ed.
  destruct (match fChild par with
            | [] => candidates (S fuel) g1 parent depth
                      (ChildIter.make (fBits par))
            | _ :: _ => Ok g1
            end) as [g2| |] eqn:E2; cbn [bind]; try discriminate.
  assert (HP2 : P g2).
  { destruct (fChild par) eqn:Ech; [|now injection E2 as <-].
    eapply candidates_preserves; [exact Hdep|exact HP1|exact Ed|
                                  apply reach_make| |exact E2].
    exists g1, par. auto. }
  destruct (deref g2 parent) as [par2| |]; cbn [bind]; try discriminate.
  apply descend_preserves; [|exact HP2].
  intros h p h' Hh. apply IH; [lia|exact Hh].
Qed.

End Principle.

(** What [Generate] does on an empty generator, when it returns a tree. *)
Lemma Generate_inv (fuel : nat) (p : PatternTree.TreeParam_t) (g : t)
      (tree : PatternTree.t) :
  Generate fuel ctor p = Ok (g, Some tree) ->
  exists (pn : PatternTree.TreeParam_t) (g2 : t),
    PatternTree.Normalize p = Some pn
    /\ AddHash 0%nat
         (snd (new_Pattern mindepth0
                 (replicate (length (PatternTree.zpos pn)) 0)
                 {| fNlevels := PatternTree.maxdepth pn + 1;
                    fNplanes := Z.of_nat (length (PatternTree.zpos pn));
                    fMaxSlope := PatternTree.maxslope pn;
                    fZ := PatternTree.zpos pn;
                    fHashTable := []; heap := [] |})) = Ok g2
    /\ MakeChildNodes fuel g2 0%nat 1 = Ok g
    /\ tree = {| PatternTree.params := pn;
                 PatternTree.nPatterns := nPatterns (CalcStatistics g);
                 PatternTree.nLinks := nLinks (CalcStatistics g) |}.
Proof.
  unfold PatternGenerator.Generate.
  destruct (PatternTree.Normalize p) as [pn|]; [|discriminate].
  cbn [fNplanes ctor fHashTable heap]. rewrite Nat2Z.id.
  unfold new_Pattern at 1. cbn [heap length].
  destruct (AddHash _ _) as [g2| |] eqn:E2; cbn [bind]; try discriminate.
  destruct (MakeChildNodes fuel g2 0%nat 1) as [g3| |] eqn:E3; cbn [bind];
    try discriminate.
  intros [= <- <-]. exists pn, g2. repeat split; auto.
Qed.

(** What [Generate] builds on an empty generator has the properties that
    hold of the root alone and that the steps of the build keep. *)
Lemma build_establishes (P : t -> Prop) (p : PatternTree.TreeParam_t)
      (fuel : nat) :
  (forall (g : t) (p : nat) (pat : Pattern.t) (d : Z),
      P g -> heap g !! p = Some pat ->
      P (set_heap (<[p := UsedAtDepth d pat]> (heap g)) g)) ->
  (forall (g : t) (parent : nat) (pp : Pattern.t) (n : nat) (pn : Pattern.t)
          (it : ChildIter.t),
      P g -> heap g !! parent = Some pp -> heap g !! n = Some pn ->
      reach (fBits pp) it -> ChildIter.valid it = true ->
      fBits pn = ChildIter.fChild it ->
      (exists gs ps, P gs /\ heap gs !! parent = Some ps /\ fChild ps = []) ->
      P (set_heap (<[parent := AddChild n (ChildIter.fType it) pp]> (heap g))
                  g)) ->
  (forall (g : t) (parent : nat) (pp : Pattern.t) (it : ChildIter.t)
          (depth : Z) (g2 : t),
      1 <= depth < fNlevels g ->
      P g -> heap g !! parent = Some pp ->
      reach (fBits pp) it -> ChildIter.valid it = true ->
      Find (ChildIter.fChild it) g = Ok None ->
      TestSlope g (ChildIter.fChild it) depth = true ->
      LineCheck g (ChildIter.fChild it) = Ok true ->
      AddHash (length (heap g))
        (snd (new_Pattern mindepth0 (ChildIter.fChild it) g)) = Ok g2 ->
      (exists gs ps, P gs /\ heap gs !! parent = Some ps /\ fChild ps = []) ->
      P (set_heap (<[parent := AddChild (length (heap g))
                                 (ChildIter.fType it) pp]> (heap g2)) g2)) ->
  (forall g0 g2 : t,
      heap g0 = [] -> fHashTable g0 = [] ->
      fNlevels g0 = PatternTree.maxdepth p + 1 ->
      1 <= PatternTree.maxdepth p ->
      AddHash 0%nat
        (snd (new_Pattern mindepth0
                (replicate (length (PatternTree.zpos p)) 0) g0)) = Ok g2 ->
      P g2) ->
  PatternTree.valid p = true ->
  (Z.to_nat (2 ^ Z.of_nat (length (PatternTree.zpos p)))
   + Z.to_nat (PatternTree.maxdepth p) + 1 <= fuel)%nat ->
  exists g tree,
    Generate fuel ctor p = Ok (g, Some tree)
    /\ P g
    /\ Inv Hash (length (PatternTree.zpos p)) g
    /\ PatternTree.nPatterns tree = nPatterns (CalcStatistics g)
    /\ PatternTree.nLinks tree = nLinks (CalcStatistics g).
Proof.
  intros Hu Hl Hn Hroot Hv Hfuel.
  destruct (GeneratorFacts.Generate_ok Hash mindepth0 p fuel Hv Hfuel)
    as (g & tree & E & I & _).
  exists g, tree. split; [exact E|].
  destruct (Generate_inv _ _ _ _ E) as (pn & g2 & Hnorm & E2 & E3 & ->).
  split; [|auto].
  apply (MakeChildNodes_preserves P 1 Hu Hl Hn fuel g2 g 0%nat 1);
    [lia| |exact E3].
  revert Hnorm E2. unfold PatternTree.Normalize. rewrite Hv. intros [= <-].
  cbn [PatternTree.zpos PatternTree.maxdepth PatternTree.maxslope].
  rewrite length_map. intros E2.
  eapply Hroot; [| | | |exact E2]; cbn; auto.
  destruct (GeneratorFacts.valid_facts p Hv). lia.
Qed.

End Steps.

End GeneratorMore.

(* ===================================================================== *)
(** * PatternGenerator: invariants of the build *)

Module GeneratorLaws.

Import Pattern PatternGenerator GeneratorInv GeneratorProps ChildIterOps.
Import GeneratorMore.

(** ** The shape of the heap after a step *)

Lemma set_shape (g : t) (p : nat) (pat x : Pattern.t) :
  heap g !! p = Some pat ->
  let g' := set_heap (<[p := x]> (heap g)) g in
  length (heap g') = length (heap g)
  /\ heap g' !! p = Some x
  /\ forall a pa', heap g' !! a = Some pa' ->
       (a = p /\ pa' = x) \/ (a <> p /\ heap g !! a = Some pa').
Proof.
  intros Hp g'. subst g'. cbn [heap set_heap]. split; [apply length_insert|].
  split; [eapply insert_lookup_same; eauto|].
  intros a pa'. now apply insert_lookup_cases with (pat := pat).
Qed.

Section Laws.

Variable Hash : list Z -> Z.
Variable mindepth0 : Z.

Local Abbreviation Find := (PatternGenerator.Find Hash).
Local Abbreviation AddHash := (PatternGenerator.AddHash Hash).
Local Abbreviation MakeChildNodes :=
  (PatternGenerator.MakeChildNodes Hash mindepth0).
Local Abbreviation Generate := (PatternGenerator.Generate Hash mindepth0).

Lemma new_shape (g g2 : t) (bits : list Z) (parent : nat)
      (pp x : Pattern.t) :
  heap g !! parent = Some pp ->
  AddHash (length (heap g)) (snd (new_Pattern mindepth0 bits g)) = Ok g2 ->
  let g' := set_heap (<[parent := x]> (heap g2)) g2 in
  length (heap g') = S (length (heap g))
  /\ heap g2 !! parent = Some pp
  /\ heap g' !! parent = Some x
  /\ (parent < length (heap g))%nat
  /\ forall a pa', heap g' !! a = Some pa' ->
       (a = parent /\ pa' = x)
       \/ (a <> parent /\ (a < length (heap g))%nat
           /\ heap g !! a = Some pa')
       \/ (a <> parent /\ a = length (heap g)
           /\ pa' = {| fBits := bits; fChild := [];
                       fMinDepth := mindepth0 |}).
Proof.
  intros Hp EA g'. subst g'.
  destruct (alloc_inv Hash mindepth0 _ _ _ EA) as (Hh & _).
  pose proof (lookup_lt_Some _ _ _ Hp) as Hlt.
  assert (Hp2 : heap g2 !! parent = Some pp)
    by (rewrite Hh, lookup_app_l by exact Hlt; exact Hp).
  cbn [heap set_heap].
  split; [rewrite length_insert, Hh, length_app; cbn; lia|].
  split; [exact Hp2|].
  split; [eapply insert_lookup_same; eauto|].
  split; [exact Hlt|].
  intros a pa' Ha.
  destruct (insert_lookup_cases _ _ _ _ _ _ Hp2 Ha) as [?|[Hne Ha']];
    [now left|right].
  rewrite Hh in Ha'. apply lookup_snoc_Some in Ha'.
  destruct Ha' as [[H1 H2]|[H1 H2]]; [left|right]; auto.
Qed.

(** ** Nothing is taken away or rewritten *)

Lemma grows_refl (g : t) : grows g g.
Proof.
  split.
  - intros a pa Ha. exists pa. repeat split; auto; [lia|]. now exists [].
  - intros k chain Hk. now exists [].
Qed.

Lemma grows_trans (g1 g2 g3 : t) : grows g1 g2 -> grows g2 g3 -> grows g1 g3.
Proof.
  intros [H1 T1] [H2 T2]. split.
  - intros a pa Ha.
    destruct (H1 a pa Ha) as (pa' & Ha' & Hb & Hm & more & Hc).
    destruct (H2 a pa' Ha') as (pa'' & Ha'' & Hb' & Hm' & more' & Hc').
    exists pa''. repeat split; auto; [congruence|lia|].
    exists (more' ++ more). rewrite Hc', Hc. apply List.app_assoc.
  - intros k chain Hk.
    destruct (T1 k chain Hk) as (more & Hk').
    destruct (T2 k _ Hk') as (more' & Hk'').
    exists (more' ++ more). rewrite Hk''. f_equal. apply List.app_assoc.
Qed.

Lemma grows_set (g : t) (p : nat) (pat x : Pattern.t) :
  heap g !! p = Some pat ->
  fBits x = fBits pat -> fMinDepth x <= fMinDepth pat ->
  (exists more, fChild x = more ++ fChild pat) ->
  grows g (set_heap (<[p := x]> (heap g)) g).
Proof.
  intros Hp Hb Hm Hc. split.
  - intros a pa Ha. cbn [heap set_heap].
    destruct (Nat.eq_dec a p) as [->|Hne].
    + rewrite (insert_lookup_same _ _ _ _ Hp).
      assert (pa = pat) as -> by congruence.
      exists x. auto.
    + rewrite list_lookup_insert_ne by congruence.
      exists pa. repeat split; auto; [lia|]. now exists [].
  - intros k chain Hk. exists []. exact Hk.
Qed.

Lemma grows_alloc (g g2 : t) (bits : list Z) :
  AddHash (length (heap g)) (snd (new_Pattern mindepth0 bits g)) = Ok g2 ->
  grows g g2.
Proof.
  intros EA.
  destruct (alloc_inv Hash mindepth0 _ _ _ EA)
    as (Hh & _ & _ & _ & _ & tbl & Ht & Hl & Htb).
  split.
  - intros a pa Ha. exists pa.
    rewrite Hh, lookup_app_l by (eapply lookup_lt_Some; eauto).
    repeat split; auto; [lia|]. now exists [].
  - intros k chain Hk. rewrite Htb.
    assert (tbl = fHashTable g) as ->.
    { rewrite Ht. pose proof (lookup_lt_Some _ _ _ Hk) as Hlt.
      destruct (length (fHashTable g)); [lia|reflexivity]. }
    destruct (Nat.eq_dec
                (bucket Hash (Z.of_nat (length (fHashTable g))) bits) k)
      as [->|Hne].
    + rewrite list_lookup_alter_eq, Hk. cbn. now exists [mkLink (length (heap g)) 0].
    + rewrite list_lookup_alter_ne by exact Hne. now exists [].
Qed.

Lemma UsedAtDepth_le (d : Z) (pat : Pattern.t) :
  fMinDepth (UsedAtDepth d pat) <= fMinDepth pat.
Proof. cbn. destruct (d <? fMinDepth pat) eqn:E; [apply Z.ltb_lt in E|]; lia. Qed.

Lemma grows_used (g : t) (p : nat) (pat : Pattern.t) (d : Z) :
  heap g !! p = Some pat ->
  grows g (set_heap (<[p := UsedAtDepth d pat]> (heap g)) g).
Proof.
  intros Hp. apply (grows_set _ _ pat); auto.
  - apply UsedAtDepth_le.
  - now exists [].
Qed.

Lemma grows_link (g : t) (p n : nat) (ty : Z) (pat : Pattern.t) :
  heap g !! p = Some pat ->
  grows g (set_heap (<[p := AddChild n ty pat]> (heap g)) g).
Proof.
  intros Hp. apply (grows_set _ _ pat); auto; [cbn; lia|].
  now exists [mkLink n ty].
Qed.

Lemma grows_new (g g2 : t) (bits : list Z) (parent n : nat) (ty : Z)
      (pp : Pattern.t) :
  heap g !! parent = Some pp ->
  AddHash (length (heap g)) (snd (new_Pattern mindepth0 bits g)) = Ok g2 ->
  grows g (set_heap (<[parent := AddChild n ty pp]> (heap g2)) g2).
Proof.
  intros Hp EA.
  destruct (new_shape _ _ _ _ _ (AddChild n ty pp) Hp EA) as (_ & Hp2 & _).
  eapply grows_trans; [eapply grows_alloc; eauto|].
  now apply grows_link.
Qed.

(** X19.  [MakeChildNodes] takes nothing away and rewrites nothing:
    every pattern stays where it is with the bins it has, its
    [fMinDepth] does not go up, its child list gets new links in front
    only, and so does every chain of the hash table. *)
Theorem MakeChildNodes_grows (fuel : nat) (g g' : t) (parent : nat)
        (depth : Z) :
  MakeChildNodes fuel g parent depth = Ok g' -> grows g g'.
Proof.
  apply (MakeChildNodes_preserves Hash mindepth0 (grows g) depth);
    [| | |lia|].
  - intros h p pat d Hg Hp. eapply grows_trans; [exact Hg|].
    now apply grows_used.
  - intros h parent0 pp n pn it Hg Hp _ _ _ _ _.
    eapply grows_trans; [exact Hg|]. now apply grows_link.
  - intros h parent0 pp it d g2 _ Hg Hp _ _ _ _ _ EA _.
    eapply grows_trans; [exact Hg|]. eapply grows_new; eauto.
  - apply grows_refl.
Qed.

(** ** A child list is made in one go *)

(** X20.  A child list is made in one go: [MakeChildNodes] fills the
    child list of a pattern only when it is empty, so a child list that
    is not empty when a call starts is the same when the call returns;
    in particular the list that the loop over the children walks is not
    changed by the recursive calls made from that loop. *)
Theorem MakeChildNodes_frozen (fuel : nat) (g g' : t) (parent : nat)
        (depth : Z) :
  MakeChildNodes fuel g parent depth = Ok g' -> frozen g g'.
Proof.
  apply (MakeChildNodes_preserves Hash mindepth0 (frozen g) depth);
    [| | |lia|].
  - intros h p pat d HF Hp a pa Ha Hne.
    destruct (HF a pa Ha Hne) as (pa' & Ha' & Hc).
    destruct (set_shape h p pat (UsedAtDepth d pat) Hp) as (_ & Hset & _).
    cbn [heap set_heap] in *.
    destruct (Nat.eq_dec a p) as [->|Hnp].
    + exists (UsedAtDepth d pat). split; [exact Hset|].
      cbn. congruence.
    + exists pa'. rewrite list_lookup_insert_ne by congruence. auto.
  - intros h parent0 pp n pn it HF Hp _ _ _ _ (gs & ps & HFs & Hps & He)
           a pa Ha Hne.
    destruct (HF a pa Ha Hne) as (pa' & Ha' & Hc).
    cbn [heap set_heap].
    destruct (Nat.eq_dec a parent0) as [->|Hnp].
    + destruct (HFs _ _ Ha Hne) as (q & Hq & Hqc). congruence.
    + exists pa'. rewrite list_lookup_insert_ne by congruence. auto.
  - intros h parent0 pp it d g2 _ HF Hp _ _ _ _ _ EA
           (gs & ps & HFs & Hps & He) a pa Ha Hne.
    destruct (HF a pa Ha Hne) as (pa' & Ha' & Hc).
    destruct (alloc_inv Hash mindepth0 _ _ _ EA) as (Hh & _).
    cbn [heap set_heap].
    destruct (Nat.eq_dec a parent0) as [->|Hnp].
    + destruct (HFs _ _ Ha Hne) as (q & Hq & Hqc). congruence.
    + exists pa'. rewrite list_lookup_insert_ne by congruence.
      rewrite Hh, lookup_app_l by (eapply lookup_lt_Some; eauto). auto.
  - intros a pa Ha _. eauto.
Qed.

(** ** The straight-line cut *)

Lemma LineCheck_fields (g g' : t) (bits : list Z) :
  fNplanes g' = fNplanes g -> fZ g' = fZ g ->
  LineCheck g' bits = LineCheck g bits.
Proof. unfold LineCheck. now intros -> ->. Qed.

(** X17.  The straight-line cut holds of the whole tree: after the build
    on a newly constructed generator every stored pattern except the
    all-zero root (which is never checked) passes [LineCheck] for the
    planes of the tree. *)
Theorem stored_patterns_pass_LineCheck (p : PatternTree.TreeParam_t)
        (fuel : nat) :
  PatternTree.valid p = true ->
  (Z.to_nat (2 ^ Z.of_nat (length (PatternTree.zpos p)))
   + Z.to_nat (PatternTree.maxdepth p) + 1 <= fuel)%nat ->
  exists g tree,
    Generate fuel ctor p = Ok (g, Some tree)
    /\ forall (a : nat) (pa : Pattern.t),
         (0 < a)%nat -> heap g !! a = Some pa ->
         LineCheck g (fBits pa) = Ok true.
Proof.
  intros Hv Hf.
  destruct (build_establishes Hash mindepth0 line_cut p fuel)
    as (g & tree & E & HP & _); auto.
  - intros g p0 pat d Hc Hp a pa Ha Hlk.
    destruct (set_shape g p0 pat (UsedAtDepth d pat) Hp) as (_ & _ & Hcases).
    destruct (Hcases a pa Hlk) as [[-> ->]|[Hne Hold]].
    + exact (Hc p0 pat Ha Hp).
    + exact (Hc a pa Ha Hold).
  - intros g parent pp n pn it Hc Hp _ _ _ _ _ a pa Ha Hlk.
    destruct (set_shape g parent pp (AddChild n (ChildIter.fType it) pp) Hp)
      as (_ & _ & Hcases).
    destruct (Hcases a pa Hlk) as [[-> ->]|[Hne Hold]].
    + exact (Hc parent pp Ha Hp).
    + exact (Hc a pa Ha Hold).
  - intros g parent pp it d g2 _ Hc Hp _ _ _ _ HL EA _ a pa Ha Hlk.
    destruct (new_shape g g2 _ parent pp
                (AddChild (length (heap g)) (ChildIter.fType it) pp) Hp EA)
      as (_ & _ & _ & _ & Hcases).
    destruct (alloc_inv Hash mindepth0 _ _ _ EA) as (_ & _ & F1 & _ & F2 & _).
    rewrite (LineCheck_fields g) by (cbn; assumption).
    destruct (Hcases a pa Hlk) as [[-> ->]|[(Hne & Hlt & Hold)|(Hne & -> & ->)]].
    + exact (Hc parent pp Ha Hp).
    + exact (Hc a pa Ha Hold).
    + exact HL.
  - intros g0 g2 Hh _ _ _ EA a pa Ha Hlk.
    destruct (alloc_inv Hash mindepth0 (replicate (length (PatternTree.zpos p)) 0) g0 g2) as (Hh2 & _).
    { now rewrite Hh in *. }
    rewrite Hh2, Hh in Hlk. destruct a as [|[|a]]; [lia|discriminate..].
  - eauto.
Qed.

(** ** Every link is one that ChildIter makes *)

Lemma admissible_build (p : PatternTree.TreeParam_t) (fuel : nat) :
  PatternTree.valid p = true ->
  (Z.to_nat (2 ^ Z.of_nat (length (PatternTree.zpos p)))
   + Z.to_nat (PatternTree.maxdepth p) + 1 <= fuel)%nat ->
  exists g tree,
    Generate fuel ctor p = Ok (g, Some tree)
    /\ links_valid g /\ admissible g.
Proof.
  intros Hv Hf.
  destruct (build_establishes Hash mindepth0
              (fun g => links_valid g /\ admissible g) p fuel)
    as (g & tree & E & HP & _); auto.
  - (* fMinDepth lowered *)
    intros g p0 pat d [HV HA] Hp.
    destruct (set_shape g p0 pat (UsedAtDepth d pat) Hp)
      as (Hlen & _ & Hcases).
    assert (Hold : forall a pa', heap (set_heap (<[p0 := UsedAtDepth d pat]>
                                                   (heap g)) g) !! a = Some pa' ->
                   exists pa0, heap g !! a = Some pa0
                               /\ fBits pa' = fBits pa0
                               /\ fChild pa' = fChild pa0).
    { intros a pa' Hlk. destruct (Hcases a pa' Hlk) as [[-> ->]|[_ H]]; eauto. }
    split.
    + intros a pa ln Hlk Hin. rewrite Hlen.
      destruct (Hold a pa Hlk) as (pa0 & H0 & _ & Hc). rewrite Hc in Hin.
      exact (HV a pa0 ln H0 Hin).
    + intros a pa ln pc Hlk Hin Hlc.
      destruct (Hold a pa Hlk) as (pa0 & H0 & Hb & Hc).
      destruct (Hold _ pc Hlc) as (pc0 & Hc0 & Hcb & _).
      rewrite Hc in Hin. rewrite Hb, Hcb. exact (HA a pa0 ln pc0 H0 Hin Hc0).
  - (* a link to a pattern that exists *)
    intros g parent pp n pn it [HV HA] Hp Hn Hr Hval Hbits _.
    destruct (set_shape g parent pp (AddChild n (ChildIter.fType it) pp) Hp)
      as (Hlen & _ & Hcases).
    assert (Hold : forall a pa', heap (set_heap
                     (<[parent := AddChild n (ChildIter.fType it) pp]>
                        (heap g)) g) !! a = Some pa' ->
                   exists pa0, heap g !! a = Some pa0
                               /\ fBits pa' = fBits pa0
                               /\ (fChild pa' = fChild pa0
                                   \/ (pa0 = pp
                                       /\ fChild pa'
                                          = mkLink n (ChildIter.fType it)
                                              :: fChild pp))).
    { intros a pa' Hlk. destruct (Hcases a pa' Hlk) as [[-> ->]|[_ H]];
        eauto 8. }
    split.
    + intros a pa ln Hlk Hin. rewrite Hlen.
      destruct (Hold a pa Hlk) as (pa0 & H0 & _ & [Hc|[-> Hc]]);
        rewrite Hc in Hin.
      * exact (HV a pa0 ln H0 Hin).
      * destruct Hin as [<-|Hin]; [|exact (HV a pp ln H0 Hin)].
        cbn. eapply lookup_lt_Some; eauto.
    + intros a pa ln pc Hlk Hin Hlc.
      destruct (Hold a pa Hlk) as (pa0 & H0 & Hb & Hc).
      destruct (Hold _ pc Hlc) as (pc0 & Hc0 & Hcb & _).
      rewrite Hb, Hcb.
      destruct Hc as [Hc|[-> Hc]]; rewrite Hc in Hin.
      * exact (HA a pa0 ln pc0 H0 Hin Hc0).
      * destruct Hin as [<-|Hin]; [|exact (HA a pp ln pc0 H0 Hin Hc0)].
        cbn [GetPattern Type_] in *.
        assert (pc0 = pn) as -> by congruence.
        rewrite Hbits.
        exact (ChildIterMore.reach_candidate _ _ Hr Hval).
  - (* a new pattern *)
    intros g parent pp it d g2 _ [HV HA] Hp Hr Hval _ _ _ EA _.
    destruct (new_shape g g2 _ parent pp
                (AddChild (length (heap g)) (ChildIter.fType it) pp) Hp EA)
      as (Hlen & _ & _ & Hlt & Hcases).
    set (g' := set_heap _ g2) in *.
    assert (Hold : forall a pa', heap g' !! a = Some pa' ->
                   (exists pa0, heap g !! a = Some pa0
                                /\ fBits pa' = fBits pa0
                                /\ (fChild pa' = fChild pa0
                                    \/ (pa0 = pp
                                        /\ fChild pa'
                                           = mkLink (length (heap g))
                                               (ChildIter.fType it)
                                               :: fChild pp)))
                   \/ (a = length (heap g)
                       /\ fBits pa' = ChildIter.fChild it
                       /\ fChild pa' = [])).
    { intros a pa' Hlk.
      destruct (Hcases a pa' Hlk)
        as [[-> ->]|[(_ & _ & H)|(_ & -> & ->)]]; [left|left|right];
        eauto 8. }
    split.
    + intros a pa ln Hlk Hin. rewrite Hlen.
      destruct (Hold a pa Hlk) as [(pa0 & H0 & _ & [Hc|[-> Hc]])|(_ & _ & Hc)];
        rewrite Hc in Hin.
      * pose proof (HV a pa0 ln H0 Hin). lia.
      * destruct Hin as [<-|Hin]; [cbn; lia|].
        pose proof (HV a pp ln H0 Hin). lia.
      * destruct Hin.
    + intros a pa ln pc Hlk Hin Hlc.
      destruct (Hold a pa Hlk) as [(pa0 & H0 & Hb & Hc)|(_ & _ & Hc)];
        [|rewrite Hc in Hin; destruct Hin].
      rewrite Hb.
      assert (Hnew : ln = mkLink (length (heap g)) (ChildIter.fType it) ->
                     pa0 = pp ->
                     exists count : Z,
                       0 <= count < 2 ^ Z.of_nat (length (fBits pp))
                       /\ candidate (fBits pp) count
                          = Some (fBits pc, Type_ ln)).
      { intros -> _. cbn [GetPattern Type_] in *.
        destruct (Hold _ pc Hlc) as [(pc0 & Hc0 & _)|(_ & Hcb & _)].
        - apply lookup_lt_Some in Hc0. lia.
        - rewrite Hcb. exact (ChildIterMore.reach_candidate _ _ Hr Hval). }
      assert (Hknown : In ln (fChild pa0) ->
                       exists count : Z,
                         0 <= count < 2 ^ Z.of_nat (length (fBits pa0))
                         /\ candidate (fBits pa0) count
                            = Some (fBits pc, Type_ ln)).
      { intros Hin0. pose proof (HV a pa0 ln H0 Hin0) as Hptr.
        destruct (Hold _ pc Hlc) as [(pc0 & Hc0 & Hcb & _)|(Heq & _)];
          [|lia].
        rewrite Hcb. exact (HA a pa0 ln pc0 H0 Hin0 Hc0). }
      destruct Hc as [Hc|[-> Hc]]; rewrite Hc in Hin; auto.
      destruct Hin as [<-|Hin]; auto.
  - (* the root alone *)
    intros g0 g2 Hh _ _ _ EA.
    destruct (alloc_inv Hash mindepth0 (replicate (length (PatternTree.zpos p)) 0) g0 g2) as (Hh2 & _).
    { now rewrite Hh in *. }
    rewrite Hh in Hh2. cbn in Hh2.
    split.
    + intros a pa ln Hlk Hin. rewrite Hh2 in Hlk.
      destruct a as [|a]; [|discriminate]. injection Hlk as <-. destruct Hin.
    + intros a pa ln pc Hlk Hin. rewrite Hh2 in Hlk.
      destruct a as [|a]; [|discriminate]. injection Hlk as <-. destruct Hin.
  - eauto.
Qed.

(** X21.  Every link of the tree is one that [ChildIter] makes: after
    the build no link of a child list dangles, and a link with type [t]
    from a pattern to a child is there because the loop body of
    [ChildIter], run on the bins of the pattern for some selector below
    [2^N], gives the bins of the child with type [t]. *)
Theorem links_are_ChildIter_children (p : PatternTree.TreeParam_t)
        (fuel : nat) :
  PatternTree.valid p = true ->
  (Z.to_nat (2 ^ Z.of_nat (length (PatternTree.zpos p)))
   + Z.to_nat (PatternTree.maxdepth p) + 1 <= fuel)%nat ->
  exists g tree,
    Generate fuel ctor p = Ok (g, Some tree)
    /\ forall (a : nat) (pa : Pattern.t) (ln : Link),
         heap g !! a = Some pa -> In ln (fChild pa) ->
         exists pc : Pattern.t,
           heap g !! GetPattern ln = Some pc
           /\ exists count,
                0 <= count < 2 ^ Z.of_nat (length (fBits pa))
                /\ candidate (fBits pa) count = Some (fBits pc, Type_ ln).
Proof.
  intros Hv Hf.
  destruct (admissible_build p fuel Hv Hf) as (g & tree & E & HV & HA).
  exists g, tree. split; [exact E|].
  intros a pa ln Ha Hin.
  destruct (lookup_lt_is_Some_2 _ _ (HV a pa ln Ha Hin)) as (pc & Hpc).
  exists pc. split; [exact Hpc|]. exact (HA a pa ln pc Ha Hin Hpc).
Qed.

(** ** No pattern without a parent *)

Lemma no_orphan_old (g g' : t) (a : nat) :
  grows g g' ->
  (exists (b : nat) (pb : Pattern.t) (ln : Link),
      heap g !! b = Some pb /\ In ln (fChild pb) /\ GetPattern ln = a) ->
  exists (b : nat) (pb : Pattern.t) (ln : Link),
    heap g' !! b = Some pb /\ In ln (fChild pb) /\ GetPattern ln = a.
Proof.
  intros [Hg _] (b & pb & ln & Hb & Hin & Hp).
  destruct (Hg b pb Hb) as (pb' & Hb' & _ & _ & more & Hc).
  exists b, pb', ln. repeat split; auto.
  rewrite Hc. apply in_or_app. now right.
Qed.

(** X22.  No pattern is stored without being linked: after the build
    every stored pattern other than the root is in the child list of a
    stored pattern. *)
Theorem no_orphan_patterns (p : PatternTree.TreeParam_t) (fuel : nat) :
  PatternTree.valid p = true ->
  (Z.to_nat (2 ^ Z.of_nat (length (PatternTree.zpos p)))
   + Z.to_nat (PatternTree.maxdepth p) + 1 <= fuel)%nat ->
  exists g tree,
    Generate fuel ctor p = Ok (g, Some tree)
    /\ forall a : nat,
         (0 < a < length (heap g))%nat ->
         exists (b : nat) (pb : Pattern.t) (ln : Link),
           heap g !! b = Some pb /\ In ln (fChild pb) /\ GetPattern ln = a.
Proof.
  intros Hv Hf.
  destruct (build_establishes Hash mindepth0 no_orphan p fuel)
    as (g & tree & E & HP & _); auto.
  - intros g p0 pat d HN Hp a Ha.
    destruct (set_shape g p0 pat (UsedAtDepth d pat) Hp) as (Hlen & _).
    rewrite Hlen in Ha.
    eapply no_orphan_old; [now apply grows_used|]. now apply HN.
  - intros g parent pp n pn it HN Hp _ _ _ _ _ a Ha.
    destruct (set_shape g parent pp (AddChild n (ChildIter.fType it) pp) Hp)
      as (Hlen & _).
    rewrite Hlen in Ha.
    eapply no_orphan_old; [now apply grows_link|]. now apply HN.
  - intros g parent pp it d g2 _ HN Hp _ _ _ _ _ EA _ a Ha.
    destruct (new_shape g g2 _ parent pp
                (AddChild (length (heap g)) (ChildIter.fType it) pp) Hp EA)
      as (Hlen & _ & Hpar & _).
    rewrite Hlen in Ha.
    destruct (Nat.eq_dec a (length (heap g))) as [->|Hne].
    + eexists parent, _, (mkLink (length (heap g)) (ChildIter.fType it)).
      split; [exact Hpar|]. split; [now left|reflexivity].
    + eapply no_orphan_old; [eapply grows_new; eauto|]. apply HN. lia.
  - intros g0 g2 Hh _ _ _ EA a Ha.
    destruct (alloc_inv Hash mindepth0 (replicate (length (PatternTree.zpos p)) 0) g0 g2) as (Hh2 & _).
    { now rewrite Hh in *. }
    rewrite Hh2, Hh in Ha. cbn in Ha. lia.
  - eauto.
Qed.

End Laws.

End GeneratorLaws.

(* ===================================================================== *)
(** * PatternGenerator: the hash table and the statistics *)

Module GeneratorCounts.

Import Pattern PatternGenerator GeneratorInv GeneratorProps ChildIterOps.
Import GeneratorMore.

Local Abbreviation links_at g :=
  (fun a : nat => match heap g !! a with
                  | Some pat => Z.of_nat (length (fChild pat))
                  | None => 0
                  end).

(** ** Sums *)

Lemma Zsum_app (l l' : list Z) : Zsum (l ++ l') = Zsum l + Zsum l'.
Proof. unfold Zsum. induction l as [|x l IH]; cbn; lia. Qed.

Lemma Zsum_perm (l l' : list Z) : Permutation l l' -> Zsum l = Zsum l'.
Proof. unfold Zsum. induction 1; cbn; lia. Qed.

Lemma sum_over_heap (f : Pattern.t -> Z) (h : list Pattern.t) :
  Zsum (map (fun a => match h !! a with Some pat => f pat | None => 0 end)
          (seq 0 (length h)))
  = Zsum (map f h).
Proof.
  induction h as [|x h IH] using rev_ind; [reflexivity|].
  rewrite length_app, Nat.add_comm. cbn [length Nat.add].
  rewrite seq_S, !map_app, !Zsum_app. cbn [map Nat.add].
  rewrite list_lookup_middle by reflexivity. f_equal.
  rewrite <- IH. f_equal. apply map_ext_in. intros a Ha.
  apply in_seq in Ha. now rewrite lookup_app_l by lia.
Qed.

(** ** The counters of CalcStatistics *)

Lemma chain_stats_fold (g : t) (chain : list Link) :
  forall acc : Statistics_t * Z,
    nPatterns (fst (fold_left (chain_stats g) chain acc))
    = nPatterns (fst acc) + Z.of_nat (length chain)
    /\ nLinks (fst (fold_left (chain_stats g) chain acc))
       = nLinks (fst acc)
         + Zsum (map (fun ln => links_at g (GetPattern ln)) chain).
Proof.
  induction chain as [|ln chain IH]; intros [s hl].
  - cbn. lia.
  - cbn [fold_left]. destruct (IH (chain_stats g (s, hl) ln)) as [H1 H2].
    rewrite H1, H2. cbn [chain_stats fst nPatterns nLinks length map].
    unfold Zsum. cbn [fold_right]. lia.
Qed.

Lemma table_stats_fold (g : t) (tbl : list (list Link)) :
  forall s : Statistics_t,
    let r :=
      fold_left
        (fun s chain =>
           let '(s1, hash_length) := fold_left (chain_stats g) chain (s, 0) in
           {| nPatterns := nPatterns s1; nLinks := nLinks s1;
              MaxChildListLength := MaxChildListLength s1;
              MaxHashDepth := Z.max (MaxHashDepth s1) hash_length |})
        tbl s in
    nPatterns r = nPatterns s + Z.of_nat (length (concat tbl))
    /\ nLinks r
       = nLinks s
         + Zsum (map (fun ln => links_at g (GetPattern ln)) (concat tbl)).
Proof.
  induction tbl as [|chain tbl IH]; intros s.
  - cbn. lia.
  - cbn [fold_left concat].
    destruct (chain_stats_fold g chain (s, 0)) as [H1 H2].
    destruct (fold_left (chain_stats g) chain (s, 0)) as [s1 hl].
    cbn [fst] in H1, H2.
    match goal with |- context [fold_left _ tbl ?s0] =>
      destruct (IH s0) as [I1 I2] end.
    cbv zeta in I1, I2 |- *. rewrite I1, I2.
    cbn [nPatterns nLinks]. rewrite H1, H2.
    rewrite length_app, map_app, Zsum_app. lia.
Qed.

Lemma CalcStatistics_counts (g : t) :
  nPatterns (CalcStatistics g) = Z.of_nat (length (concat (fHashTable g)))
  /\ nLinks (CalcStatistics g)
     = Zsum (map (fun ln => links_at g (GetPattern ln))
               (concat (fHashTable g))).
Proof.
  unfold CalcStatistics.
  match goal with |- context [fold_left _ _ ?s0] =>
    destruct (table_stats_fold g (fHashTable g) s0) as [H1 H2] end.
  cbv zeta in H1, H2. rewrite H1, H2. cbn. lia.
Qed.

(** ** The chains list every pattern once *)

Lemma concat_alter_cons (x : Link) (tbl : list (list Link)) :
  forall k : nat,
    (k < length tbl)%nat ->
    Permutation (concat (alter (fun head => x :: head) k tbl))
                (x :: concat tbl).
Proof.
  induction tbl as [|c tbl IH]; intros k Hk; [cbn in Hk; lia|].
  destruct k as [|k].
  - reflexivity.
  - cbn [alter list_alter concat].
    change (list_alter ?f k tbl) with (alter f k tbl).
    rewrite IH by (cbn in Hk; lia).
    symmetry. apply Permutation_middle.
Qed.

Lemma concat_replicate_nil (m : nat) :
  concat (replicate m (@nil Link)) = [].
Proof. induction m; cbn; auto. Qed.

Section Counts.

Variable Hash : list Z -> Z.
Variable mindepth0 : Z.

Local Abbreviation Find := (PatternGenerator.Find Hash).
Local Abbreviation AddHash := (PatternGenerator.AddHash Hash).
Local Abbreviation Generate := (PatternGenerator.Generate Hash mindepth0).

Lemma table_alloc (g g2 : t) (bits : list Z) :
  (0 < length (fHashTable g))%nat -> table_lists_all g ->
  AddHash (length (heap g)) (snd (new_Pattern mindepth0 bits g)) = Ok g2 ->
  length (fHashTable g2) = length (fHashTable g) /\ table_lists_all g2.
Proof.
  intros Hl HT EA.
  destruct (alloc_inv Hash mindepth0 _ _ _ EA)
    as (Hh & _ & _ & _ & _ & tbl & Ht & Hlt & Htb).
  assert (tbl = fHashTable g) as ->
    by (rewrite Ht; destruct (length (fHashTable g)); [lia|reflexivity]).
  split; [rewrite Htb; apply length_alter|].
  unfold table_lists_all in *. rewrite Htb, Hh, length_app. cbn [length].
  rewrite Nat.add_comm. cbn [Nat.add]. rewrite seq_S. cbn [Nat.add].
  rewrite concat_alter_cons.
  - cbn [map GetPattern]. rewrite HT. apply Permutation_cons_append.
  - pose proof (GeneratorFacts.bucket_lt Hash
                  (Z.of_nat (length (fHashTable g))) bits ltac:(lia)).
    lia.
Qed.

Lemma counts_build (p : PatternTree.TreeParam_t) (fuel : nat) :
  PatternTree.valid p = true ->
  (Z.to_nat (2 ^ Z.of_nat (length (PatternTree.zpos p)))
   + Z.to_nat (PatternTree.maxdepth p) + 1 <= fuel)%nat ->
  exists g tree,
    Generate fuel ctor p = Ok (g, Some tree)
    /\ (length (fHashTable g) = Z.to_nat (2 ^ PatternTree.maxdepth p)
        /\ table_lists_all g)
    /\ PatternTree.nPatterns tree = nPatterns (CalcStatistics g)
    /\ PatternTree.nLinks tree = nLinks (CalcStatistics g).
Proof.
  intros Hv Hf.
  destruct (build_establishes Hash mindepth0
              (fun g => (0 < length (fHashTable g))%nat
                        /\ length (fHashTable g)
                           = Z.to_nat (2 ^ PatternTree.maxdepth p)
                        /\ table_lists_all g) p fuel)
    as (g & tree & E & (_ & HP) & _ & S1 & S2); auto.
  - intros g p0 pat d (H0 & HL & HT) Hp. split; [exact H0|].
    split; [exact HL|].
    unfold table_lists_all in *. cbn [fHashTable heap set_heap].
    now rewrite length_insert.
  - intros g parent pp n pn it (H0 & HL & HT) Hp _ _ _ _ _.
    split; [exact H0|]. split; [exact HL|].
    unfold table_lists_all in *. cbn [fHashTable heap set_heap].
    now rewrite length_insert.
  - intros g parent pp it d g2 _ (H0 & HL & HT) Hp _ _ _ _ _ EA _.
    destruct (table_alloc g g2 _ H0 HT EA) as [HL2 HT2].
    cbn [fHashTable set_heap].
    split; [lia|]. split; [congruence|].
    unfold table_lists_all in *. cbn [fHashTable heap set_heap].
    now rewrite length_insert.
  - intros g0 g2 Hh Ht HL Hd EA.
    assert (EA' : AddHash (length (heap g0))
                    (snd (new_Pattern mindepth0
                            (replicate (length (PatternTree.zpos p)) 0) g0))
                  = Ok g2) by (rewrite Hh; exact EA).
    destruct (alloc_inv Hash mindepth0 _ _ _ EA')
      as (Hh2 & _ & _ & _ & _ & tbl & Htbl & Hlt & Htb).
    assert (Hlen : length (fHashTable g2) = length tbl)
      by (rewrite Htb; apply length_alter).
    split; [lia|].
    rewrite Ht in Htbl. cbn in Htbl. rewrite HL in Htbl.
    replace (PatternTree.maxdepth p + 1 - 1) with (PatternTree.maxdepth p)
      in Htbl by lia.
    rewrite Z.shiftl_1_l in Htbl.
    split.
    + rewrite Hlen, Htbl. apply length_replicate.
    + unfold table_lists_all. rewrite Htb, Hh2, Hh. cbn [app length seq].
      rewrite concat_alter_cons.
      * rewrite Htbl, concat_replicate_nil. reflexivity.
      * pose proof (GeneratorFacts.bucket_lt Hash (Z.of_nat (length tbl))
                      (replicate (length (PatternTree.zpos p)) 0)
                      ltac:(lia)).
        lia.
  - exists g, tree. auto.
Qed.

(** X18.  The counts that [Generate] on a newly constructed generator
    hands to the tree are right: the hash table has [2^maxdepth] chains,
    its chains list every stored pattern once, so [nPatterns] is the
    number of patterns created and [nLinks] the number of links in all
    child lists. *)
Theorem statistics_count_the_tree (p : PatternTree.TreeParam_t)
        (fuel : nat) :
  PatternTree.valid p = true ->
  (Z.to_nat (2 ^ Z.of_nat (length (PatternTree.zpos p)))
   + Z.to_nat (PatternTree.maxdepth p) + 1 <= fuel)%nat ->
  exists g tree,
    Generate fuel ctor p = Ok (g, Some tree)
    /\ length (fHashTable g) = Z.to_nat (2 ^ PatternTree.maxdepth p)
    /\ Permutation (map GetPattern (concat (fHashTable g)))
                   (seq 0 (length (heap g)))
    /\ PatternTree.nPatterns tree = Z.of_nat (length (heap g))
    /\ PatternTree.nLinks tree = total_links (heap g).
Proof.
  intros Hv Hf.
  destruct (counts_build p fuel Hv Hf) as (g & tree & E & [HL HT] & S1 & S2).
  exists g, tree. split; [exact E|]. split; [exact HL|]. split; [exact HT|].
  destruct (CalcStatistics_counts g) as [C1 C2].
  unfold table_lists_all in HT.
  split.
  - rewrite S1, C1.
    rewrite <- (length_map GetPattern), (Permutation_length HT), length_seq.
    reflexivity.
  - rewrite S2, C2. unfold total_links.
    rewrite <- (sum_over_heap (fun pa => Z.of_nat (length (fChild pa)))).
    rewrite <- (map_map GetPattern (links_at g)).
    apply Zsum_perm. now apply Permutation_map.
Qed.

End Counts.

End GeneratorCounts.

(* ===================================================================== *)
(** * PatternGenerator: the hash table as a map, the cuts, the result of
      Generate *)

Module GeneratorOps.

Import Pattern PatternGenerator GeneratorInv GeneratorProps.
Import GeneratorMore.

Lemma find_chain_table (tbl : list (list Link)) (g : t) (bits : list Z)
      (chain : list Link) :
  find_chain (set_table tbl g) bits chain = find_chain g bits chain.
Proof.
  induction chain as [|ln chain IH]; [reflexivity|].
  cbn [find_chain]. unfold deref. cbn [heap set_table].
  destruct (heap g !! GetPattern ln); cbn [bind]; [|reflexivity].
  now rewrite IH.
Qed.

Section Ops.

Variable Hash : list Z -> Z.
Variable mindepth0 : Z.

Local Abbreviation Find := (PatternGenerator.Find Hash).
Local Abbreviation AddHash := (PatternGenerator.AddHash Hash).
Local Abbreviation Generate := (PatternGenerator.Generate Hash mindepth0).

(** X16.  [AddHash] and [Find] are insert and lookup: after
    [AddHash(pat)], [Find] with the bins of [pat] returns [pat] (the new
    link is at the head of its chain), and on a table that was not empty
    the answer of [Find] for any other bins is what it was before. *)
Theorem AddHash_then_Find (g g' : t) (pat : nat) (p : Pattern.t) :
  heap g !! pat = Some p ->
  AddHash pat g = Ok g' ->
  Find (fBits p) g' = Ok (Some pat)
  /\ forall bits, bits <> fBits p -> fHashTable g <> [] ->
                  Find bits g' = Find bits g.
Proof.
  intros Hp EA. apply AddHash_inv in EA.
  destruct EA as (p0 & tbl & Hp0 & Ht & Hl & ->).
  assert (p0 = p) as -> by congruence.
  set (size := Z.of_nat (length tbl)) in *.
  assert (Hsize : (size =? 0) = false) by (apply Z.eqb_neq; lia).
  pose proof (GeneratorFacts.bucket_lt Hash size (fBits p) ltac:(lia)) as Hk.
  destruct (lookup_lt_is_Some_2 tbl (bucket Hash size (fBits p)))
    as (chain0 & Hc0); [lia|].
  split.
  - unfold PatternGenerator.Find. cbn [fHashTable set_table].
    rewrite length_alter. fold size. rewrite Hsize.
    rewrite list_lookup_alter_eq, Hc0. cbn [fmap option_fmap option_map].
    cbn [find_chain GetPattern]. unfold deref. cbn [heap set_table].
    rewrite Hp. cbn [bind]. now rewrite bool_decide_eq_true_2.
  - intros bits Hne Hnonempty.
    assert (tbl = fHashTable g) as Htbl.
    { rewrite Ht. destruct (fHashTable g); [congruence|reflexivity]. }
    unfold PatternGenerator.Find. cbn [fHashTable set_table].
    rewrite length_alter. rewrite <- Htbl. fold size. rewrite Hsize.
    destruct (Nat.eq_dec (bucket Hash size (fBits p)) (bucket Hash size bits))
      as [Heq|Hneq].
    + rewrite <- Heq, list_lookup_alter_eq, Hc0.
      cbn [fmap option_fmap option_map].
      cbn [find_chain GetPattern]. unfold deref at 1. cbn [heap set_table].
      rewrite Hp. cbn [bind]. rewrite bool_decide_eq_false_2 by exact Hne.
      apply find_chain_table.
    + rewrite list_lookup_alter_ne by exact Hneq.
      destruct (tbl !! bucket Hash size bits); [|reflexivity].
      apply find_chain_table.
Qed.

(** X14.  Every pattern that a build on a newly constructed generator
    stores is in canonical form: it has one bin per plane, its first bin
    is 0, and no bin is negative or larger than the last one.  (What an
    earlier build has stored stays in the generator.) *)
Theorem stored_patterns_canonical (p : PatternTree.TreeParam_t)
        (fuel : nat) :
  PatternTree.valid p = true ->
  (Z.to_nat (2 ^ Z.of_nat (length (PatternTree.zpos p)))
   + Z.to_nat (PatternTree.maxdepth p) + 1 <= fuel)%nat ->
  exists g tree,
    Generate fuel ctor p = Ok (g, Some tree)
    /\ forall (a : nat) (pa : Pattern.t),
         heap g !! a = Some pa ->
         length (fBits pa) = length (PatternTree.zpos p)
         /\ List.hd 1 (fBits pa) = 0
         /\ forall x, In x (fBits pa) -> 0 <= x <= List.last (fBits pa) 0.
Proof.
  intros Hv Hf.
  destruct (GeneratorFacts.Generate_ok Hash mindepth0 p fuel Hv Hf)
    as (g & tree & E & I & _).
  exists g, tree. split; [exact E|]. intros a pa Ha.
  destruct (inv_canonical _ _ _ I a pa Ha) as [[H1 H2] H3]. auto.
Qed.

(** X15.  [Find] on the table that [Generate] has built on a newly
    constructed generator is a complete and exact lookup: for any bins it
    either returns the one stored pattern that has these bins, or returns
    null and no stored pattern has them. *)
Theorem Find_on_built_table (p : PatternTree.TreeParam_t) (fuel : nat) :
  PatternTree.valid p = true ->
  (Z.to_nat (2 ^ Z.of_nat (length (PatternTree.zpos p)))
   + Z.to_nat (PatternTree.maxdepth p) + 1 <= fuel)%nat ->
  exists g tree,
    Generate fuel ctor p = Ok (g, Some tree)
    /\ forall bits : list Z,
         (exists (a : nat) (pa : Pattern.t),
             Find bits g = Ok (Some a)
             /\ heap g !! a = Some pa /\ fBits pa = bits
             /\ forall a' pa', heap g !! a' = Some pa' ->
                               fBits pa' = bits -> a' = a)
         \/ (Find bits g = Ok None
             /\ forall a pa, heap g !! a = Some pa -> fBits pa <> bits).
Proof.
  intros Hv Hf.
  destruct (GeneratorFacts.Generate_ok Hash mindepth0 p fuel Hv Hf)
    as (g & tree & E & I & _).
  exists g, tree. split; [exact E|]. intros bits.
  destruct (GeneratorFacts.Find_spec Hash _ g bits I) as ([a|] & EF & H).
  - left. destruct H as (pa & Ha & Hb). exists a, pa.
    repeat split; auto. intros a' pa' Ha' Hb'.
    apply (NoDup_lookup _ a' a bits (inv_unique _ _ _ I));
      rewrite GeneratorFacts.map_lookup.
    + now rewrite Ha', <- Hb'.
    + now rewrite Ha, <- Hb.
  - right. split; [exact EF|]. intros a pa Ha Hb. apply H.
    rewrite <- Hb. apply in_map. apply list_elem_of_In.
    eapply list_elem_of_lookup_2; eauto.
Qed.

End Ops.

(** ** The slope cut *)

Lemma Qdiv_pos (n : Z) (q : positive) :
  (inject_Z n / inject_Z (Zpos q) == n # q)%Q.
Proof. unfold Qeq, Qdiv, Qmult, Qinv, inject_Z. cbn. lia. Qed.

Lemma slope_mono (n d d' : Z) :
  0 <= n -> 0 <= d <= d' ->
  (Qabs (inject_Z n / inject_Z (Z.shiftl 1 d'))
   <= Qabs (inject_Z n / inject_Z (Z.shiftl 1 d)))%Q.
Proof.
  intros Hn Hd. rewrite !Z.shiftl_1_l.
  assert (H1 : 0 < 2 ^ d) by (apply Z.pow_pos_nonneg; lia).
  assert (H2 : 2 ^ d <= 2 ^ d') by (apply Z.pow_le_mono_r; lia).
  destruct (2 ^ d) as [|q|q] eqn:E1; try lia.
  destruct (2 ^ d') as [|q'|q'] eqn:E2; try lia.
  rewrite !Qdiv_pos. unfold Qabs, Qle. cbn [Qnum Qden].
  rewrite !Z.abs_eq by lia. nia.
Qed.

(** X23.  The slope cut gets weaker with depth: a pattern that passes
    [TestSlope] at a depth passes it at every larger depth.  This is
    what the test [depth >= node->fMinDepth || TestSlope(node, depth)]
    of [MakeChildNodes] relies on. *)
Theorem TestSlope_monotone (g : t) (bits : list Z) (d d' : Z) :
  0 <= d <= d' ->
  TestSlope g bits d = true -> TestSlope g bits d' = true.
Proof.
  intros Hd. unfold TestSlope.
  destruct (wrap32 (GetWidth bits) <? 2) eqn:W; [reflexivity|].
  cbn [orb]. rewrite !Qle_bool_iff. intros H.
  eapply Qle_trans; [|exact H].
  apply slope_mono; [|exact Hd].
  apply Z.ltb_ge in W. lia.
Qed.

(** ** The straight-line cut *)

Lemma line_loop_tail (z : list Q) (pat : list Z) (z0 z0' : Q) (x0 x0' : Z)
      (i : nat) :
  forall xL xRm1 zL zR,
    line_loop (z0 :: z) (x0 :: pat) i xL xRm1 zL zR
    = line_loop (z0' :: z) (x0' :: pat) i xL xRm1 zL zR.
Proof.
  induction i as [|i IH]; intros xL xRm1 zL zR; [reflexivity|].
  cbn [line_loop nth].
  destruct (Qle_bool zL _); [reflexivity|].
  destruct (Qle_bool zR _); [reflexivity|].
  destruct (1 <? S i)%nat.
  - destruct (Qlt_bool 0 _); destruct (Qlt_bool _ 0); apply IH.
  - apply IH.
Qed.

(** X25.  The answer of [LineCheck] does not depend on bin 0 of the
    pattern nor on the position of plane 0: with two planes or more it
    reads neither.  (The comment says as much: it "assumes a normalized
    pattern, for which pat[0] is always zero".) *)
Theorem LineCheck_ignores_first (z : list Q) (pat : list Z)
        (z0 z0' : Q) (x0 x0' : Z) (tbl : list (list Link))
        (h : list Pattern.t) (L N : Z) (slope : Q) :
  LineCheck {| fNlevels := L; fNplanes := N; fMaxSlope := slope;
               fZ := z0 :: z; fHashTable := tbl; heap := h |} (x0 :: pat)
  = LineCheck {| fNlevels := L; fNplanes := N; fMaxSlope := slope;
                 fZ := z0' :: z; fHashTable := tbl; heap := h |}
      (x0' :: pat).
Proof.
  unfold LineCheck. cbn [fNplanes fZ].
  destruct (N =? 0); [reflexivity|].
  destruct (Z.to_nat (N - 1)) as [|k] eqn:E.
  - replace (Z.to_nat (N - 2)) with 0%nat by lia. reflexivity.
  - cbn [nth]. f_equal. apply line_loop_tail.
Qed.

Lemma GetWidth_zero (n : nat) : GetWidth (replicate n 0) = 0.
Proof.
  unfold GetWidth.
  assert (H : forall m, List.last (replicate m 0) 0 = 0).
  { induction m as [|[|m] IH]; auto. }
  rewrite H. destruct n; reflexivity.
Qed.

Lemma TestSlope_fields (g g' : t) (bits : list Z) (d : Z) :
  fMaxSlope g' = fMaxSlope g -> TestSlope g' bits d = TestSlope g bits d.
Proof. unfold TestSlope. now intros ->. Qed.

(** X28.  The slope cut holds of the whole tree at its deepest level:
    every pattern that the build on a newly constructed generator stores
    passes [TestSlope] at depth [maxdepth].  (A pattern is created only after it has passed
    [TestSlope] at the depth of the call, which lies between 1 and
    [maxdepth], and the cut gets weaker with depth.) *)
Theorem stored_patterns_pass_final_slope (Hash : list Z -> Z)
        (mindepth0 : Z) (p : PatternTree.TreeParam_t) (fuel : nat) :
  PatternTree.valid p = true ->
  (Z.to_nat (2 ^ Z.of_nat (length (PatternTree.zpos p)))
   + Z.to_nat (PatternTree.maxdepth p) + 1 <= fuel)%nat ->
  exists g tree,
    Generate Hash mindepth0 fuel ctor p = Ok (g, Some tree)
    /\ forall (a : nat) (pa : Pattern.t),
         heap g !! a = Some pa ->
         TestSlope g (fBits pa) (PatternTree.maxdepth p) = true.
Proof.
  intros Hv Hf.
  destruct (build_establishes Hash mindepth0
              (fun g => fNlevels g = PatternTree.maxdepth p + 1
                        /\ forall (a : nat) (pa : Pattern.t),
                             heap g !! a = Some pa ->
                             TestSlope g (fBits pa) (PatternTree.maxdepth p)
                             = true) p fuel)
    as (g & tree & E & [_ HP] & _); auto.
  - intros g p0 pat d [HL HS] Hp. split; [exact HL|]. intros a pa Hlk.
    destruct (GeneratorLaws.set_shape g p0 pat (UsedAtDepth d pat) Hp)
      as (_ & _ & Hcases).
    destruct (Hcases a pa Hlk) as [[-> ->]|[Hne Hold]].
    + exact (HS p0 pat Hp).
    + exact (HS a pa Hold).
  - intros g parent pp n pn it [HL HS] Hp _ _ _ _ _. split; [exact HL|].
    intros a pa Hlk.
    destruct (GeneratorLaws.set_shape g parent pp
                (AddChild n (ChildIter.fType it) pp) Hp) as (_ & _ & Hcases).
    destruct (Hcases a pa Hlk) as [[-> ->]|[Hne Hold]].
    + exact (HS parent pp Hp).
    + exact (HS a pa Hold).
  - intros g parent pp it d g2 Hdep [HL HS] Hp _ _ _ HT _ EA _.
    destruct (alloc_inv Hash mindepth0 _ _ _ EA) as (_ & F1 & _ & F2 & _).
    split; [cbn [fNlevels set_heap]; congruence|]. intros a pa Hlk.
    destruct (GeneratorLaws.new_shape Hash mindepth0 g g2 _ parent pp
                (AddChild (length (heap g)) (ChildIter.fType it) pp) Hp EA)
      as (_ & _ & _ & _ & Hcases).
    rewrite (TestSlope_fields g) by (cbn; assumption).
    destruct (Hcases a pa Hlk)
      as [[-> ->]|[(Hne & Hlt & Hold)|(Hne & -> & ->)]].
    + exact (HS parent pp Hp).
    + exact (HS a pa Hold).
    + cbn [fBits]. revert HT. unfold TestSlope.
      destruct (wrap32 (GetWidth (ChildIter.fChild it)) <? 2) eqn:W;
        [reflexivity|].
      cbn [orb]. rewrite !Qle_bool_iff. intros H.
      eapply Qle_trans; [|exact H].
      apply slope_mono; [apply Z.ltb_ge in W; lia|lia].
  - intros g0 g2 Hh _ HL _ EA.
    assert (EA' : AddHash Hash (length (heap g0))
                    (snd (new_Pattern mindepth0
                            (replicate (length (PatternTree.zpos p)) 0) g0))
                  = Ok g2) by (rewrite Hh; exact EA).
    destruct (alloc_inv Hash mindepth0 _ _ _ EA') as (Hh2 & F1 & _ & F2 & _).
    split; [congruence|]. intros a pa Hlk.
    rewrite Hh2, Hh in Hlk. destruct a as [|a]; [|discriminate].
    injection Hlk as <-. unfold TestSlope. cbn [fBits].
    rewrite GetWidth_zero. reflexivity.
  - eauto.
Qed.

End GeneratorOps.

(* ===================================================================== *)
(** * Road: the ordering by chi2 *)

Module RoadFacts.

Lemma Qlt_bool_iff (x y : Q) : Qlt_bool x y = true <-> (x < y)%Q.
Proof.
  unfold Qlt_bool. rewrite negb_true_iff. split.
  - intros H. apply Qnot_le_lt. intros Hle.
    apply Qle_bool_iff in Hle. congruence.
  - intros H. apply not_true_is_false. intros Hle.
    apply Qle_bool_iff in Hle. exact (Qlt_not_le _ _ H Hle).
Qed.

Lemma Qlt_bool_false (x y : Q) : Qlt_bool x y = false <-> (y <= x)%Q.
Proof.
  unfold Qlt_bool. rewrite negb_false_iff. apply Qle_bool_iff.
Qed.

(** The sign of [Road::Compare]. *)
Lemma Compare_sign (a b : Road.t) :
  exists c,
    Road.Compare a (Some b) = Ok c
    /\ (c = -1 /\ (Road.fChi2 a < Road.fChi2 b)%Q
        \/ c = 0 /\ (Road.fChi2 a == Road.fChi2 b)%Q
        \/ c = 1 /\ (Road.fChi2 b < Road.fChi2 a)%Q).
Proof.
  unfold Road.Compare.
  destruct (Qlt_bool (Road.fChi2 a) (Road.fChi2 b)) eqn:E1.
  - eexists. split; [reflexivity|]. left. split; [reflexivity|].
    now apply Qlt_bool_iff.
  - destruct (Qlt_bool (Road.fChi2 b) (Road.fChi2 a)) eqn:E2.
    + eexists. split; [reflexivity|]. right; right. split; [reflexivity|].
      now apply Qlt_bool_iff.
    + eexists. split; [reflexivity|]. right; left. split; [reflexivity|].
      apply Qlt_bool_false in E1, E2. now apply Qle_antisym.
Qed.

(** X27.  [Road::Compare] orders roads by the chi2 of their best fit,
    as sorting needs: it returns -1, 0 or +1; it returns 0 exactly for
    equal chi2 and -1 exactly when [this] has the smaller chi2;
    exchanging the two roads changes the sign of the result; and "not
    greater" is transitive.  (Chi2 values are taken to be numbers, not
    NaN.) *)
Theorem Road_Compare_is_an_order (a b c : Road.t) :
  exists x y z,
    Road.Compare a (Some b) = Ok x
    /\ Road.Compare b (Some a) = Ok (- x)
    /\ Road.Compare b (Some c) = Ok y
    /\ Road.Compare a (Some c) = Ok z
    /\ (x = -1 \/ x = 0 \/ x = 1)
    /\ (x = 0 <-> (Road.fChi2 a == Road.fChi2 b)%Q)
    /\ (x = -1 <-> (Road.fChi2 a < Road.fChi2 b)%Q)
    /\ (x <= 0 -> y <= 0 -> z <= 0)
    /\ Road.Compare a (Some a) = Ok 0.
Proof.
  destruct (Compare_sign a b) as (x & Ex & Hx).
  destruct (Compare_sign b a) as (x' & Ex' & Hx').
  destruct (Compare_sign b c) as (y & Ey & Hy).
  destruct (Compare_sign a c) as (z & Ez & Hz).
  destruct (Compare_sign a a) as (w & Ew & Hw).
  exists x, y, z.
  assert (Hxx : x' = - x).
  { destruct Hx as [[-> H]|[[-> H]|[-> H]]];
      destruct Hx' as [[-> H']|[[-> H']|[-> H']]]; try reflexivity;
      exfalso;
      first [ exact (Qlt_irrefl _ (Qlt_trans _ _ _ H H'))
            | rewrite H in H'; exact (Qlt_irrefl _ H')
            | rewrite H' in H; exact (Qlt_irrefl _ H)
            | rewrite <- H in H'; exact (Qlt_irrefl _ H')
            | rewrite <- H' in H; exact (Qlt_irrefl _ H) ]. }
  assert (Hww : w = 0).
  { destruct Hw as [[-> H]|[[-> H]|[-> H]]]; try reflexivity;
      exfalso; exact (Qlt_irrefl _ H). }
  subst x' w.
  split; [exact Ex|]. split; [exact Ex'|]. split; [exact Ey|].
  split; [exact Ez|].
  split; [destruct Hx as [[-> _]|[[-> _]|[-> _]]]; auto|].
  split.
  { split.
    - intros ->. destruct Hx as [[? _]|[[_ H]|[? _]]]; (lia || exact H).
    - intros H. destruct Hx as [[_ H']|[[-> _]|[_ H']]]; try reflexivity;
        exfalso; rewrite H in H'; exact (Qlt_irrefl _ H'). }
  split.
  { split.
    - intros ->. destruct Hx as [[_ H]|[[? _]|[? _]]]; (lia || exact H).
    - intros H. destruct Hx as [[-> _]|[[_ H']|[_ H']]]; try reflexivity;
        exfalso.
      + rewrite H' in H. exact (Qlt_irrefl _ H).
      + exact (Qlt_irrefl _ (Qlt_trans _ _ _ H H')). }
  split; [|exact Ew].
  intros Hx0 Hy0.
  assert (Hab : (Road.fChi2 a <= Road.fChi2 b)%Q).
  { destruct Hx as [[_ H]|[[_ H]|[-> _]]]; [now apply Qlt_le_weak| |lia].
    rewrite H. apply Qle_refl. }
  assert (Hbc : (Road.fChi2 b <= Road.fChi2 c)%Q).
  { destruct Hy as [[_ H]|[[_ H]|[-> _]]]; [now apply Qlt_le_weak| |lia].
    rewrite H. apply Qle_refl. }
  destruct Hz as [[-> _]|[[-> _]|[-> H]]]; try lia.
  exfalso. apply (Qlt_not_le _ _ H). eapply Qle_trans; eauto.
Qed.

End RoadFacts.

(* ===================================================================== *)
(** * The properties above on concrete inputs *)

Module ScenarioExtras.

Import Pattern PatternGenerator GeneratorInv GeneratorProps ChildIterOps.
Import Scenario ScenarioMore.

Local Abbreviation emit5 n :=
  (HitPairIter.emit Hit.eq_dec Hit.Compare n
     (HitPairIter.init A5 B5 maxdist5)).
Local Abbreviation published5 :=
  (HitPairIterOps.published Hit.eq_dec Hit.Compare).

(** Assignment in the middle of a run.  The right-hand side is the
    iterator over [Ascan] and [Bscan] after the constructor and one more
    call of [Next()]: its first scan is over and has left the hit at 0.8
    in [fSaveHit].  The iterator assigned to was constructed over other
    collections and has never scanned, so its [fSaveHit] is null, and
    stays so after the assignment.  The calls that follow start a second
    scan and end it with a hit of A left over, which is where [fSaveHit]
    is read. *)
Lemma assign_same_run_witness :
  exists self l rhs,
    HitPairIter.ctor Hit.eq_dec Hit.Compare Acopy Bcopy maxdist5 = Some self
    /\ HitPairIter.emit Hit.eq_dec Hit.Compare 2
         (HitPairIter.init Ascan Bscan maxdist5) = Some (l, rhs)
    /\ HitPairIter.fSaveHit rhs = Some (hit 1 0 0.8)
    /\ HitPairIter.fSaveHit (HitPairIter.assign self rhs) = None
    /\ HitPairIter.fScanning rhs = false
    /\ forall n,
         published5 n (HitPairIter.assign self rhs) = published5 n rhs.
Proof.
  eexists _, _, _.
  split; [vm_compute; reflexivity|].
  split; [vm_compute; reflexivity|].
  split; [reflexivity|]. split; [reflexivity|]. split; [reflexivity|].
  apply (HitPairIterMore.assign_same_run Hit.t Hit.eq_dec Q Hit.Compare).
  reflexivity.
Defined.

(** The pairs that follow the assignment: the scan of the hit at 3 over
    the hits at 2.9 and 3.2, then the hit at 3.1 with the hit at 2.9
    that the scan had saved. *)
Lemma assign_then_scan :
  exists self l rhs,
    HitPairIter.ctor Hit.eq_dec Hit.Compare Acopy Bcopy maxdist5 = Some self
    /\ HitPairIter.emit Hit.eq_dec Hit.Compare 2
         (HitPairIter.init Ascan Bscan maxdist5) = Some (l, rhs)
    /\ published5 4 (HitPairIter.assign self rhs)
       = Some [(Some (hit 0 1 3), Some (hit 1 2 2.9));
               (Some (hit 0 1 3), Some (hit 1 3 3.2));
               (Some (hit 0 2 3.1), Some (hit 1 2 2.9));
               (None, None)].
Proof.
  eexists _, _, _.
  split; [vm_compute; reflexivity|].
  split; [vm_compute; reflexivity|].
  vm_compute. reflexivity.
Qed.

(** Two empty collections: the constructor's call of [Next()] publishes
    the all-absent pair, and so do the calls after it. *)
Lemma done_is_final_witness :
  exists it1,
    HitPairIter.Next Hit.eq_dec Hit.Compare
      (HitPairIter.init [] [] maxdist5) = Some it1
    /\ HitPairIter.fCurrent it1 = (None, None)
    /\ exists it2,
         HitPairIter.emit Hit.eq_dec Hit.Compare 3 it1
         = Some (repeat (None, None) 3, it2).
Proof.
  eexists. split; [reflexivity|]. split; [reflexivity|].
  apply (HitPairIterMore.done_is_final Hit.t Hit.eq_dec Q Hit.Compare
           (HitPairIter.init [] [] maxdist5)); reflexivity.
Defined.

Lemma published_from_collections_witness :
  exists l it,
    emit5 4%nat = Some (l, it)
    /\ (forall a, In a (HitPairIterOps.first_hits l) -> In a A5)
    /\ (forall b, In b (HitPairIterOps.second_hits l) -> In b B5).
Proof.
  eexists _, _. split; [vm_compute; reflexivity|].
  eapply (HitPairIterMore.published_from_collections
            Hit.t Hit.eq_dec Q Hit.Compare A5 B5 maxdist5 4%nat).
  vm_compute. reflexivity.
Defined.

Lemma first_hits_in_order_witness :
  exists l it,
    emit5 4%nat = Some (l, it)
    /\ exists pre post,
         A5 = pre ++ post
         /\ HitPairIterOps.runs pre (HitPairIterOps.first_hits l)
         /\ (In (None, None) l -> post = []).
Proof.
  eexists _, _. split; [vm_compute; reflexivity|].
  eapply (HitPairIterMore.first_hits_in_order
            Hit.t Hit.eq_dec Q Hit.Compare A5 B5 maxdist5 4%nat).
  vm_compute. reflexivity.
Defined.

(** ** Hit sets ordered by position *)

Lemma comp6_true (x y : Hit.t) :
  comp6 x y = true <-> (Hit.fPos x < Hit.fPos y)%Q.
Proof. apply RoadFacts.Qlt_bool_iff. Qed.

Lemma comp6_false (x y : Hit.t) :
  comp6 x y = false <-> (Hit.fPos y <= Hit.fPos x)%Q.
Proof. apply RoadFacts.Qlt_bool_false. Qed.

Lemma same_key6 (x y : Hit.t) :
  HitSetOps.same_key comp6 x y = true <-> (Hit.fPos x == Hit.fPos y)%Q.
Proof.
  unfold HitSetOps.same_key.
  rewrite andb_true_iff, !negb_true_iff, !comp6_false. split.
  - intros [H1 H2]. now apply Qle_antisym.
  - intros H. rewrite H. split; apply Qle_refl.
Qed.

Lemma comp6_strict_weak : HitSetOps.strict_weak comp6.
Proof.
  constructor.
  - intros x. apply comp6_false. apply Qle_refl.
  - intros x y z. rewrite !comp6_true. apply Qlt_trans.
  - intros x y z. rewrite !same_key6. intros H1 H2. now rewrite H1.
Qed.

Lemma sorted_this6 : HitSetOps.sorted comp6 (HitSet.hits this6).
Proof.
  cbn. repeat split; intros y Hy;
    repeat (destruct Hy as [<-|Hy]; [reflexivity|]); destruct Hy.
Qed.

Lemma sorted_try6 : HitSetOps.sorted comp6 (HitSet.hits try6).
Proof.
  cbn. repeat split; intros y Hy;
    repeat (destruct Hy as [<-|Hy]; [reflexivity|]); destruct Hy.
Qed.

Lemma GetMatchValue_bits_witness :
  (forall h, In h (HitSet.hits try6) -> 0 <= Hit.fPlaneNum h < 32)
  /\ 0 <= HitSet.GetMatchValue Hit.fPlaneNum (HitSet.hits try6) < 2 ^ 32
  /\ forall p,
       Z.testbit (HitSet.GetMatchValue Hit.fPlaneNum (HitSet.hits try6)) p
       = true
       <-> exists h, In h (HitSet.hits try6) /\ Hit.fPlaneNum h = p.
Proof.
  assert (H : forall h, In h (HitSet.hits try6) ->
                        0 <= Hit.fPlaneNum h < 32).
  { intros h Hh. cbn in Hh.
    repeat (destruct Hh as [<-|Hh]; [cbn; lia|]). destruct Hh. }
  split; [exact H|].
  exact (HitSetMore.GetMatchValue_bits Hit.t Hit.fPlaneNum
           (HitSet.hits try6) H).
Defined.

Lemma IsSimilarTo_intersection_witness :
  HitSetOps.strict_weak comp6
  /\ HitSetOps.sorted comp6 (HitSet.hits this6)
  /\ HitSetOps.sorted comp6 (HitSet.hits try6)
  /\ HitSet.IsSimilarTo comp6 Hit.fPlaneNum this6 try6
     = if HitSet.plane_pattern try6 =? 0 then None
       else Some (HitSet.plane_pattern try6
                  =? HitSet.GetMatchValue Hit.fPlaneNum
                       (HitSetOps.common comp6 (HitSet.hits this6)
                          (HitSet.hits try6))).
Proof.
  split; [exact comp6_strict_weak|].
  split; [exact sorted_this6|]. split; [exact sorted_try6|].
  exact (HitSetMore.IsSimilarTo_intersection Hit.t comp6 Hit.fPlaneNum
           comp6_strict_weak this6 try6 sorted_this6 sorted_try6).
Defined.

(** A set is similar to itself. *)
Lemma includes_is_similar_witness :
  HitSet.IsSimilarTo comp6 Hit.fPlaneNum try6 try6 = Some true.
Proof.
  apply (HitSetMore.includes_is_similar Hit.t comp6 Hit.fPlaneNum
           comp6_strict_weak try6 try6 sorted_try6 sorted_try6).
  - reflexivity.
  - discriminate.
  - intros y Hy. exists y. split; [exact Hy|].
    apply same_key6. apply Qeq_refl.
Defined.

(** ** Children of the root over two planes *)


Lemma doubled_parent_first_and_last_witness :
  canonical [0; 1]
  /\ ChildIter16.fits15 [0; 1]
  /\ ChildIter16.candidate [0; 1] (2 ^ Z.of_nat (length [0; 1]) - 1)
     = Some (map (fun b => 2 * b) [0; 1], 1)
  /\ ChildIter16.candidate [0; 1] 0 = Some (map (fun b => 2 * b) [0; 1], 0)
  /\ ChildIter.fChild (ChildIter16.make [0; 1])
     = map (fun b => 2 * b) [0; 1]
  /\ ChildIter.fType (ChildIter16.make [0; 1]) = 1
  /\ ChildIter.fCount (ChildIter16.make [0; 1])
     = 2 ^ Z.of_nat (length [0; 1]) - 1.
Proof.
  assert (H : canonical [0; 1]).
  { split; [reflexivity|]. intros x [<-|[<-|[]]]; cbn; lia. }
  assert (F : ChildIter16.fits15 [0; 1]).
  { intros x [<-|[<-|[]]]; lia. }
  split; [exact H|]. split; [exact F|].
  exact (ChildIterMore.doubled_parent_first_and_last [0; 1] H F).
Defined.

(** The pattern [0, 5, 9] has bins below [2^15]; its children are the
    same on 16-bit bins and on unbounded ones. *)
Lemma UShort_bins_agree_witness :
  ChildIter16.fits15 [0; 5; 9]
  /\ (forall count,
         ChildIter16.candidate [0; 5; 9] count = candidate [0; 5; 9] count)
  /\ ChildIter16.make [0; 5; 9] = ChildIter.make [0; 5; 9]
  /\ forall it, ChildIter.fParent it = [0; 5; 9] ->
       ChildIter16.incr it = ChildIter.incr it
       /\ ChildIter16.reset it = reset it.
Proof.
  assert (F : ChildIter16.fits15 [0; 5; 9]).
  { intros x [<-|[<-|[<-|[]]]]; lia. }
  split; [exact F|].
  exact (ChildIterMore.UShort_bins_agree [0; 5; 9] F).
Defined.

(** The pattern [0, 40000]: its child bins 80000 and 80001 do not fit
    16 bits, and it gets no child. *)
Lemma wrapped_parent_shows_no_child_witness :
  canonical [0; 40000]
  /\ 2 ^ 15 <= List.last [0; 40000] 0 < 2 ^ 16
  /\ (forall count, ChildIter16.candidate [0; 40000] count = None)
  /\ ChildIter.valid (ChildIter16.make [0; 40000]) = false
  /\ ChildIter16.drain 5 (ChildIter16.make [0; 40000]) = [].
Proof.
  assert (H : canonical [0; 40000]).
  { split; [reflexivity|]. intros x [<-|[<-|[]]]; cbn; lia. }
  assert (L : 2 ^ 15 <= List.last [0; 40000] 0 < 2 ^ 16) by (cbn; lia).
  split; [exact H|]. split; [exact L|].
  exact (ChildIterMore.wrapped_parent_shows_no_child [0; 40000] 5 H L).
Defined.

(** ** The build of S1 *)

Lemma stored_patterns_canonical_witness :
  PatternTree.valid S1 = true
  /\ (Z.to_nat (2 ^ Z.of_nat (length (PatternTree.zpos S1)))
      + Z.to_nat (PatternTree.maxdepth S1) + 1 <= 6)%nat
  /\ exists g tree,
       Generate Hash kMaxUInt 6 ctor S1 = Ok (g, Some tree)
       /\ forall (a : nat) (pa : Pattern.t),
            heap g !! a = Some pa ->
            length (fBits pa) = length (PatternTree.zpos S1)
            /\ List.hd 1 (fBits pa) = 0
            /\ forall x, In x (fBits pa) -> 0 <= x <= List.last (fBits pa) 0.
Proof.
  split; [reflexivity|]. split; [vm_compute; lia|].
  apply (GeneratorOps.stored_patterns_canonical Hash kMaxUInt S1 6);
    [reflexivity|vm_compute; lia].
Defined.

Lemma Find_on_built_table_witness :
  PatternTree.valid S1 = true
  /\ (Z.to_nat (2 ^ Z.of_nat (length (PatternTree.zpos S1)))
      + Z.to_nat (PatternTree.maxdepth S1) + 1 <= 6)%nat
  /\ exists g tree,
       Generate Hash kMaxUInt 6 ctor S1 = Ok (g, Some tree)
       /\ forall bits : list Z,
            (exists (a : nat) (pa : Pattern.t),
                Find Hash bits g = Ok (Some a)
                /\ heap g !! a = Some pa /\ fBits pa = bits
                /\ forall a' pa', heap g !! a' = Some pa' ->
                                  fBits pa' = bits -> a' = a)
            \/ (Find Hash bits g = Ok None
                /\ forall a pa, heap g !! a = Some pa -> fBits pa <> bits).
Proof.
  split; [reflexivity|]. split; [vm_compute; lia|].
  apply (GeneratorOps.Find_on_built_table Hash kMaxUInt S1 6);
    [reflexivity|vm_compute; lia].
Defined.

Lemma AddHash_then_Find_witness :
  heap g3root !! 0%nat = Some root3
  /\ exists g',
       AddHash Hash 0%nat g3root = Ok g'
       /\ Find Hash (fBits root3) g' = Ok (Some 0%nat)
       /\ forall bits, bits <> fBits root3 -> fHashTable g3root <> [] ->
                       Find Hash bits g' = Find Hash bits g3root.
Proof.
  split; [reflexivity|].
  eexists. split; [vm_compute; reflexivity|].
  apply (GeneratorOps.AddHash_then_Find Hash g3root _ 0%nat root3);
    [reflexivity|vm_compute; reflexivity].
Defined.

(** Three planes: [LineCheck] tests the middle plane of every
    candidate. *)
Lemma stored_patterns_pass_LineCheck_witness :
  PatternTree.valid S3p = true
  /\ (Z.to_nat (2 ^ Z.of_nat (length (PatternTree.zpos S3p)))
      + Z.to_nat (PatternTree.maxdepth S3p) + 1 <= 11)%nat
  /\ exists g tree,
       Generate Hash kMaxUInt 11 ctor S3p = Ok (g, Some tree)
       /\ forall (a : nat) (pa : Pattern.t),
            (0 < a)%nat -> heap g !! a = Some pa ->
            LineCheck g (fBits pa) = Ok true.
Proof.
  split; [reflexivity|]. split; [vm_compute; lia|].
  apply (GeneratorLaws.stored_patterns_pass_LineCheck Hash kMaxUInt S3p 11);
    [reflexivity|vm_compute; lia].
Defined.

(** The build over these three planes: at depth 2 the candidates
    [0, 0, 2], made of [0, 0, 1], and [0, 2, 2], made of [0, 1, 1], pass
    the slope cut and are refused by [LineCheck]. *)
Lemma build_S3p :
  exists g tree,
    Generate Hash kMaxUInt 11 ctor S3p = Ok (g, Some tree)
    /\ map fBits (heap g)
       = [[0; 0; 0]; [0; 1; 1]; [0; 0; 1]; [0; 1; 2]; [0; 2; 3]; [0; 1; 3]]
    /\ ChildIterOps.candidate [0; 0; 1] 0 = Some ([0; 0; 2], 0)
    /\ ChildIterOps.candidate [0; 1; 1] 0 = Some ([0; 2; 2], 0)
    /\ TestSlope g [0; 0; 2] 2 = true
    /\ TestSlope g [0; 2; 2] 2 = true
    /\ LineCheck g [0; 0; 2] = Ok false
    /\ LineCheck g [0; 2; 2] = Ok false.
Proof.
  eexists _, _. split; [vm_compute; reflexivity|].
  repeat split; vm_compute; reflexivity.
Qed.

Lemma statistics_count_the_tree_witness :
  PatternTree.valid S1 = true
  /\ (Z.to_nat (2 ^ Z.of_nat (length (PatternTree.zpos S1)))
      + Z.to_nat (PatternTree.maxdepth S1) + 1 <= 6)%nat
  /\ exists g tree,
       Generate Hash kMaxUInt 6 ctor S1 = Ok (g, Some tree)
       /\ length (fHashTable g) = Z.to_nat (2 ^ PatternTree.maxdepth S1)
       /\ Permutation (map GetPattern (concat (fHashTable g)))
                      (seq 0 (length (heap g)))
       /\ PatternTree.nPatterns tree = Z.of_nat (length (heap g))
       /\ PatternTree.nLinks tree = total_links (heap g).
Proof.
  split; [reflexivity|]. split; [vm_compute; lia|].
  apply (GeneratorCounts.statistics_count_the_tree Hash kMaxUInt S1 6);
    [reflexivity|vm_compute; lia].
Defined.

(** [g2root] is the generator that [Generate] hands to
    [MakeChildNodes( root, 1 )] in the build of S2. *)
Lemma g2root_in_Generate (fuel : nat) :
  Generate Hash kMaxUInt fuel ctor S2
  = bind (MakeChildNodes Hash kMaxUInt fuel g2root 0%nat 1)
      (fun g3 =>
         Ok (g3, Some {| PatternTree.params := S2;
                         PatternTree.nPatterns :=
                           nPatterns (CalcStatistics g3);
                         PatternTree.nLinks :=
                           nLinks (CalcStatistics g3) |})).
Proof. reflexivity. Qed.

(** The call [MakeChildNodes( root, 1 )] of the build of S2: it creates
    three patterns, gives the root and [0, 1] four links each and lowers
    [fMinDepth] from [2^32 - 1]. *)
Lemma MakeChildNodes_grows_witness :
  exists g',
    MakeChildNodes Hash kMaxUInt 7 g2root 0%nat 1 = Ok g'
    /\ map fBits (heap g') = [[0; 0]; [0; 1]; [0; 2]; [0; 3]]
    /\ map (fun pa => length (fChild pa)) (heap g') = [4; 4; 0; 0]%nat
    /\ map fMinDepth (heap g') = [0; 1; 2; 2]
    /\ grows g2root g'.
Proof.
  eexists. split; [vm_compute; reflexivity|].
  split; [reflexivity|]. split; [reflexivity|]. split; [reflexivity|].
  apply (GeneratorLaws.MakeChildNodes_grows Hash kMaxUInt 7 g2root _ 0%nat 1).
  vm_compute. reflexivity.
Defined.

(** The recursive call [MakeChildNodes( [0,1], 2 )] of the same build.
    When it starts, the loop over the candidates of the root has given
    the root its four links ([g1]); the call creates [0, 2] and [0, 3]
    and fills the child list of [0, 1], and the list of the root, which
    the caller is walking, stays as it is. *)
Lemma MakeChildNodes_frozen_witness :
  exists g1 root g',
    bind (update 0%nat (UsedAtDepth 0) g2root)
      (fun g => candidates Hash kMaxUInt 5 g 0%nat 1 (ChildIter.make [0; 0]))
    = Ok g1
    /\ heap g1 !! 0%nat = Some root
    /\ fChild root = [mkLink 0 0; mkLink 1 2; mkLink 1 0; mkLink 0 1]
    /\ MakeChildNodes Hash kMaxUInt 6 g1 1%nat 2 = Ok g'
    /\ map fBits (heap g') = [[0; 0]; [0; 1]; [0; 2]; [0; 3]]
    /\ frozen g1 g'.
Proof.
  eexists _, _, _. split; [vm_compute; reflexivity|].
  split; [reflexivity|]. split; [reflexivity|].
  split; [vm_compute; reflexivity|]. split; [reflexivity|].
  eapply (GeneratorLaws.MakeChildNodes_frozen Hash kMaxUInt 6 _ _ 1%nat 2).
  vm_compute. reflexivity.
Defined.

Lemma links_are_ChildIter_children_witness :
  PatternTree.valid S1 = true
  /\ (Z.to_nat (2 ^ Z.of_nat (length (PatternTree.zpos S1)))
      + Z.to_nat (PatternTree.maxdepth S1) + 1 <= 6)%nat
  /\ exists g tree,
       Generate Hash kMaxUInt 6 ctor S1 = Ok (g, Some tree)
       /\ forall (a : nat) (pa : Pattern.t) (ln : Link),
            heap g !! a = Some pa -> In ln (fChild pa) ->
            exists pc : Pattern.t,
              heap g !! GetPattern ln = Some pc
              /\ exists count,
                   0 <= count < 2 ^ Z.of_nat (length (fBits pa))
                   /\ candidate (fBits pa) count
                      = Some (fBits pc, Type_ ln).
Proof.
  split; [reflexivity|]. split; [vm_compute; lia|].
  apply (GeneratorLaws.links_are_ChildIter_children Hash kMaxUInt S1 6);
    [reflexivity|vm_compute; lia].
Defined.

Lemma no_orphan_patterns_witness :
  PatternTree.valid S1 = true
  /\ (Z.to_nat (2 ^ Z.of_nat (length (PatternTree.zpos S1)))
      + Z.to_nat (PatternTree.maxdepth S1) + 1 <= 6)%nat
  /\ exists g tree,
       Generate Hash kMaxUInt 6 ctor S1 = Ok (g, Some tree)
       /\ forall a : nat,
            (0 < a < length (heap g))%nat ->
            exists (b : nat) (pb : Pattern.t) (ln : Link),
              heap g !! b = Some pb /\ In ln (fChild pb)
              /\ GetPattern ln = a.
Proof.
  split; [reflexivity|]. split; [vm_compute; lia|].
  apply (GeneratorLaws.no_orphan_patterns Hash kMaxUInt S1 6);
    [reflexivity|vm_compute; lia].
Defined.

(** The pattern [0, 1, 3] has width 3: it passes the slope cut 1 at
    depth 1, where its slope is 2/2, and so at depth 2. *)
Lemma TestSlope_monotone_witness :
  0 <= 1 <= 2
  /\ TestSlope g3 [0; 1; 3] 1 = true
  /\ TestSlope g3 [0; 1; 3] 2 = true.
Proof.
  split; [lia|]. split; [reflexivity|].
  apply (GeneratorOps.TestSlope_monotone g3 [0; 1; 3] 1 2); [lia|reflexivity].
Defined.

(** The build of S4 stores patterns as wide as [0, 9]: for them the
    slope is compared with the cut. *)
Lemma stored_patterns_pass_final_slope_witness :
  PatternTree.valid S4 = true
  /\ (Z.to_nat (2 ^ Z.of_nat (length (PatternTree.zpos S4)))
      + Z.to_nat (PatternTree.maxdepth S4) + 1 <= 9)%nat
  /\ exists g tree,
       Generate Hash kMaxUInt 9 ctor S4 = Ok (g, Some tree)
       /\ forall (a : nat) (pa : Pattern.t),
            heap g !! a = Some pa ->
            TestSlope g (fBits pa) (PatternTree.maxdepth S4) = true.
Proof.
  split; [reflexivity|]. split; [vm_compute; lia|].
  apply (GeneratorOps.stored_patterns_pass_final_slope Hash kMaxUInt S4 9);
    [reflexivity|vm_compute; lia].
Defined.

Lemma build_S4 :
  exists g tree,
    Generate Hash kMaxUInt 9 ctor S4 = Ok (g, Some tree)
    /\ map fBits (heap g)
       = [[0; 0]; [0; 1]; [0; 2]; [0; 3]; [0; 4]; [0; 5]; [0; 8]; [0; 9];
          [0; 7]; [0; 6]]
    /\ TestSlope g [0; 9] 4 = true
    /\ TestSlope g [0; 10] 4 = false.
Proof.
  eexists _, _. split; [vm_compute; reflexivity|].
  repeat split; vm_compute; reflexivity.
Qed.

(** ** The arithmetic of LineCheck *)

(** On these operands the rounded product and difference are the
    product and the difference of binary64 numbers. *)
Lemma round_is_binary64 :
  forallb (fun x => forallb (Double.agrees x) Double.operands)
    Double.operands = true.
Proof. vm_compute. reflexivity. Qed.

(** "For certain z-values, the following can be very sensitive to the
    floating point rounding behavior": with the middle plane at the
    double nearest to 1/3, the product [3 * z] is less than 1 and rounds
    to 1, so the pattern [0, 0, 3] fails the test [|dL| >= zL] that it
    passes in exact arithmetic. *)
Lemma LineCheck_rounds :
  Double.of_float 0x1.5555555555555p-2 = Some third
  /\ Qlt_bool (Qabs (3 * third - 0 * 1)) 1 = true
  /\ (Double.sub (Double.mul 3 third) (Double.mul 0 1) == 1)%Q
  /\ LineCheck gthird [0; 0; 3] = Ok false
  /\ LineCheck gthird [0; 1; 3] = Ok true.
Proof. repeat split; vm_compute; reflexivity. Qed.

(** X29.  The slope cut is not kept at the recorded [fMinDepth].  In the
    build over two planes with four levels and slope cut 1/2 (hash: the
    sum of the bins; initial [fMinDepth]: 2^32 - 1), the pattern [0, 7]
    ends with [fMinDepth] 3 although it fails [TestSlope] at depth 3,
    where its slope is 6/8; it passes at depth 4.  It is created as a
    child of [0, 3] at depth 4; later [0, 3] is reached at depth 2, its
    child list is not made again, and the loop over the children takes
    [0, 7] to depth 3 without a test. *)
Theorem slope_cut_not_kept_at_fMinDepth :
  exists g tree pa,
    Generate Hash kMaxUInt 9 ctor S4 = Ok (g, Some tree)
    /\ heap g !! 8%nat = Some pa
    /\ fBits pa = [0; 7]
    /\ fMinDepth pa = 3
    /\ TestSlope g (fBits pa) (fMinDepth pa) = false
    /\ TestSlope g (fBits pa) 4 = true.
Proof.
  eexists _, _, _. split; [vm_compute; reflexivity|].
  split; [reflexivity|]. repeat split; vm_compute; reflexivity.
Qed.

End ScenarioExtras.
